(** * PyBipartiteMatching: enumeration of perfect and maximum matchings

    A shallow embedding of [py_bipartite_matching/py_bipartite_matching.py]
    (Uno's enumeration algorithms on top of networkx) and the properties
    its specification states about it.

    - Python dictionaries (matchings) are [gmap node node]: two dictionaries
      are equal exactly when they hold the same pairs.
    - A networkx graph with the [bipartite] node attribute is a record of a
      labelled node list and an edge list read without direction.
    - A generator is the list of the values it yields together with the way
      it stops (returns, raises, or runs out of the recursion budget). *)

From stdpp Require Import gmap list fin_maps relations.
From Stdlib Require Import Lia.

(** ** Sides, exceptions, generators *)

(** [LEFT = 0] and [RIGHT = 1]: the values of the [bipartite] attribute. *)
Inductive side := LEFT | RIGHT.

#[global] Instance side_eq_dec : EqDecision side.
Proof. solve_decision. Defined.

Inductive exn :=
| AssertionError
| KeyError
| IndexError
| ValueError
| NetworkXError.

Inductive outcome :=
| Returned
| Raised (e : exn)
| OutOfFuel.

Module Gen.

(** The values yielded so far and how the generator stopped. *)
Record t (A : Type) := Make { emitted : list A; stop : outcome }.
Arguments Make {A} _ _.
Arguments emitted {A} _.
Arguments stop {A} _.

Definition ret {A} : t A := Make [] Returned.
Definition yield {A} (x : A) : t A := Make [x] Returned.
Definition raise {A} (e : exn) : t A := Make [] (Raised e).
Definition diverge {A} : t A := Make [] OutOfFuel.

(** Sequencing of two generator bodies: the second runs only when the
    first returns. *)
Definition seq {A} (g1 g2 : t A) : t A :=
  match stop g1 with
  | Returned => Make (emitted g1 ++ emitted g2) (stop g2)
  | _ => g1
  end.

(** [assert b] *)
Definition assert {A} (b : bool) (k : t A) : t A :=
  if b then k else raise AssertionError.

End Gen.

Notation "g1 ;; g2" := (Gen.seq g1 g2) (at level 100, g2 at level 200, right associativity).

Section Model.

Context {node : Type} `{Countable node}.

Local Abbreviation dict := (gmap node node).

(** ** Graphs *)

Record Graph := mkGraph {
  nodes : list (node * side);
  edges : list (node * node)
}.

Record DiGraph := mkDiGraph {
  dnodes : list (node * side);
  arcs : list (node * node)
}.

(** [graph.nodes[v]['bipartite']]; [None] is the [KeyError]. *)
Fixpoint label (ns : list (node * side)) (v : node) : option side :=
  match ns with
  | [] => None
  | (u, s) :: ns' => if decide (u = v) then Some s else label ns' v
  end.

(** Modelled from the spec: [graphs_utils.top_nodes], the vertices
    labelled TOP, in the order of the graph. *)
Definition top_nodes (graph : Graph) : list node :=
  (filter (λ p, p.2 = LEFT) (nodes graph)).*1.

(** Modelled from the spec: [graphs_utils.bottom_nodes], the vertices
    labelled BOTTOM, in the order of the graph. *)
Definition bottom_nodes (graph : Graph) : list node :=
  (filter (λ p, p.2 = RIGHT) (nodes graph)).*1.

Definition has_edge (graph : Graph) (u v : node) : Prop :=
  (u, v) ∈ edges graph ∨ (v, u) ∈ edges graph.

#[global] Instance has_edge_dec graph u v : Decision (has_edge graph u v).
Proof. unfold has_edge. apply _. Defined.

Definition incident (u : node) (e : node * node) : Prop := e.1 = u ∨ e.2 = u.

#[global] Instance incident_dec u e : Decision (incident u e).
Proof. unfold incident. apply _. Defined.

(** [graph.neighbors(v)] *)
Definition neighbors (graph : Graph) (v : node) : list node :=
  omap (λ e, if decide (e.1 = v) then Some e.2
             else if decide (e.2 = v) then Some e.1 else None) (edges graph).

(** Modelled from the spec: [graphs_utils.graph_without_edge], the graph
    with the single edge {u, v} removed; it fails ([None]) when the edge is
    absent. *)
Definition graph_without_edge (graph : Graph) (edge : node * node) : option Graph :=
  if decide (has_edge graph edge.1 edge.2)
  then Some (mkGraph (nodes graph)
               (filter (λ e, e ≠ edge ∧ e ≠ (edge.2, edge.1)) (edges graph)))
  else None.

(** Modelled from the spec: [graphs_utils.graph_without_nodes_of_edge], the
    graph with both endpoints removed along with all incident edges. *)
Definition graph_without_nodes_of_edge (graph : Graph) (edge : node * node) : Graph :=
  mkGraph (filter (λ p, p.1 ≠ edge.1 ∧ p.1 ≠ edge.2) (nodes graph))
          (filter (λ e, ¬ incident edge.1 e ∧ ¬ incident edge.2 e) (edges graph)).

(** The arc of D(G, M) for one edge of G.  The edge is read from its top
    endpoint [t] to its bottom endpoint [b]; a matched edge is the arc
    [t -> b] and an unmatched edge the arc [b -> t]. *)
Definition orient (top : list node) (matching : dict) (e : node * node) : node * node :=
  let tb := if decide (e.1 ∈ top) then e else (e.2, e.1) in
  if decide (matching !! tb.1 = Some tb.2) then tb else (tb.2, tb.1).

(** Modelled from the spec: [graphs_utils.create_directed_matching_graph],
    the directed matching graph D(G, M): the vertices of G with their
    labels and one arc per edge of G.  Of the two orientations the spec
    describes, this is the one of its feasible-path finder and of the
    comment in [_find_feaseable_two_edge_path] ([left1 -> right -> left2]
    with [left1] matched to [right]): matched edges run top to bottom and
    unmatched edges bottom to top.  It is the orientation under which the
    source's [assert matching_prime != matching] can hold. *)
Definition create_directed_matching_graph
    (graph : Graph) (top : list node) (matching : dict) : DiGraph :=
  mkDiGraph (nodes graph) (orient top matching <$> edges graph).

(** networkx [DiGraph.to_undirected]: the same vertices, and one edge for
    each pair of vertices joined by an arc in either direction. *)
Fixpoint undirected (l : list (node * node)) : list (node * node) :=
  match l with
  | [] => []
  | a :: l' =>
      let r := undirected l' in
      if decide (a ∈ r ∨ (a.2, a.1) ∈ r) then r else a :: r
  end.

Definition to_undirected (d : DiGraph) : Graph :=
  mkGraph (dnodes d) (undirected (arcs d)).

(** ** The enumerators *)

(** Python's [l[i]] for an integer [i] that may be negative; [None] is the
    [IndexError]. *)
Definition py_index (l : list node) (i : Z) : option node :=
  if decide (0 ≤ i)%Z then l !! Z.to_nat i
  else if decide (- Z.of_nat (length l) ≤ i)%Z then l !! Z.to_nat (Z.of_nat (length l) + i)
  else None.

(** [range(0, n, 2)] *)
Definition range2 (n : nat) : list nat := (λ j, 2 * j) <$> seq 0 (Nat.div2 (S n)).

(** One round of the flipping loop: [matching_prime[cycle[i]] = cycle[i - 1]]. *)
Definition flip_step (cycle : list node) (acc : option dict) (i : nat) : option dict :=
  m ← acc;
  k ← cycle !! i;
  v ← py_index cycle (Z.of_nat i - 1);
  Some (<[k := v]> m).

(** [matching_prime = matching.copy()] followed by the loop
    [for i in range(0, len(cycle), 2): matching_prime[cycle[i]] = cycle[i - 1]]. *)
Definition flip_cycle (matching : dict) (cycle : list node) : option dict :=
  foldl (flip_step cycle) (Some matching) (range2 (length cycle)).

(** [raw_cycle[-1:] + raw_cycle[:-1]] *)
Definition rotate_right (l : list node) : list node :=
  drop (length l - 1) l ++ take (length l - 1) l.

Definition _start_cycle_with_left (graph : Graph) (raw_cycle : list node) : exn + list node :=
  match raw_cycle with
  | [] => inl IndexError
  | v0 :: _ =>
      match label (nodes graph) v0 with
      | None => inl KeyError
      | Some LEFT => inr raw_cycle
      | Some RIGHT => inr (rotate_right raw_cycle)
      end
  end.

(** The scan of [_find_feaseable_two_edge_path] over the vertices of the
    graph: the first matched LEFT vertex whose partner is in the graph and
    has a neighbour that is not a key of the matching. *)
Fixpoint feasible_scan (graph : Graph) (matching : dict) (ns : list (node * side))
    : option (node * node * node) :=
  match ns with
  | [] => None
  | (node1, s) :: ns' =>
      match s, matching !! node1 with
      | LEFT, Some right_ =>
          if decide (right_ ∈ (nodes graph).*1) then
            match list_find (λ node2, matching !! node2 = None) (neighbors graph right_) with
            | Some (_, left2) => Some (node1, right_, left2)
            | None => feasible_scan graph matching ns'
            end
          else feasible_scan graph matching ns'
      | _, _ => feasible_scan graph matching ns'
      end
  end.

Definition _find_feaseable_two_edge_path (graph : Graph) (matching : dict)
    : option (node * node * node) :=
  feasible_scan graph matching (nodes graph).

(** The collaborators the enumerators call and whose code is not part of
    the sources: the seed matcher of networkx, the SCC trimmer and the cycle
    finder of [graphs_utils].  [find_cycle_with_edge_of_matching] answers
    [None] where the source raises [NetworkXNoCycle]. *)
Variable maximum_matching : Graph → list node → dict.
Variable strongly_connected_components_decomposition : DiGraph → DiGraph.
Variable find_cycle_with_edge_of_matching : DiGraph → dict → option (list node).

(** The two statements
    [assert len(graph.edges) == len(trimmed.edges)] and
    [assert len(graph.nodes) == len(trimmed.nodes)]. *)
Definition same_size (graph : Graph) (d : DiGraph) : bool :=
  bool_decide (length (edges graph) = length (arcs d)) &&
  bool_decide (length (nodes graph) = length (dnodes d)).

(** Build D(graph, matching), trim it, read it as an undirected graph and
    check the two assertions; [None] is the [AssertionError]. *)
Definition trimmed_graph (graph : Graph) (matching : dict) : option Graph :=
  let directed_match_graph :=
    create_directed_matching_graph graph (top_nodes graph) matching in
  let trimmed := strongly_connected_components_decomposition directed_match_graph in
  let graph' := to_undirected trimmed in
  if same_size graph' trimmed then Some graph' else None.

(** [assert directed_match_graph.nodes[cycle[0]]['bipartite'] == LEFT] *)
Definition assert_starts_left {A} (d : DiGraph) (cycle : list node) (k : Gen.t A) : Gen.t A :=
  match cycle with
  | [] => Gen.raise IndexError
  | c0 :: _ =>
      match label (dnodes d) c0 with
      | None => Gen.raise KeyError
      | Some LEFT => k
      | Some RIGHT => Gen.raise AssertionError
      end
  end.

(** [edge = tuple(cycle[:2])], a pair when the cycle has two vertices. *)
Definition first_edge (cycle : list node) : option (node * node) :=
  match cycle with
  | c0 :: c1 :: _ => Some (c0, c1)
  | _ => None
  end.

(** The arguments of the recursive call on G+(e) in the perfect
    enumerator: the graph without the endpoints of [edge], trimmed, and the
    matching handed down; [None] is the [AssertionError]. *)
Definition perfect_plus_call (graph : Graph) (matching : dict) (edge : node * node)
    : option (Graph * dict) :=
  let graph_plus := graph_without_nodes_of_edge graph edge in
  graph_plus ← trimmed_graph graph_plus matching;
  Some (graph_plus, matching).

(** The arguments of the recursive call on G-(e) in the perfect
    enumerator. *)
Definition perfect_minus_call (graph : Graph) (matching_prime : dict) (edge : node * node)
    : exn + Graph * dict :=
  match graph_without_edge graph edge with
  | None => inl NetworkXError
  | Some graph_minus =>
      match trimmed_graph graph_minus matching_prime with
      | None => inl AssertionError
      | Some graph_minus => inr (graph_minus, matching_prime)
      end
  end.

Fixpoint _enum_perfect_matchings_iter (fuel : nat) (graph : Graph) (matching : dict)
    : Gen.t dict :=
  match fuel with
  | 0 => Gen.diverge
  | S fuel =>
    if decide (length (edges graph) = 0) then Gen.ret else
    let directed_match_graph :=
      create_directed_matching_graph graph (top_nodes graph) matching in
    match find_cycle_with_edge_of_matching directed_match_graph matching with
    | None => Gen.ret
    | Some raw_cycle =>
      match _start_cycle_with_left graph raw_cycle with
      | inl e => Gen.raise e
      | inr cycle =>
        assert_starts_left directed_match_graph cycle (
        match flip_cycle matching cycle with
        | None => Gen.raise IndexError
        | Some matching_prime =>
          Gen.assert (bool_decide (matching_prime ≠ matching)) (
          Gen.yield matching_prime ;;
          match first_edge cycle with
          | None => Gen.raise ValueError
          | Some edge =>
            match perfect_plus_call graph matching edge with
            | None => Gen.raise AssertionError
            | Some (graph_plus, m) => _enum_perfect_matchings_iter fuel graph_plus m
            end ;;
            match perfect_minus_call graph matching_prime edge with
            | inl e => Gen.raise e
            | inr (graph_minus, m) => _enum_perfect_matchings_iter fuel graph_minus m
            end
          end)
        end)
      end
    end
  end.

(** The arguments of the recursive call on G+(e): the graph without the
    endpoints of [edge], the matching handed down, and the digraph built
    from the two. *)
Definition maximum_plus_call (graph : Graph) (matching : dict) (edge : node * node)
    : Graph * dict * DiGraph :=
  let graph_plus := graph_without_nodes_of_edge graph edge in
  (graph_plus, matching,
   create_directed_matching_graph graph_plus (top_nodes graph_plus) matching).

(** The arguments of the recursive call on G-(e); [None] is the
    [NetworkXError] of removing an absent edge. *)
Definition maximum_minus_call (graph : Graph) (matching : dict) (edge : node * node)
    : option (Graph * dict * DiGraph) :=
  graph_minus ← graph_without_edge graph edge;
  Some (graph_minus, matching,
        create_directed_matching_graph graph_minus (top_nodes graph_minus) matching).

Fixpoint _enum_maximum_matchings_iter (fuel : nat) (graph : Graph) (matching : dict)
    (directed_match_graph : DiGraph) : Gen.t dict :=
  match fuel with
  | 0 => Gen.diverge
  | S fuel =>
    if decide (length (edges graph) = 0) then Gen.ret else
    let raw_cycle :=
      default [] (find_cycle_with_edge_of_matching directed_match_graph matching) in
    match raw_cycle with
    | _ :: _ =>
      match _start_cycle_with_left graph raw_cycle with
      | inl e => Gen.raise e
      | inr cycle =>
        assert_starts_left directed_match_graph cycle (
        match flip_cycle matching cycle with
        | None => Gen.raise IndexError
        | Some matching_prime =>
          Gen.assert (bool_decide (matching_prime ≠ matching)) (
          Gen.yield matching_prime ;;
          match first_edge cycle with
          | None => Gen.raise ValueError
          | Some edge =>
            (let '(graph_plus, m, d) := maximum_plus_call graph matching edge in
             _enum_maximum_matchings_iter fuel graph_plus m d) ;;
            match maximum_minus_call graph matching_prime edge with
            | None => Gen.raise NetworkXError
            | Some (graph_minus, m, d) => _enum_maximum_matchings_iter fuel graph_minus m d
            end
          end)
        end)
      end
    | [] =>
      match _find_feaseable_two_edge_path graph matching with
      | None => Gen.ret
      | Some (left1, right_, left2) =>
        match matching !! left1 with
        | None => Gen.raise KeyError
        | Some _ =>
          let matching_prime := <[left2 := right_]> (delete left1 matching) in
          Gen.assert (bool_decide (matching_prime ≠ matching)) (
          Gen.yield matching_prime ;;
          let edge := (left2, right_) in
          (let '(graph_plus, m, d) := maximum_plus_call graph matching_prime edge in
           _enum_maximum_matchings_iter fuel graph_plus m d) ;;
          match maximum_minus_call graph matching edge with
          | None => Gen.raise NetworkXError
          | Some (graph_minus, m, d) => _enum_maximum_matchings_iter fuel graph_minus m d
          end)
        end
      end
    end
  end.

(** [{k: v for k, v in matching.items() if k in top_nodes(graph)}] *)
Definition top_to_bottom (graph : Graph) (matching : dict) : dict :=
  filter (λ kv, kv.1 ∈ top_nodes graph) matching.

(** The recursion removes an edge of the graph at every level, so a budget
    above the number of edges is never used up. *)
Definition budget (graph : Graph) : nat := S (length (edges graph)).

Definition enum_perfect_matchings (graph : Graph) : Gen.t dict :=
  if decide (length (top_nodes graph) ≠ length (bottom_nodes graph)) then Gen.ret else
  let size := length (top_nodes graph) in
  let matching := maximum_matching graph (top_nodes graph) in
  let matching := top_to_bottom graph matching in
  if decide (matching ≠ ∅ ∧ size = base.size matching) then
    Gen.yield matching ;;
    match trimmed_graph graph matching with
    | None => Gen.raise AssertionError
    | Some graph => _enum_perfect_matchings_iter (budget graph) graph matching
    end
  else Gen.ret.

Definition enum_maximum_matchings (graph : Graph) : Gen.t dict :=
  let matching := maximum_matching graph (top_nodes graph) in
  let matching := top_to_bottom graph matching in
  if decide (matching ≠ ∅) then
    Gen.yield matching ;;
    let directed_match_graph :=
      create_directed_matching_graph graph (top_nodes graph) matching in
    let trimmed_directed_match_graph :=
      strongly_connected_components_decomposition directed_match_graph in
    _enum_maximum_matchings_iter (budget graph) graph matching trimmed_directed_match_graph
  else Gen.ret.

(** ** Well-formed inputs *)

(** The precondition of both enumerators: the graph is bipartite with
    labelled sides.  Every vertex is listed once, and every edge joins a
    LEFT vertex and a RIGHT vertex of the graph. *)
Definition opposite (graph : Graph) (u v : node) : Prop :=
  (label (nodes graph) u = Some LEFT ∧ label (nodes graph) v = Some RIGHT) ∨
  (label (nodes graph) u = Some RIGHT ∧ label (nodes graph) v = Some LEFT).

Record bipartite (graph : Graph) : Prop := {
  bip_nodup : NoDup (nodes graph).*1;
  bip_edges : ∀ u v, (u, v) ∈ edges graph → opposite graph u v
}.

(** A matching of [graph] as the enumerators emit it: a dictionary from
    LEFT vertices to RIGHT vertices whose pairs are edges and in which no
    RIGHT vertex occurs twice. *)
Record is_matching (graph : Graph) (m : dict) : Prop := {
  matching_edge : ∀ t b, m !! t = Some b → has_edge graph t b;
  matching_key : ∀ t b, m !! t = Some b → label (nodes graph) t = Some LEFT;
  matching_value : ∀ t b, m !! t = Some b → label (nodes graph) b = Some RIGHT;
  matching_inj : ∀ t t' b, m !! t = Some b → m !! t' = Some b → t = t'
}.

(** What networkx's [maximum_matching] returns: a dictionary that holds
    every matched edge in both directions. *)
Record nx_matching (graph : Graph) (mm : dict) : Prop := {
  seed_edge : ∀ u v, mm !! u = Some v → has_edge graph u v;
  seed_sym : ∀ u v, mm !! u = Some v → mm !! v = Some u
}.

(** The contract of networkx's [maximum_matching]: no matching of the
    graph is larger than the top-to-bottom half of what it returns. *)
Record seed_contract (graph : Graph) (mm : dict) : Prop := {
  seed_nx : nx_matching graph mm;
  seed_max : ∀ m, is_matching graph m → size m ≤ size (top_to_bottom graph mm)
}.

(** Keys on the LEFT, values on the RIGHT. *)
Definition sided (graph : Graph) (m : dict) : Prop :=
  ∀ t b, m !! t = Some b →
    label (nodes graph) t = Some LEFT ∧ label (nodes graph) b = Some RIGHT.

(** The maximum matching number of a graph. *)
Definition maximum_matching_number (graph : Graph) (k : nat) : Prop :=
  (∃ m, is_matching graph m ∧ size m = k) ∧
  ∀ m, is_matching graph m → size m ≤ k.

(** A simple directed cycle of a digraph as a list of vertices: every
    vertex is followed by an arc to the next one, the last by an arc to the
    first. *)
Record directed_cycle (d : DiGraph) (c : list node) : Prop := {
  cycle_nonempty : c ≠ [];
  cycle_simple : NoDup c;
  cycle_arcs : ∀ i u v,
    c !! i = Some u → c !! (S i mod length c) = Some v → (u, v) ∈ arcs d
}.

(** The normalized cycles the enumerators flip: the cycle starts at a top
    vertex, tops and bottoms alternate, the edge from each top to the
    bottom after it is matched, and the edge from each bottom to the top
    after it is an edge of the graph that is not matched.  This is the
    pattern of a directed cycle of [create_directed_matching_graph]. *)
Record alternating_cycle (graph : Graph) (m : dict) (c : list node) : Prop := {
  ac_nonempty : c ≠ [];
  ac_even : Nat.Even (length c);
  ac_simple : NoDup c;
  ac_matched : ∀ i t b, Nat.Even i →
    c !! i = Some t → c !! (S i mod length c) = Some b → m !! t = Some b;
  ac_unmatched : ∀ i b t, Nat.Odd i →
    c !! i = Some b → c !! (S i mod length c) = Some t →
    has_edge graph t b ∧ m !! t ≠ Some b
}.

(** E(C), each edge written from its top endpoint: the vertex at an even
    position of the cycle with the vertex after it or the vertex before
    it. *)
Definition cycle_edge (c : list node) (t b : node) : Prop :=
  ∃ i, Nat.Even i ∧ c !! i = Some t ∧
       (c !! (S i mod length c) = Some b ∨
        ∃ j, c !! j = Some b ∧ S j mod length c = i).

(** A digraph of networkx keeps the endpoints of its arcs among its
    vertices. *)
Definition closed (d : DiGraph) : Prop :=
  ∀ u v, (u, v) ∈ arcs d → u ∈ (dnodes d).*1 ∧ v ∈ (dnodes d).*1.

(** The contract of the SCC trimmer as far as the soundness of the
    enumeration needs it: trimming only deletes arcs and vertices. *)
Record trimmer_contract : Prop := {
  trim_arcs : ∀ d, arcs (strongly_connected_components_decomposition d) `sublist_of` arcs d;
  trim_nodes : ∀ d,
    dnodes (strongly_connected_components_decomposition d) `sublist_of` dnodes d;
  trim_closed : ∀ d, closed d → closed (strongly_connected_components_decomposition d)
}.

(** The contract of the cycle finder: what it returns is a simple directed
    cycle of the digraph it was given. *)
Definition finder_contract : Prop :=
  ∀ d m c, find_cycle_with_edge_of_matching d m = Some c → directed_cycle d c.

(** [graph'] is [graph] with some vertices and edges deleted. *)
Record subgraph (graph' graph : Graph) : Prop := {
  sub_edges : ∀ u v, has_edge graph' u v → has_edge graph u v;
  sub_nodes : nodes graph' `sublist_of` nodes graph
}.

(** ** The invariant of the recursion

    [graph0] is the graph the enumeration was started on, [graph] the graph
    of the current recursion frame and [m] its matching. *)

(** What holds when a frame is entered. *)
Record frame_pre (graph0 graph : Graph) (m : dict) : Prop := {
  pre_bipartite : bipartite graph;
  pre_edges : ∀ u v, has_edge graph u v → has_edge graph0 u v;
  pre_matching : is_matching graph0 m
}.

(** What holds of a matching [n] emitted by a frame: it is a matching of
    [graph0] of the size of [m], it differs from [m], it agrees with [m] on
    the tops outside [graph], and its new pairs are edges of [graph]. *)
Record frame_post (graph0 graph : Graph) (m n : dict) : Prop := {
  post_matching : is_matching graph0 n;
  post_size : size n = size m;
  post_differs : n ≠ m;
  post_outside : ∀ t, t ∉ (nodes graph).*1 → n !! t = m !! t;
  post_origin : ∀ t b, n !! t = Some b → m !! t = Some b ∨ has_edge graph t b
}.

Definition sound_list (graph0 graph : Graph) (m : dict) (l : list dict) : Prop :=
  NoDup l ∧ Forall (frame_post graph0 graph m) l.

(** The matchings of the branch that keeps the pair of [t], and those of
    the branch that avoids the pair [(t, b)]. *)
Definition keeps (graph0 graph : Graph) (m : dict) (t : node) (l : list dict) : Prop :=
  NoDup l ∧ Forall (λ n, frame_post graph0 graph m n ∧ n !! t = m !! t) l.

Definition avoids (graph0 graph : Graph) (m : dict) (t b : node) (l : list dict) : Prop :=
  NoDup l ∧ Forall (λ n, frame_post graph0 graph m n ∧ n !! t ≠ Some b) l.

(** The seed both enumerators start from. *)
Definition seed (graph : Graph) : dict :=
  top_to_bottom graph (maximum_matching graph (top_nodes graph)).

(** ** Cycles as lists of (top, bottom) pairs *)

(** A cycle of even length [t0; b0; t1; b1; ...] written from its pairs. *)
Fixpoint interleave (ps : list (node * node)) : list node :=
  match ps with
  | [] => []
  | p :: ps' => p.1 :: p.2 :: interleave ps'
  end.

(** The pairs of a cycle of even length. *)
Fixpoint pairs_of (c : list node) : list (node * node) :=
  match c with
  | t :: b :: c' => (t, b) :: pairs_of c'
  | _ => []
  end.

(** The pairs the flip writes: every top with the bottom that precedes it,
    [prev] preceding the first one. *)
Fixpoint shifted (prev : node) (ps : list (node * node)) : list (node * node) :=
  match ps with
  | [] => []
  | p :: ps' => (p.1, prev) :: shifted p.2 ps'
  end.

Definition write (acc : dict) (p : node * node) : dict := <[p.1 := p.2]> acc.

(** The pattern of a cycle of D(G, M) that starts at a top vertex, on the
    pairs of the cycle: every pair is matched, and every top is joined to
    the bottom before it by an edge that is not matched. *)
Record alternating_pairs (graph : Graph) (m : dict)
    (prev : node) (ps : list (node * node)) : Prop := {
  alt_tops : NoDup ps.*1;
  alt_bottoms : NoDup ps.*2;
  alt_matched : ∀ t b, (t, b) ∈ ps → m !! t = Some b;
  alt_unmatched : ∀ t b, (t, b) ∈ shifted prev ps → has_edge graph t b ∧ m !! t ≠ Some b
}.

(** ** The invariant of the recursion, for completeness *)

(** The arcs of a digraph as a relation. *)
Definition arc_rel (d : DiGraph) (u v : node) : Prop := (u, v) ∈ arcs d.

(** An edge list without repeated edges, in either direction. *)
Definition simple_edges (l : list (node * node)) : Prop :=
  NoDup l ∧ ∀ u v, (u, v) ∈ l → (v, u) ∉ l.

(** What holds when a frame is entered, for the completeness of the
    enumeration. *)
Record frame_ok (graph0 graph : Graph) (m : dict) : Prop := {
  ok_pre : frame_pre graph0 graph m;
  ok_nodes : nodes graph `sublist_of` nodes graph0;
  ok_simple : simple_edges (edges graph)
}.

(** The matchings a frame still has to emit: those that differ from [m],
    cover the bottoms [m] covers, and differ from [m] on edges of [graph]
    only. *)
Record target (graph0 graph : Graph) (m n : dict) : Prop := {
  tg_matching : is_matching graph0 n;
  tg_differs : n ≠ m;
  tg_bottoms : ∀ b, (∃ t, m !! t = Some b) ↔ (∃ t, n !! t = Some b);
  tg_diff : ∀ t b,
    (n !! t = Some b ∧ m !! t ≠ Some b) ∨ (m !! t = Some b ∧ n !! t ≠ Some b) →
    has_edge graph t b
}.

(** What the digraph of a frame of the maximum enumerator has to be: a part
    of D(G, M) that keeps every arc of D(G, M) lying on a cycle. *)
Record digraph_ok (graph : Graph) (m : dict) (d : DiGraph) : Prop := {
  dg_arcs : arcs d ⊆ arcs (create_directed_matching_graph graph (top_nodes graph) m);
  dg_labels : ∀ v s, label (dnodes d) v = Some s → label (nodes graph) v = Some s;
  dg_closed : closed d;
  dg_cyclic : ∀ u v,
    (u, v) ∈ arcs (create_directed_matching_graph graph (top_nodes graph) m) →
    rtc (arc_rel (create_directed_matching_graph graph (top_nodes graph) m)) v u →
    (u, v) ∈ arcs d
}.

(** The SCC trimmer keeps every arc that lies on a cycle. *)
Definition trimmer_complete : Prop :=
  ∀ (d : DiGraph) u v,
    (u, v) ∈ arcs d → rtc (arc_rel d) v u →
    (u, v) ∈ arcs (strongly_connected_components_decomposition d).

(** The cycle finder reports "no cycle" only when no arc lies on a cycle. *)
Definition finder_complete : Prop :=
  ∀ (d : DiGraph) (m : dict),
    find_cycle_with_edge_of_matching d m = None →
    ∀ u v, (u, v) ∈ arcs d → ¬ rtc (arc_rel d) v u.

(** ** Matchings that cover the same vertices *)

(** The key a dictionary holds a value under. *)
Definition key_of (n : dict) (b : node) : option node :=
  (λ r, r.2.1) <$> list_find (λ p, p.2 = b) (map_to_list n).

(** Follow the pair of [t] in [m] to its bottom, and the pair of that
    bottom in [n] back to a top. *)
Definition successor (m n : dict) (t : node) : node :=
  default t (m !! t ≫= key_of n).

(** The arcs of D(G, m) on which [m] and [n] differ: a pair of [m] that is
    not in [n] from its top to its bottom, a pair of [n] that is not in [m]
    from its bottom to its top. *)
Definition diff_arc (m n : dict) (u v : node) : Prop :=
  (m !! u = Some v ∧ n !! u ≠ Some v) ∨ (n !! v = Some u ∧ m !! v ≠ Some u).

(** No value is held under two keys. *)
Definition injective (m : dict) : Prop :=
  ∀ t t' b, m !! t = Some b → m !! t' = Some b → t = t'.

(** Two matchings that cover the same tops and the same bottoms. *)
Record same_cover (m n : dict) : Prop := {
  cover_inj_l : injective m;
  cover_inj_r : injective n;
  cover_tops : dom n = dom m;
  cover_bottoms : ∀ b, (∃ t, m !! t = Some b) ↔ (∃ t, n !! t = Some b)
}.

(** [n] covers the bottoms [m] covers. *)
Definition same_bottoms (m n : dict) : Prop :=
  ∀ b, (∃ t, n !! t = Some b) ↔ (∃ t, m !! t = Some b).

(** ** The matchings that cover every bottom *)

(** The injections of [bottoms] into [tops], each as the dictionary from
    the chosen tops to their bottoms. *)
Fixpoint all_matchings (tops bottoms : list node) : list dict :=
  match bottoms with
  | [] => [∅]
  | b :: bottoms =>
      t ← tops; (<[t := b]>) <$> all_matchings (filter (λ x, x ≠ t) tops) bottoms
  end.

(** [x] pairs tops with bottoms, no bottom twice, and every bottom once. *)
Definition saturating (tops bottoms : list node) (x : dict) : Prop :=
  (∀ t b, x !! t = Some b → t ∈ tops ∧ b ∈ bottoms) ∧
  (∀ t t' b, x !! t = Some b → x !! t' = Some b → t = t') ∧
  (∀ b, b ∈ bottoms → ∃ t, x !! t = Some b).

End Model.

Arguments Graph node : clear implicits.
Arguments DiGraph node : clear implicits.

(** * Reference collaborators and example graphs *)

Section Reference.

Context {node : Type} `{Countable node}.

Fixpoint first_some {A B} (f : A → option B) (l : list A) : option B :=
  match l with
  | [] => None
  | x :: l' => match f x with Some y => Some y | None => first_some f l' end
  end.

Definition successors (d : DiGraph node) (u : node) : list node :=
  omap (λ a, if decide (a.1 = u) then Some a.2 else None) (arcs d).

(** A depth-first search for a simple path from [cur] to [target] that
    avoids the vertices in [visited]. *)
Fixpoint simple_path (fuel : nat) (d : DiGraph node) (visited : list node)
    (cur target : node) : option (list node) :=
  match fuel with
  | 0 => None
  | S fuel =>
      if decide (cur = target) then Some [cur]
      else first_some
             (λ s, if decide (s ∈ cur :: visited) then None
                   else (cur ::.) <$> simple_path fuel d (cur :: visited) s target)
             (successors d cur)
  end.

(** Consecutive vertices of the list are joined by arcs. *)
Definition chain (d : DiGraph node) (p : list node) : Prop :=
  ∀ i x y, p !! i = Some x → p !! S i = Some y → (x, y) ∈ arcs d.

(** A simple path passes through each of its arcs once, so it has at most
    one vertex more than the digraph has arcs. *)
Definition path_budget (d : DiGraph node) : nat := S (length (arcs d)).

(** Modelled from the spec: [graphs_utils.find_cycle_with_edge_of_matching],
    the cycle finder.  It returns a simple directed cycle of the digraph, or
    reports that there is none: for the first arc [u -> v] that has a path
    from [v] back to [u], that path. *)
Definition reference_find_cycle (d : DiGraph node) (m : gmap node node)
    : option (list node) :=
  first_some (λ a, simple_path (path_budget d) d [] a.2 a.1) (arcs d).

(** Modelled from the spec:
    [graphs_utils.strongly_connected_components_decomposition], the SCC
    trimmer.  It deletes every arc whose two endpoints do not share a
    strongly connected component, that is every arc [u -> v] without a path
    from [v] back to [u]. *)
Definition reference_trim (d : DiGraph node) : DiGraph node :=
  mkDiGraph (dnodes d)
    (filter (λ a, is_Some (simple_path (path_budget d) d [] a.2 a.1)) (arcs d)).

(** A walk along arcs that ends in [target]. *)
Inductive walk (d : DiGraph node) (target : node) : list node → Prop :=
  | walk_end : walk d target [target]
  | walk_step x y p :
      (x, y) ∈ arcs d → walk d target (y :: p) → walk d target (x :: y :: p).

(** The arcs a walk passes through. *)
Fixpoint steps (p : list node) : list (node * node) :=
  match p with
  | x :: (y :: _) as p' => (x, y) :: steps p'
  | _ => []
  end.

End Reference.

(** networkx [complete_bipartite_graph(n1, n2)]: the vertices [0 .. n1-1]
    on the LEFT, the vertices [n1 .. n1+n2-1] on the RIGHT, and every edge
    between the two sides. *)
Definition complete_bipartite_graph (n1 n2 : nat) : Graph nat :=
  mkGraph (((λ i, (i, LEFT)) <$> seq 0 n1) ++ ((λ j, (j, RIGHT)) <$> seq n1 n2))
          (i ← seq 0 n1; (λ j, (i, j)) <$> seq n1 n2).

(** A maximum matching of the complete bipartite graph as networkx returns
    it: the top [i] with the bottom [n1 + i], in both directions. *)
Definition complete_seed (n1 n2 : nat) : gmap nat nat :=
  list_to_map (((λ i, (i, n1 + i)) <$> seq 0 (n1 `min` n2)) ++
               ((λ i, (n1 + i, i)) <$> seq 0 (n1 `min` n2))).

(** A seed matcher for complete bipartite graphs. *)
Definition complete_matcher (graph : Graph nat) (top : list nat) : gmap nat nat :=
  complete_seed (length top) (length (nodes graph) - length top).

(** [n (n-1) ... (n-k+1)] *)
Fixpoint falling (n k : nat) : nat :=
  match k with
  | 0 => 1
  | S k => n * falling (n - 1) k
  end.

(** K(2,2) with the tops 0, 1 and the bottoms 2, 3, and its seed
    [{0: 2, 1: 3}]. *)
Definition k22 : Graph nat := complete_bipartite_graph 2 2.
Definition seed22 : gmap nat nat := top_to_bottom k22 (complete_seed 2 2).
Definition matcher22 (graph : Graph nat) (top : list nat) : gmap nat nat := complete_seed 2 2.


(** Two tops, two bottoms and no edge. *)
Definition no_edges22 : Graph nat :=
  mkGraph [(0, LEFT); (1, LEFT); (2, RIGHT); (3, RIGHT)] [].

(** * Properties *)

Section Properties.

Context {node : Type} `{Countable node}.

Local Abbreviation dict := (gmap node node).

Implicit Types (graph : Graph node) (d : DiGraph node) (m mm matching : dict).
Implicit Types (ns : list (node * side)) (u v t b : node) (s : side).
Implicit Types (ps : list (node * node)).

(** ** Generators *)

Lemma emitted_yield_seq {A} (x : A) (g : Gen.t A) :
  Gen.emitted (Gen.yield x ;; g) = x :: Gen.emitted g.
Proof. done. Qed.

(** ** Labels and sides *)

Lemma label_Some ns v s : label ns v = Some s → (v, s) ∈ ns.
Proof.
  induction ns as [|[u s'] ns IH]; simpl; [done|].
  case_decide; intros Hl.
  - simplify_eq. left.
  - right. auto.
Qed.

Lemma label_NoDup ns v s : NoDup ns.*1 → (v, s) ∈ ns → label ns v = Some s.
Proof.
  induction ns as [|[u s'] ns IH]; simpl; intros Hnd Hin.
  - by apply elem_of_nil in Hin.
  - apply NoDup_cons in Hnd as [Hu Hnd].
    apply elem_of_cons in Hin as [Heq|Hin].
    + simplify_eq. by rewrite decide_True.
    + case_decide as Huv; [|by apply IH].
      subst. destruct Hu. apply list_elem_of_fmap. by exists (v, s).
Qed.

Lemma label_is_Some ns v : is_Some (label ns v) ↔ v ∈ ns.*1.
Proof.
  induction ns as [|[u s'] ns IH]; simpl.
  - split; [by intros [? ?]|by intros ?%elem_of_nil].
  - case_decide; subst.
    + split; [intros _; left|eauto].
    + rewrite IH. split; [by right|].
      intros [?|?]%elem_of_cons; [done|done].
Qed.

Lemma elem_of_top_nodes graph v :
  v ∈ top_nodes graph ↔ (v, LEFT) ∈ nodes graph.
Proof.
  unfold top_nodes. rewrite list_elem_of_fmap. split.
  - intros [[u s] [-> [Hs Hin]%list_elem_of_filter]]. simpl in *. by subst.
  - intros Hin. exists (v, LEFT). split; [done|]. by apply list_elem_of_filter.
Qed.

Lemma elem_of_bottom_nodes graph v :
  v ∈ bottom_nodes graph ↔ (v, RIGHT) ∈ nodes graph.
Proof.
  unfold bottom_nodes. rewrite list_elem_of_fmap. split.
  - intros [[u s] [-> [Hs Hin]%list_elem_of_filter]]. simpl in *. by subst.
  - intros Hin. exists (v, RIGHT). split; [done|]. by apply list_elem_of_filter.
Qed.

Lemma top_nodes_label graph v :
  NoDup (nodes graph).*1 →
  v ∈ top_nodes graph ↔ label (nodes graph) v = Some LEFT.
Proof.
  intros Hnd. rewrite elem_of_top_nodes. split.
  - by apply label_NoDup.
  - apply label_Some.
Qed.

Lemma top_to_bottom_lookup graph mm t b :
  top_to_bottom graph mm !! t = Some b ↔ mm !! t = Some b ∧ t ∈ top_nodes graph.
Proof. unfold top_to_bottom. by rewrite map_lookup_filter_Some. Qed.

Lemma has_edge_sym graph u v : has_edge graph u v → has_edge graph v u.
Proof. unfold has_edge. tauto. Qed.

(** The top-to-bottom half of what the seed matcher returns is a matching. *)
Lemma seed_is_matching graph mm :
  bipartite graph → nx_matching graph mm →
  is_matching graph (top_to_bottom graph mm).
Proof.
  intros Hb Hs. split.
  - intros t b [Hm _]%top_to_bottom_lookup. by eapply seed_edge.
  - intros t b [_ Ht]%top_to_bottom_lookup.
    by apply top_nodes_label; [apply Hb|].
  - intros t b [Hm Ht]%top_to_bottom_lookup.
    apply top_nodes_label in Ht; [|apply Hb].
    destruct (seed_edge _ _ Hs _ _ Hm) as [He|He];
      apply (bip_edges _ Hb) in He as [[? ?]|[? ?]]; congruence.
  - intros t t' b [Hm _]%top_to_bottom_lookup [Hm' _]%top_to_bottom_lookup.
    apply (seed_sym _ _ Hs) in Hm, Hm'. congruence.
Qed.

(** ** Cycles as lists of (top, bottom) pairs *)

Lemma length_interleave ps : length (interleave ps) = 2 * length ps.
Proof. induction ps as [|p ps IH]; simpl; lia. Qed.

Lemma interleave_app ps1 ps2 :
  interleave (ps1 ++ ps2) = interleave ps1 ++ interleave ps2.
Proof. induction ps1 as [|p ps1 IH]; simpl; [done|]. by rewrite IH. Qed.

Lemma lookup_interleave_even ps i : interleave ps !! (2 * i) = fst <$> ps !! i.
Proof.
  revert i. induction ps as [|p ps IH]; intros [|i]; simpl; try done.
  replace (i + S (i + 0)) with (S (2 * i)) by lia. simpl. apply IH.
Qed.

Lemma lookup_interleave_odd ps i : interleave ps !! (2 * i + 1) = snd <$> ps !! i.
Proof.
  revert i. induction ps as [|p ps IH]; intros [|i]; simpl; try done.
  replace (i + S (i + 0) + 1) with (S (2 * i + 1)) by lia. simpl. apply IH.
Qed.

Lemma interleave_pairs_of n (c : list node) :
  length c = 2 * n → interleave (pairs_of c) = c.
Proof.
  revert c. induction n as [|n IH]; intros c Hlen.
  - by destruct c.
  - destruct c as [|t [|b c]]; simpl in *; try lia.
    rewrite IH; [done|lia].
Qed.

Lemma even_length_interleave (c : list node) :
  Nat.Even (length c) → ∃ ps, c = interleave ps.
Proof.
  intros [n Hn]. exists (pairs_of c). symmetry. by eapply interleave_pairs_of.
Qed.

Lemma range2_even k : range2 (2 * k) = (λ j, 2 * j) <$> seq 0 k.
Proof.
  unfold range2. f_equal. f_equal.
  replace (S (2 * k)) with (S (2 * k)) by done.
  rewrite Nat.div2_succ_double. done.
Qed.

Lemma py_index_nonneg (l : list node) (i : nat) :
  py_index l (Z.of_nat i) = l !! i.
Proof.
  unfold py_index. rewrite decide_True by lia. by rewrite Nat2Z.id.
Qed.

Lemma py_index_minus_one (l : list node) :
  py_index l (-1) = last l.
Proof.
  unfold py_index. rewrite decide_False by lia.
  destruct l as [|x l].
  - by rewrite decide_False by (simpl; lia).
  - rewrite decide_True by (simpl; lia).
    rewrite last_lookup. f_equal. simpl. lia.
Qed.

Lemma last_interleave ps : last (interleave ps) = snd <$> last ps.
Proof.
  induction ps as [|p ps IH]; [done|].
  simpl. destruct ps as [|q ps]; [done|].
  simpl in *. done.
Qed.

(** The flipping loop, run on the pairs from position [length ps1] on. *)
Lemma flip_loop_from ps2 : ∀ ps1 m prev,
  py_index (interleave (ps1 ++ ps2)) (Z.of_nat (2 * length ps1) - 1) = Some prev →
  foldl (flip_step (interleave (ps1 ++ ps2))) (Some m)
        ((λ j, 2 * j) <$> seq (length ps1) (length ps2))
  = Some (foldl write m (shifted prev ps2)).
Proof.
  induction ps2 as [|[t b] ps2 IH]; intros ps1 m prev Hprev; [done|].
  assert (interleave (ps1 ++ (t, b) :: ps2) !! (2 * length ps1) = Some t) as Ht.
  { rewrite lookup_interleave_even, lookup_app_r by lia.
    by replace (length ps1 - length ps1) with 0 by lia. }
  assert (interleave (ps1 ++ (t, b) :: ps2) !! (2 * length ps1 + 1) = Some b) as Hb.
  { rewrite lookup_interleave_odd, lookup_app_r by lia.
    by replace (length ps1 - length ps1) with 0 by lia. }
  cbn [length seq]. rewrite fmap_cons. cbn [foldl shifted fst snd].
  unfold flip_step at 2. rewrite Ht. cbn [mbind option_bind]. rewrite Hprev.
  cbn [mbind option_bind]. fold (write m (t, prev)).
  specialize (IH (ps1 ++ [(t, b)]) (<[t := prev]> m) b).
  rewrite <- (assoc_L (++)) in IH. simpl in IH.
  rewrite length_app in IH. simpl in IH.
  replace (length ps1 + 1) with (S (length ps1)) in IH by lia.
  apply IH.
  replace (Z.of_nat (S (length ps1) + (S (length ps1) + 0)) - 1)%Z
    with (Z.of_nat (2 * length ps1 + 1)) by lia.
  by rewrite py_index_nonneg.
Qed.

(** On a cycle of even length the flip writes, for each pair, its top
    against the bottom that precedes it around the cycle. *)
Lemma flip_cycle_interleave m p ps :
  flip_cycle m (interleave (p :: ps))
  = Some (foldl write m (shifted (default p.2 (snd <$> last ps)) (p :: ps))).
Proof.
  unfold flip_cycle. rewrite length_interleave, range2_even.
  apply (flip_loop_from (p :: ps) [] m).
  simpl length. replace (Z.of_nat (2 * 0) - 1)%Z with (-1)%Z by lia.
  rewrite py_index_minus_one, last_interleave. simpl app.
  rewrite last_cons. by destruct (last ps).
Qed.

(** ** Flipping along an alternating cycle *)

Lemma foldl_write_notin (l : list (node * node)) m t :
  t ∉ l.*1 → foldl write m l !! t = m !! t.
Proof.
  revert m. induction l as [|p l IH]; intros m Hnot; [done|].
  rewrite fmap_cons, not_elem_of_cons in Hnot. destruct Hnot as [Hne Hnot].
  simpl. rewrite IH by done. unfold write. by rewrite lookup_insert_ne.
Qed.

Lemma foldl_write_in (l : list (node * node)) m t v :
  NoDup l.*1 → (t, v) ∈ l → foldl write m l !! t = Some v.
Proof.
  revert m. induction l as [|p l IH]; intros m Hnd Hin.
  - by apply elem_of_nil in Hin.
  - rewrite fmap_cons in Hnd. apply NoDup_cons in Hnd as [Hp Hnd].
    apply elem_of_cons in Hin as [<-|Hin]; simpl.
    + rewrite foldl_write_notin by done. unfold write. simpl. apply lookup_insert_eq.
    + by apply IH.
Qed.

Lemma foldl_write_lookup (l : list (node * node)) m t v :
  NoDup l.*1 →
  foldl write m l !! t = Some v ↔ (t, v) ∈ l ∨ ((t ∉ l.*1) ∧ m !! t = Some v).
Proof.
  intros Hnd. split.
  - intros Hl. destruct (decide (t ∈ l.*1)) as [Hin|Hnot].
    + left. apply list_elem_of_fmap in Hin as [[t' v'] [-> Hin]].
      rewrite (foldl_write_in _ _ _ _ Hnd Hin) in Hl. by simplify_eq.
    + right. by rewrite foldl_write_notin in Hl.
  - intros [Hin|[Hnot Hm]].
    + by apply foldl_write_in.
    + by rewrite foldl_write_notin.
Qed.

Lemma dom_foldl_write (l : list (node * node)) m :
  (∀ p, p ∈ l → is_Some (m !! p.1)) → dom (foldl write m l) = dom m.
Proof.
  revert m. induction l as [|p l IH]; intros m Hkeys; [done|].
  simpl. rewrite IH.
  - unfold write. rewrite dom_insert_L.
    apply subseteq_union_1_L, singleton_subseteq_l, elem_of_dom, Hkeys. left.
  - intros q Hq. unfold write. destruct (decide (p.1 = q.1)) as [->|Hne].
    + rewrite lookup_insert_eq. eauto.
    + rewrite lookup_insert_ne by done. apply Hkeys. by right.
Qed.

Lemma shifted_fst prev ps : (shifted prev ps).*1 = ps.*1.
Proof. revert prev. induction ps as [|p ps IH]; intros prev; simpl; [done|]. by rewrite IH. Qed.

Lemma shifted_snd prev ps :
  (shifted prev ps).*2 ++ [default prev (last ps.*2)] = prev :: ps.*2.
Proof.
  revert prev. induction ps as [|p ps IH]; intros prev; [done|].
  cbn [shifted]. rewrite !fmap_cons. cbn [snd app]. f_equal.
  assert (default prev (last (p.2 :: ps.*2)) = default p.2 (last ps.*2)) as ->.
  { rewrite last_cons. by destruct (last ps.*2). }
  apply IH.
Qed.

(** Around a whole cycle the flip hands out the bottoms of the cycle again,
    each to another top. *)
Lemma shifted_snd_perm p ps :
  (shifted (default p.2 (snd <$> last ps)) (p :: ps)).*2 ≡ₚ (p :: ps).*2.
Proof.
  pose proof (shifted_snd (default p.2 (snd <$> last ps)) (p :: ps)) as Hs.
  assert (default (default p.2 (snd <$> last ps)) (last (p :: ps).*2)
          = default p.2 (snd <$> last ps)) as Hl.
  { rewrite fmap_cons, last_cons, fmap_last. by destruct (last ps). }
  rewrite Hl in Hs.
  apply (Permutation_app_inv_r [default p.2 (snd <$> last ps)]).
  rewrite Hs. apply Permutation_cons_append.
Qed.

Section Flip.

Variables (graph : Graph node) (m : dict) (p : node * node) (ps : list (node * node)).

Let prev := default p.2 (snd <$> last ps).
Let m' := foldl write m (shifted prev (p :: ps)).

Hypothesis Hm : is_matching graph m.
Hypothesis Halt : alternating_pairs graph m prev (p :: ps).

Lemma flip_lookup t b :
  m' !! t = Some b ↔
  (t, b) ∈ shifted prev (p :: ps) ∨ ((t ∉ (p :: ps).*1) ∧ m !! t = Some b).
Proof.
  unfold m'. rewrite foldl_write_lookup; [by rewrite shifted_fst|].
  rewrite shifted_fst. apply Halt.
Qed.

Lemma flip_new_bottom t b :
  (t, b) ∈ shifted prev (p :: ps) → ∃ t0, (t0, b) ∈ p :: ps.
Proof.
  intros Hin.
  assert (b ∈ (shifted prev (p :: ps)).*2) as Hb.
  { apply list_elem_of_fmap. by exists (t, b). }
  unfold prev in Hb. rewrite shifted_snd_perm in Hb.
  apply list_elem_of_fmap in Hb as [[t0 b0] [-> Hin0]]. by exists t0.
Qed.

Lemma flip_new_top t b :
  (t, b) ∈ shifted prev (p :: ps) → ∃ b0, (t, b0) ∈ p :: ps.
Proof.
  intros Hin.
  assert (t ∈ (shifted prev (p :: ps)).*1) as Ht.
  { apply list_elem_of_fmap. by exists (t, b). }
  rewrite shifted_fst in Ht.
  apply list_elem_of_fmap in Ht as [[t0 b0] [-> Hin0]]. by exists b0.
Qed.

Lemma flip_is_matching : is_matching graph m'.
Proof.
  split.
  - intros t b [Hin|[_ Hold]]%flip_lookup.
    + by apply (alt_unmatched _ _ _ _ Halt).
    + by eapply matching_edge.
  - intros t b [Hin|[_ Hold]]%flip_lookup.
    + destruct (flip_new_top _ _ Hin) as [b0 Hin0].
      eapply matching_key; [done|]. by eapply (alt_matched _ _ _ _ Halt).
    + by eapply matching_key.
  - intros t b [Hin|[_ Hold]]%flip_lookup.
    + destruct (flip_new_bottom _ _ Hin) as [t0 Hin0].
      eapply matching_value; [done|]. by eapply (alt_matched _ _ _ _ Halt).
    + by eapply matching_value.
  - intros t t' b [Hin|[Hnot Hold]]%flip_lookup [Hin'|[Hnot' Hold']]%flip_lookup.
    + assert (NoDup (shifted prev (p :: ps)).*2) as Hnd.
      { unfold prev. rewrite shifted_snd_perm. apply Halt. }
      apply list_elem_of_lookup in Hin as [i Hi], Hin' as [j Hj].
      assert (i = j) as ->.
      { eapply (NoDup_lookup _ _ _ b Hnd); rewrite list_lookup_fmap.
        - by rewrite Hi.
        - by rewrite Hj. }
      congruence.
    + destruct (flip_new_bottom _ _ Hin) as [t0 Hin0].
      pose proof (alt_matched _ _ _ _ Halt _ _ Hin0) as Hm0.
      assert (t0 = t') as -> by by eapply matching_inj.
      destruct Hnot'. apply list_elem_of_fmap. by exists (t', b).
    + destruct (flip_new_bottom _ _ Hin') as [t0 Hin0].
      pose proof (alt_matched _ _ _ _ Halt _ _ Hin0) as Hm0.
      assert (t0 = t) as -> by by eapply matching_inj.
      destruct Hnot. apply list_elem_of_fmap. by exists (t, b).
    + by eapply matching_inj.
Qed.

Lemma flip_dom : dom m' = dom m.
Proof.
  apply dom_foldl_write. intros q Hq.
  destruct q as [t b]. destruct (flip_new_top _ _ Hq) as [b0 Hin0].
  simpl. rewrite (alt_matched _ _ _ _ Halt _ _ Hin0). eauto.
Qed.

Lemma flip_size : size m' = size m.
Proof. by rewrite <- !size_dom, flip_dom. Qed.

Lemma flip_first : m' !! p.1 = Some prev ∧ m !! p.1 = Some p.2 ∧ prev ≠ p.2.
Proof.
  assert ((p.1, prev) ∈ shifted prev (p :: ps)) as Hin by left.
  assert (m !! p.1 = Some p.2) as Hp.
  { apply (alt_matched _ _ _ _ Halt). destruct p. left. }
  split; [|split; [done|]].
  - apply flip_lookup. by left.
  - intros Heq. apply (alt_unmatched _ _ _ _ Halt) in Hin as [_ Hne].
    rewrite Heq in Hne. done.
Qed.

Lemma flip_differs : m' ≠ m.
Proof.
  destruct flip_first as (H1 & H2 & Hne). intros Heq. rewrite Heq in H1. congruence.
Qed.

(** The symmetric difference of the two matchings is the set of edges of
    the cycle. *)
Lemma flip_symmetric_difference t b :
  (m' !! t = Some b ∧ m !! t ≠ Some b) ∨ (m !! t = Some b ∧ m' !! t ≠ Some b) ↔
  (t, b) ∈ shifted prev (p :: ps) ∨ (t, b) ∈ p :: ps.
Proof.
  split.
  - intros [[Hnew Hold]|[Hold Hnew]].
    + apply flip_lookup in Hnew as [Hin|[_ Hm0]]; [by left|done].
    + destruct (decide (t ∈ (p :: ps).*1)) as [Hin|Hnot].
      * apply list_elem_of_fmap in Hin as [[t0 b0] [Heq Hin]]. simpl in Heq. subst t0.
        pose proof (alt_matched _ _ _ _ Halt _ _ Hin) as Hm0. right. congruence.
      * destruct Hnew. apply flip_lookup. by right.
  - intros [Hin|Hin].
    + left. split; [apply flip_lookup; by left|]. by apply (alt_unmatched _ _ _ _ Halt).
    + right. split; [by apply (alt_matched _ _ _ _ Halt)|].
      intros [Hin'|[Hnot _]]%flip_lookup.
      * destruct (flip_new_top _ _ Hin') as [b0 Hin0].
        apply (alt_unmatched _ _ _ _ Halt) in Hin' as [_ Hne].
        by apply (alt_matched _ _ _ _ Halt) in Hin.
      * destruct Hnot. apply list_elem_of_fmap. by exists (t, b).
Qed.

(** A pair of the flipped matching is a pair of the old one or an edge of
    the graph, and only tops of the cycle are rewritten. *)
Lemma flip_pair_origin t b : m' !! t = Some b → m !! t = Some b ∨ has_edge graph t b.
Proof.
  intros [Hin|[_ Hold]]%flip_lookup; [right|by left].
  by apply (alt_unmatched _ _ _ _ Halt).
Qed.

Lemma flip_outside t : t ∉ (p :: ps).*1 → m' !! t = m !! t.
Proof. intros Hnot. unfold m'. apply foldl_write_notin. by rewrite shifted_fst. Qed.

End Flip.

(** ** From the cycle to its pairs *)

Lemma succ_mod (i n : nat) : i < n → S i mod n = if decide (S i < n) then S i else 0.
Proof.
  intros Hi. case_decide.
  - by apply Nat.mod_small.
  - replace (S i) with n by lia. apply Nat.Div0.mod_same.
Qed.

Lemma lookup_shifted_0 prev ps : shifted prev ps !! 0 = (λ p, (p.1, prev)) <$> ps !! 0.
Proof. by destruct ps. Qed.

Lemma lookup_shifted_S prev ps j :
  shifted prev ps !! S j = p ← ps !! j; q ← ps !! S j; Some (q.1, p.2).
Proof.
  revert prev j. induction ps as [|p ps IH]; intros prev j; [done|].
  destruct j as [|j].
  - simpl. rewrite lookup_shifted_0. by destruct ps.
  - simpl. apply IH.
Qed.

Lemma interleave_perm ps : interleave ps ≡ₚ ps.*1 ++ ps.*2.
Proof.
  induction ps as [|p ps IH]; [done|].
  simpl. constructor. rewrite IH. apply Permutation_middle.
Qed.

(** The pairs of the cycle and the pairs the flip writes, read off the
    positions of the cycle. *)
Lemma elem_of_pairs_cycle ps t b :
  (t, b) ∈ ps ↔
  ∃ i, Nat.Even i ∧ interleave ps !! i = Some t ∧
       interleave ps !! (S i mod length (interleave ps)) = Some b.
Proof.
  rewrite length_interleave. split.
  - intros [k Hk]%list_elem_of_lookup. exists (2 * k).
    pose proof (lookup_lt_Some _ _ _ Hk) as Hlt.
    split; [by exists k|]. rewrite succ_mod, decide_True by lia.
    rewrite lookup_interleave_even, Hk. split; [done|].
    replace (S (2 * k)) with (2 * k + 1) by lia.
    by rewrite lookup_interleave_odd, Hk.
  - intros (i & [k ->] & Ht & Hb).
    pose proof (lookup_lt_Some _ _ _ Ht) as Hlt. rewrite length_interleave in Hlt.
    rewrite succ_mod, decide_True in Hb by lia.
    replace (S (2 * k)) with (2 * k + 1) in Hb by lia.
    rewrite lookup_interleave_even in Ht. rewrite lookup_interleave_odd in Hb.
    destruct (ps !! k) as [[t' b']|] eqn:Hk; simplify_eq/=.
    by eapply list_elem_of_lookup_2.
Qed.

Lemma elem_of_shifted_cycle p ps t b :
  (t, b) ∈ shifted (default p.2 (snd <$> last ps)) (p :: ps) ↔
  ∃ j, Nat.Odd j ∧ interleave (p :: ps) !! j = Some b ∧
       interleave (p :: ps) !! (S j mod length (interleave (p :: ps))) = Some t.
Proof.
  set (c := interleave (p :: ps)).
  assert (length c = 2 * S (length ps)) as Hlen by apply length_interleave.
  assert (c !! (2 * length ps + 1) = Some (default p.2 (snd <$> last ps))) as Hlast.
  { unfold c. rewrite lookup_interleave_odd. rewrite last_lookup.
    destruct ps as [|q ps]; [done|].
    replace (length (q :: ps)) with (S (pred (length (q :: ps)))) at 1 by done.
    simpl. destruct (lookup_lt_is_Some_2 (q :: ps) (length ps)) as [x Hx]; [simpl; lia|].
    simpl in Hx. by rewrite Hx. }
  rewrite Hlen. split.
  - intros [k Hk]%list_elem_of_lookup. destruct k as [|k].
    + exists (2 * length ps + 1). split; [by exists (length ps)|].
      rewrite succ_mod, decide_False by lia.
      simpl in Hk. by simplify_eq.
    + rewrite lookup_shifted_S in Hk.
      destruct ((p :: ps) !! k) as [[t1 b1]|] eqn:Hk1; [|done].
      cbn [mbind option_bind] in Hk.
      destruct ((p :: ps) !! S k) as [[t2 b2]|] eqn:Hk2; [|done].
      cbn [mbind option_bind fst snd] in Hk. simplify_eq.
      pose proof (lookup_lt_Some _ _ _ Hk2) as Hlt.
      exists (2 * k + 1). split; [by exists k|].
      rewrite succ_mod, decide_True by (simpl in *; lia).
      unfold c. rewrite lookup_interleave_odd, Hk1. split; [done|].
      replace (S (2 * k + 1)) with (2 * S k) by lia.
      by rewrite lookup_interleave_even, Hk2.
  - intros (j & [k ->] & Hb & Ht).
    pose proof (lookup_lt_Some _ _ _ Hb) as Hlt. rewrite Hlen in Hlt.
    rewrite succ_mod in Ht by lia.
    unfold c in Hb. rewrite lookup_interleave_odd in Hb.
    destruct ((p :: ps) !! k) as [[t1 b1]|] eqn:Hk1; [|done].
    simpl in Hb. simplify_eq.
    case_decide as Hd.
    + replace (S (2 * k + 1)) with (2 * S k) in Ht by lia.
      unfold c in Ht. rewrite lookup_interleave_even in Ht.
      destruct ((p :: ps) !! S k) as [[t2 b2]|] eqn:Hk2; [|done].
      simpl in Ht. simplify_eq.
      apply (list_elem_of_lookup_2 _ (S k)). rewrite lookup_shifted_S, Hk1.
      cbn [mbind option_bind]. by rewrite Hk2.
    + assert (k = length ps) as -> by lia.
      unfold c in Hlast. rewrite lookup_interleave_odd, Hk1 in Hlast.
      simpl in Ht, Hlast. simplify_eq. left.
Qed.

Lemma alternating_cycle_pairs graph m c :
  alternating_cycle graph m c →
  ∃ p ps, c = interleave (p :: ps) ∧
          alternating_pairs graph m (default p.2 (snd <$> last ps)) (p :: ps).
Proof.
  intros Hac.
  destruct (even_length_interleave c (ac_even _ _ _ Hac)) as [[|p ps] ->].
  { by destruct (ac_nonempty _ _ _ Hac). }
  exists p, ps. split; [done|].
  pose proof (ac_simple _ _ _ Hac) as Hnd.
  rewrite interleave_perm in Hnd. apply NoDup_app in Hnd as (Hnd1 & _ & Hnd2).
  split; [done..| |].
  - intros t b (i & Hi & Ht & Hb)%elem_of_pairs_cycle.
    by eapply (ac_matched _ _ _ Hac).
  - intros t b (j & Hj & Hb & Ht)%elem_of_shifted_cycle.
    by eapply (ac_unmatched _ _ _ Hac).
Qed.

Lemma cycle_edge_pairs p ps t b :
  cycle_edge (interleave (p :: ps)) t b ↔
  (t, b) ∈ shifted (default p.2 (snd <$> last ps)) (p :: ps) ∨ (t, b) ∈ p :: ps.
Proof.
  rewrite elem_of_shifted_cycle, elem_of_pairs_cycle. unfold cycle_edge.
  assert (length (interleave (p :: ps)) = 2 * S (length ps)) as Hlen
    by apply length_interleave.
  split.
  - intros (i & Hi & Ht & [Hb|(j & Hb & Hj)]).
    + right. by exists i.
    + left. exists j. split; [|by rewrite Hj].
      pose proof (lookup_lt_Some _ _ _ Hb) as Hlt. rewrite Hlen in Hlt, Hj.
      rewrite succ_mod in Hj by lia. destruct Hi as [k ->].
      destruct (Nat.Even_or_Odd j) as [[k' ->]|Hodd]; [|done].
      case_decide; lia.
  - intros [(j & Hj & Hb & Ht)|(i & Hi & Ht & Hb)].
    + exists (S j mod length (interleave (p :: ps))). split; [|split; [done|]].
      * pose proof (lookup_lt_Some _ _ _ Hb) as Hlt. rewrite Hlen in Hlt |- *.
        rewrite succ_mod by lia. destruct Hj as [k ->].
        case_decide; [exists (S k); lia|by exists 0].
      * right. by exists j.
    + exists i. auto.
Qed.

(** ** The flip of a normalized cycle *)

Lemma alternating_cycle_mono graph graph' m c :
  (∀ u v, has_edge graph u v → has_edge graph' u v) →
  alternating_cycle graph m c → alternating_cycle graph' m c.
Proof.
  intros Hsub Hac. split; try apply Hac.
  intros i b t Hi Hb Ht. destruct (ac_unmatched _ _ _ Hac i b t Hi Hb Ht). auto.
Qed.

(** What the enumerators use of a flip: the new matching and the edge
    [(c0, c1)] they branch on. *)
Lemma flip_cycle_facts graph0 graph m c :
  (∀ u v, has_edge graph u v → has_edge graph0 u v) →
  is_matching graph0 m → alternating_cycle graph m c →
  ∃ m' c0 c1 rest,
    c = c0 :: c1 :: rest ∧ flip_cycle m c = Some m' ∧
    is_matching graph0 m' ∧ size m' = size m ∧ m' ≠ m ∧
    m !! c0 = Some c1 ∧ m' !! c0 ≠ Some c1 ∧
    (∀ t b, m' !! t = Some b → m !! t = Some b ∨ has_edge graph t b) ∧
    (∀ t, t ∉ c → m' !! t = m !! t).
Proof.
  intros Hsub Hm Hac.
  pose proof (alternating_cycle_mono _ _ _ _ Hsub Hac) as Hac0.
  destruct (alternating_cycle_pairs _ _ _ Hac) as (p & ps & -> & Halt).
  destruct (alternating_cycle_pairs _ _ _ Hac0) as (p' & ps' & Heq & Halt0).
  assert (p' :: ps' = p :: ps) as Hps.
  { apply (f_equal pairs_of) in Heq. revert Heq. clear.
    assert (∀ l : list (node * node), pairs_of (interleave l) = l) as Hpi.
    { induction l as [|[] l IH]; simpl; [done|]. by rewrite IH. }
    rewrite !Hpi. done. }
  simplify_eq.
  eexists _, p.1, p.2, (interleave ps). split; [done|].
  split; [apply flip_cycle_interleave|].
  destruct (flip_first _ _ _ _ Halt) as (Hnew & Hold & Hne).
  split; [by apply flip_is_matching|].
  split; [by eapply flip_size|].
  split; [by eapply flip_differs|].
  split; [done|]. split; [rewrite Hnew; congruence|]. split.
  - intros t b. by eapply flip_pair_origin.
  - intros t Hnot. apply flip_outside. intros Hin. apply Hnot.
    apply (elem_of_Permutation_proper _ _ _ (interleave_perm (p :: ps))).
    apply elem_of_app. by left.
Qed.

(** The flip M'[C[i]] = C[i-1] over the even i along an alternating cycle
    yields a matching of the graph with as many pairs as M, different from
    M, whose symmetric difference with M is the set of edges of C. *)
Lemma flip_alternating_cycle graph m c :
  is_matching graph m → alternating_cycle graph m c →
  ∃ m', flip_cycle m c = Some m' ∧ is_matching graph m' ∧
        size m' = size m ∧ m' ≠ m ∧
        ∀ t b, (m' !! t = Some b ∧ m !! t ≠ Some b) ∨
               (m !! t = Some b ∧ m' !! t ≠ Some b) ↔ cycle_edge c t b.
Proof.
  intros Hm Hac.
  destruct (alternating_cycle_pairs _ _ _ Hac) as (p & ps & -> & Halt).
  eexists. split; [apply flip_cycle_interleave|].
  split; [by apply flip_is_matching|].
  split; [by eapply flip_size|].
  split; [by eapply flip_differs|].
  intros t b. rewrite cycle_edge_pairs. by eapply flip_symmetric_difference.
Qed.

(** ** Graph operations *)

Lemma edge_endpoints graph u v :
  bipartite graph → (u, v) ∈ edges graph →
  u ∈ (nodes graph).*1 ∧ v ∈ (nodes graph).*1.
Proof.
  intros Hb Hin. rewrite <- !label_is_Some.
  destruct (bip_edges _ Hb _ _ Hin) as [[-> ->]|[-> ->]]; eauto.
Qed.

Lemma has_edge_opposite graph u v :
  bipartite graph → has_edge graph u v → opposite graph u v.
Proof.
  intros Hb [Hin|Hin]; apply (bip_edges _ Hb) in Hin; [done|].
  unfold opposite in *. tauto.
Qed.

Lemma has_edge_nodes graph u v :
  bipartite graph → has_edge graph u v →
  u ∈ (nodes graph).*1 ∧ v ∈ (nodes graph).*1.
Proof. intros Hb [Hin|Hin]; apply (edge_endpoints _ _ _ Hb) in Hin; tauto. Qed.

Lemma subgraph_refl graph : subgraph graph graph.
Proof. by split. Qed.

Lemma subgraph_trans graph1 graph2 graph3 :
  subgraph graph1 graph2 → subgraph graph2 graph3 → subgraph graph1 graph3.
Proof.
  intros [He1 Hn1] [He2 Hn2]. split; [auto|]. by etrans.
Qed.

Lemma subgraph_node graph' graph v :
  subgraph graph' graph → v ∈ (nodes graph').*1 → v ∈ (nodes graph).*1.
Proof.
  intros Hs Hin. eapply sublist_subseteq; [|done].
  apply (fmap_sublist fst), Hs.
Qed.

Lemma sublist_fst_NoDup ns' ns :
  ns' `sublist_of` ns → NoDup ns.*1 → NoDup ns'.*1.
Proof.
  intros Hsub Hnd. eapply sublist_NoDup; [done|].
  by apply (fmap_sublist fst).
Qed.

Lemma sublist_label ns' ns v s :
  ns' `sublist_of` ns → NoDup ns.*1 → label ns' v = Some s → label ns v = Some s.
Proof.
  intros Hsub Hnd Hl. apply label_NoDup; [done|].
  eapply sublist_subseteq; [done|]. by apply label_Some.
Qed.

(** The arcs of D(G, M): a matched edge from its top to its bottom, an
    unmatched edge from its bottom to its top. *)
Lemma arc_of_matching_graph graph m u v :
  bipartite graph →
  (u, v) ∈ arcs (create_directed_matching_graph graph (top_nodes graph) m) →
  (label (nodes graph) u = Some LEFT ∧ label (nodes graph) v = Some RIGHT ∧
   m !! u = Some v ∧ has_edge graph u v) ∨
  (label (nodes graph) u = Some RIGHT ∧ label (nodes graph) v = Some LEFT ∧
   m !! v ≠ Some u ∧ has_edge graph v u).
Proof.
  intros Hb [[a b'] [Heq Hin]]%list_elem_of_fmap.
  unfold orient in Heq. simpl in Heq.
  destruct (decide (a ∈ top_nodes graph)) as [Ht|Ht];
    rewrite top_nodes_label in Ht by apply Hb; simpl in Heq;
    pose proof (bip_edges _ Hb _ _ Hin) as [[Ha Hb']|[Ha Hb']]; try congruence;
    case_decide; simplify_eq.
  - left. repeat split; try done. by left.
  - right. repeat split; try done. by left.
  - left. repeat split; try done. by right.
  - right. repeat split; try done. by right.
Qed.

Lemma matching_graph_closed graph top m :
  bipartite graph → closed (create_directed_matching_graph graph top m).
Proof.
  intros Hb u v [[a b'] [Heq Hin]]%list_elem_of_fmap. simpl.
  destruct (edge_endpoints _ _ _ Hb Hin).
  unfold orient in Heq. simpl in Heq.
  repeat case_decide; simplify_eq/=; done.
Qed.

Lemma undirected_sublist (l : list (node * node)) : undirected l `sublist_of` l.
Proof.
  induction l as [|a l IH]; simpl; [done|].
  case_decide; [by apply sublist_cons|by apply sublist_skip].
Qed.

Lemma without_nodes_subgraph graph edge :
  subgraph (graph_without_nodes_of_edge graph edge) graph.
Proof.
  split; simpl.
  - intros u v [Hin|Hin]; apply list_elem_of_filter in Hin as [_ Hin]; [by left|by right].
  - apply sublist_filter.
Qed.

Lemma without_nodes_bipartite graph edge :
  bipartite graph → bipartite (graph_without_nodes_of_edge graph edge).
Proof.
  intros Hb. split; simpl.
  - eapply sublist_fst_NoDup; [apply sublist_filter|apply Hb].
  - intros u v [[Hn1 Hn2] Hin]%list_elem_of_filter.
    unfold incident in *. simpl in *.
    assert (∀ w s, w ≠ edge.1 → w ≠ edge.2 → label (nodes graph) w = Some s →
      label (filter (λ p, p.1 ≠ edge.1 ∧ p.1 ≠ edge.2) (nodes graph)) w = Some s) as Hl.
    { intros w s ?? Hw. apply label_NoDup.
      - eapply sublist_fst_NoDup; [apply sublist_filter|apply Hb].
      - apply list_elem_of_filter. split; [done|]. by apply label_Some. }
    destruct (bip_edges _ Hb _ _ Hin) as [[Hu Hv]|[Hu Hv]]; [left|right];
      split; apply Hl; try done; naive_solver.
Qed.

Lemma without_nodes_removed graph edge v :
  v ∈ (nodes (graph_without_nodes_of_edge graph edge)).*1 → v ≠ edge.1 ∧ v ≠ edge.2.
Proof.
  simpl. intros [[w s] [-> [? ?]%list_elem_of_filter]]%list_elem_of_fmap. done.
Qed.

Lemma without_edge_subgraph graph edge graph' :
  graph_without_edge graph edge = Some graph' → subgraph graph' graph.
Proof.
  unfold graph_without_edge. case_decide; [|done]. intros [= <-].
  split; simpl; [|done].
  intros u v [Hin|Hin]; apply list_elem_of_filter in Hin as [_ Hin]; [by left|by right].
Qed.

Lemma without_edge_bipartite graph edge graph' :
  bipartite graph → graph_without_edge graph edge = Some graph' → bipartite graph'.
Proof.
  unfold graph_without_edge. case_decide; [|done]. intros Hb [= <-].
  split; simpl; [apply Hb|].
  intros u v [_ Hin]%list_elem_of_filter. by apply (bip_edges _ Hb).
Qed.

Lemma without_edge_removed graph edge graph' :
  graph_without_edge graph edge = Some graph' → ¬ has_edge graph' edge.1 edge.2.
Proof.
  unfold graph_without_edge. case_decide; [|done]. intros [= <-].
  destruct edge as [a b']. simpl.
  intros [[[? ?] _]%list_elem_of_filter|[[? ?] _]%list_elem_of_filter]; done.
Qed.

Lemma without_edge_present graph edge graph' :
  graph_without_edge graph edge = Some graph' → has_edge graph edge.1 edge.2.
Proof. unfold graph_without_edge. by case_decide. Qed.

(** ** The cycles of D(G, M) *)

Lemma rotate_right_snoc (front : list node) x : rotate_right (front ++ [x]) = x :: front.
Proof.
  unfold rotate_right. rewrite length_app. simpl.
  replace (length front + 1 - 1) with (length front) by lia.
  by rewrite drop_app_length, take_app_length.
Qed.

Lemma directed_cycle_rotate d (c : list node) :
  directed_cycle d c → directed_cycle d (rotate_right c).
Proof.
  intros [Hne Hnd Harcs].
  destruct (exists_last Hne) as (front & x & ->).
  rewrite rotate_right_snoc. split; [done| |].
  - by rewrite Permutation_cons_append.
  - assert (length (front ++ [x]) = S (length front)) as Hlen
      by (rewrite length_app; simpl; lia).
    rewrite Hlen in Harcs. simpl length.
    assert ((front ++ [x]) !! length front = Some x) as Hx
      by by rewrite lookup_app_r, Nat.sub_diag.
    intros i u v Hu Hv.
    pose proof (lookup_lt_Some _ _ _ Hu) as Hi. simpl in Hi.
    rewrite succ_mod in Hv by done.
    destruct i as [|i]; simpl in Hu.
    + simplify_eq. case_decide as Hd.
      * simpl in Hv. apply (Harcs (length front)); [done|].
        rewrite succ_mod, decide_False by lia.
        rewrite lookup_app_l by lia. done.
      * simpl in Hv. simplify_eq. apply (Harcs (length front)); [done|].
        rewrite succ_mod, decide_False by lia.
        assert (length front = 0) as Hz by lia. by rewrite Hz in Hx.
    + apply (Harcs i).
      * rewrite lookup_app_l by lia. done.
      * rewrite succ_mod, decide_True by lia.
        case_decide as Hd.
        -- simpl in Hv. rewrite lookup_app_l by lia. done.
        -- simpl in Hv. simplify_eq. assert (S i = length front) as -> by lia. done.
Qed.

Lemma start_cycle_with_left_cycle d graph raw_cycle (c : list node) :
  directed_cycle d raw_cycle →
  _start_cycle_with_left graph raw_cycle = inr c →
  directed_cycle d c.
Proof.
  intros Hc. unfold _start_cycle_with_left.
  destruct raw_cycle as [|v0 raw]; [done|].
  destruct (label (nodes graph) v0) as [[]|]; intros [= <-]; [done|].
  by apply directed_cycle_rotate.
Qed.

(** A directed cycle of (a part of) D(G, M) that starts at a top vertex has
    the pattern the flip expects. *)
Lemma directed_cycle_alternating graph m d c c0 :
  bipartite graph →
  arcs d ⊆ arcs (create_directed_matching_graph graph (top_nodes graph) m) →
  directed_cycle d c → head c = Some c0 → label (nodes graph) c0 = Some LEFT →
  alternating_cycle graph m c.
Proof.
  intros Hb Hsub [Hne Hnd Harcs] Hhead Hc0.
  assert (0 < length c) as Hpos by (destruct c; [done|simpl; lia]).
  assert (∀ u v i, c !! i = Some u → c !! (S i mod length c) = Some v →
    (label (nodes graph) u = Some LEFT ∧ label (nodes graph) v = Some RIGHT ∧
     m !! u = Some v ∧ has_edge graph u v) ∨
    (label (nodes graph) u = Some RIGHT ∧ label (nodes graph) v = Some LEFT ∧
     m !! v ≠ Some u ∧ has_edge graph v u)) as Harc.
  { intros u v i Hu Hv. apply arc_of_matching_graph; [done|]. apply Hsub. by eapply Harcs. }
  assert (∀ i x, c !! i = Some x →
    (Nat.Even i → label (nodes graph) x = Some LEFT) ∧
    (Nat.Odd i → label (nodes graph) x = Some RIGHT)) as Hsides.
  { induction i as [|i IH]; intros y Hy.
    - rewrite <- head_lookup, Hhead in Hy. simplify_eq. split; [done|].
      intros [k Hk]. lia.
    - pose proof (lookup_lt_Some _ _ _ Hy) as Hlt.
      destruct (lookup_lt_is_Some_2 c i) as [x Hx]; [lia|].
      destruct (IH _ Hx) as [IHe IHo].
      assert (c !! (S i mod length c) = Some y) as Hy'
        by by rewrite Nat.mod_small.
      rewrite Nat.Even_succ, Nat.Odd_succ.
      destruct (Harc _ _ _ Hx Hy') as [(Hu & Hv & _)|(Hu & Hv & _)].
      + split; [|done]. intros Ho. apply IHo in Ho. congruence.
      + split; [done|]. intros He. apply IHe in He. congruence. }
  split; [done| |done| |].
  - destruct (lookup_lt_is_Some_2 c (length c - 1)) as [z Hz]; [lia|].
    assert (c !! (S (length c - 1) mod length c) = Some c0) as Hz'.
    { replace (S (length c - 1)) with (length c) by lia.
      rewrite Nat.Div0.mod_same. by rewrite <- head_lookup. }
    destruct (Hsides _ _ Hz) as [He Ho].
    destruct (Nat.Even_or_Odd (length c - 1)) as [Hev|Hod].
    + destruct (Harc _ _ _ Hz Hz') as [(Hu & Hv & _)|(Hu & Hv & _)];
        [congruence|]. apply He in Hev. congruence.
    + replace (length c) with (S (length c - 1)) by lia. by apply Nat.Even_succ.
  - intros i t b Hi Ht Hb'.
    destruct (Hsides _ _ Ht) as [He _].
    destruct (Harc _ _ _ Ht Hb') as [(_ & _ & Hm & _)|(Hu & _)]; [done|].
    apply He in Hi. congruence.
  - intros i b t Hi Hb' Ht.
    destruct (Hsides _ _ Hb') as [_ Ho].
    destruct (Harc _ _ _ Hb' Ht) as [(Hu & _)|(_ & _ & Hm & He)]; [|done].
    apply Ho in Hi. congruence.
Qed.

(** Tops sit at the even positions of an alternating cycle and bottoms at
    the odd ones. *)
Lemma alternating_cycle_sides graph m c i v :
  is_matching graph m → alternating_cycle graph m c → c !! i = Some v →
  (Nat.Even i → label (nodes graph) v = Some LEFT) ∧
  (Nat.Odd i → label (nodes graph) v = Some RIGHT).
Proof.
  intros Hm Hac Hv. pose proof (lookup_lt_Some _ _ _ Hv) as Hlt. split.
  - intros Hi.
    destruct (lookup_lt_is_Some_2 c (S i mod length c)) as [b Hb];
      [apply Nat.mod_upper_bound; lia|].
    eapply matching_key; [done|]. by eapply (ac_matched _ _ _ Hac).
  - intros [k ->].
    destruct (lookup_lt_is_Some_2 c (2 * k)) as [t Ht]; [lia|].
    eapply matching_value; [done|].
    apply (ac_matched _ _ _ Hac (2 * k) t v); [by exists k|done|].
    rewrite Nat.mod_small by lia. by replace (S (2 * k)) with (2 * k + 1) by lia.
Qed.

(** C6. For every matching M of a bipartite graph and every cycle C of
    D(G, M) that starts at a TOP vertex, that is every normalized cycle,
    the even positions of C hold TOP vertices and the odd positions BOTTOM
    vertices, and the flip M'[C[i]] = C[i-1 mod |C|] over the even i yields
    a matching of the graph with as many pairs as M, different from M,
    whose symmetric difference with M is the set of edges of C. *)
Theorem flip_normalized_cycle graph m c c0 :
  bipartite graph → is_matching graph m →
  directed_cycle (create_directed_matching_graph graph (top_nodes graph) m) c →
  head c = Some c0 → label (nodes graph) c0 = Some LEFT →
  (Nat.Even (length c) ∧
   ∀ i v, c !! i = Some v →
     (Nat.Even i → label (nodes graph) v = Some LEFT) ∧
     (Nat.Odd i → label (nodes graph) v = Some RIGHT)) ∧
  ∃ m', flip_cycle m c = Some m' ∧ is_matching graph m' ∧
        size m' = size m ∧ m' ≠ m ∧
        ∀ t b, (m' !! t = Some b ∧ m !! t ≠ Some b) ∨
               (m !! t = Some b ∧ m' !! t ≠ Some b) ↔ cycle_edge c t b.
Proof.
  intros Hb Hm Hdc Hhead Hc0.
  assert (alternating_cycle graph m c) as Hac
    by by eapply directed_cycle_alternating.
  split.
  - split; [apply Hac|]. intros i v Hv. by eapply alternating_cycle_sides.
  - by apply flip_alternating_cycle.
Qed.

(** ** The invariant of the recursion *)

Lemma frame_post_mono graph0 graph' graph m n :
  subgraph graph' graph → frame_post graph0 graph' m n → frame_post graph0 graph m n.
Proof.
  intros Hsub [? ? ? Hout Horig]. split; try done.
  - intros t Ht. apply Hout. intros Hin. apply Ht. by eapply subgraph_node.
  - intros t b Hn. destruct (Horig _ _ Hn); [by left|right]. by apply Hsub.
Qed.

Lemma frame_post_trans graph0 graph m m' n :
  frame_post graph0 graph m m' → frame_post graph0 graph m' n → n ≠ m →
  frame_post graph0 graph m n.
Proof.
  intros [_ Hs1 _ Hout1 Horig1] [? Hs2 _ Hout2 Horig2] Hne. split; try done.
  - congruence.
  - intros t Ht. rewrite Hout2, Hout1; done.
  - intros t b Hn. destruct (Horig2 _ _ Hn) as [Hm'|?]; [|by right]. by apply Horig1.
Qed.

Lemma sound_list_nil graph0 graph m : sound_list graph0 graph m [].
Proof. split; constructor. Qed.

Lemma sound_list_prefix graph0 graph m (l l' : list dict) :
  l `prefix_of` l' → sound_list graph0 graph m l' → sound_list graph0 graph m l.
Proof.
  intros [k ->] [Hnd Hall]. split.
  - by apply NoDup_app in Hnd as [? _].
  - by apply Forall_app in Hall as [? _].
Qed.

Lemma emitted_seq_prefix {A} (g1 g2 : Gen.t A) :
  Gen.emitted (g1 ;; g2) `prefix_of` Gen.emitted g1 ++ Gen.emitted g2.
Proof.
  unfold Gen.seq. destruct (Gen.stop g1); simpl; [done|by apply prefix_app_r..].
Qed.

Lemma emitted_branch_prefix {A} (x : A) (gA gB : Gen.t A) :
  Gen.emitted (Gen.yield x ;; gA ;; gB)
  `prefix_of` x :: Gen.emitted gA ++ Gen.emitted gB.
Proof. rewrite emitted_yield_seq. apply prefix_cons, emitted_seq_prefix. Qed.

Lemma keeps_nil graph0 graph m t : keeps graph0 graph m t [].
Proof. split; constructor. Qed.

Lemma avoids_nil graph0 graph m t b : avoids graph0 graph m t b [].
Proof. split; constructor. Qed.

Lemma sound_list_keeps graph0 graph' graph m t l :
  subgraph graph' graph → t ∉ (nodes graph').*1 →
  sound_list graph0 graph' m l → keeps graph0 graph m t l.
Proof.
  intros Hsub Ht [Hnd Hall]. split; [done|].
  eapply Forall_impl; [done|]. intros n Hn. split.
  - by eapply frame_post_mono.
  - by apply (post_outside _ _ _ _ Hn).
Qed.

Lemma sound_list_avoids graph0 graph' graph m t b l :
  subgraph graph' graph → ¬ has_edge graph' t b → m !! t ≠ Some b →
  sound_list graph0 graph' m l → avoids graph0 graph m t b l.
Proof.
  intros Hsub He Hm [Hnd Hall]. split; [done|].
  eapply Forall_impl; [done|]. intros n Hn. split.
  - by eapply frame_post_mono.
  - intros Hnt. by destruct (post_origin _ _ _ _ Hn _ _ Hnt).
Qed.

(** The two branches of a frame and the matching emitted before them:
    one of [m], [m'] holds the pair [(t, b)] and seeds the branch that keeps
    it, the other seeds the branch that avoids it. *)
Lemma branches graph0 graph m m' x y t b (A B : list dict) :
  frame_post graph0 graph m m' →
  (x = m ∧ y = m') ∨ (x = m' ∧ y = m) →
  x !! t = Some b → y !! t ≠ Some b →
  keeps graph0 graph x t A → avoids graph0 graph y t b B →
  sound_list graph0 graph m (m' :: A ++ B).
Proof.
  intros Hm' Hxy Hx Hy [HndA HA] [HndB HB].
  rewrite Forall_forall in HA, HB.
  assert (∀ n, n ∈ A → n !! t = Some b) as HAt.
  { intros n Hn. destruct (HA _ Hn) as [_ ->]. done. }
  assert (∀ n, n ∈ B → n !! t ≠ Some b) as HBt.
  { intros n Hn. by destruct (HB _ Hn) as [_ ?]. }
  split.
  - apply NoDup_cons. split; [|apply NoDup_app; split; [done|split; [|done]]].
    + intros [Hin|Hin]%elem_of_app.
      * destruct Hxy as [[-> ->]|[-> ->]].
        -- by apply HAt in Hin.
        -- destruct (HA _ Hin) as [Hf _]. by destruct (post_differs _ _ _ _ Hf).
      * destruct Hxy as [[-> ->]|[-> ->]].
        -- destruct (HB _ Hin) as [Hf _]. by destruct (post_differs _ _ _ _ Hf).
        -- by apply HBt in Hin.
    + intros n HnA HnB. apply HAt in HnA. by apply HBt in HnB.
  - apply Forall_cons. split; [done|]. apply Forall_app. split; apply Forall_forall.
    + intros n Hn. destruct (HA _ Hn) as [Hf _].
      destruct Hxy as [[-> ->]|[-> ->]]; [done|].
      eapply frame_post_trans; [done..|]. intros ->. by apply HAt in Hn.
    + intros n Hn. destruct (HB _ Hn) as [Hf _].
      destruct Hxy as [[-> ->]|[-> ->]]; [|done].
      eapply frame_post_trans; [done..|]. intros ->. by apply HBt in Hn.
Qed.

(** ** The entry points *)

Variable maximum_matching : Graph node → list node → dict.
Variable strongly_connected_components_decomposition : DiGraph node → DiGraph node.
Variable find_cycle_with_edge_of_matching : DiGraph node → dict → option (list node).

Local Abbreviation enum_perfect :=
  (enum_perfect_matchings maximum_matching strongly_connected_components_decomposition
     find_cycle_with_edge_of_matching).
Local Abbreviation enum_maximum :=
  (enum_maximum_matchings maximum_matching strongly_connected_components_decomposition
     find_cycle_with_edge_of_matching).
Local Abbreviation perfect_iter :=
  (_enum_perfect_matchings_iter strongly_connected_components_decomposition
     find_cycle_with_edge_of_matching).
Local Abbreviation maximum_iter :=
  (_enum_maximum_matchings_iter find_cycle_with_edge_of_matching).
Local Abbreviation trimmed :=
  (trimmed_graph strongly_connected_components_decomposition).
Local Abbreviation the_seed := (seed maximum_matching).

Lemma top_to_bottom_no_tops graph mm :
  top_nodes graph = [] → top_to_bottom graph mm = ∅.
Proof.
  intros Ht. apply map_eq. intros t. rewrite lookup_empty.
  apply eq_None_not_Some. intros [b [_ Hin]%top_to_bottom_lookup].
  rewrite Ht in Hin. by apply elem_of_nil in Hin.
Qed.

Lemma enum_perfect_unbalanced graph :
  length (top_nodes graph) ≠ length (bottom_nodes graph) →
  enum_perfect graph = Gen.ret.
Proof. intros Hne. unfold enum_perfect_matchings. by rewrite decide_True. Qed.

Lemma enum_perfect_small_seed graph :
  size (the_seed graph) ≠ length (top_nodes graph) →
  enum_perfect graph = Gen.ret.
Proof.
  intros Hne. unfold enum_perfect_matchings. case_decide; [done|].
  rewrite decide_False; [done|]. intros [_ Heq]. by destruct Hne.
Qed.

Lemma enum_perfect_empty_seed graph :
  the_seed graph = ∅ → enum_perfect graph = Gen.ret.
Proof.
  intros He. unfold enum_perfect_matchings. case_decide; [done|].
  rewrite decide_False; [done|]. intros [Hne _]. by destruct Hne.
Qed.

Lemma enum_perfect_first graph :
  length (top_nodes graph) = length (bottom_nodes graph) →
  size (the_seed graph) = length (top_nodes graph) →
  the_seed graph ≠ ∅ →
  head (Gen.emitted (enum_perfect graph)) = Some (the_seed graph).
Proof.
  intros Hbal Hsz Hne. unfold enum_perfect_matchings.
  rewrite decide_False; [|by intros []].
  rewrite decide_True; [|done].
  by rewrite emitted_yield_seq.
Qed.

(** C10. On the graph with no vertices both sides have size 0, the seed
    restricted to top keys is the empty dictionary, and
    [enum_perfect_matchings] emits nothing: the guard before the first
    [yield] asks for a non-empty matching. *)
Theorem perfect_on_empty_graph :
  let graph := mkGraph (node := node) [] [] in
  length (top_nodes graph) = 0 ∧ length (bottom_nodes graph) = 0 ∧
  the_seed graph = ∅ ∧ size (the_seed graph) = length (top_nodes graph) ∧
  enum_perfect graph = Gen.ret.
Proof.
  intros graph.
  assert (the_seed graph = ∅) as He by by apply top_to_bottom_no_tops.
  repeat split; [done|by rewrite He|by apply enum_perfect_empty_seed].
Qed.

(** C8, amended.  [enum_perfect_matchings] emits nothing when the two sides
    differ in size, and nothing when the seed has fewer pairs than there are
    top vertices; when the sides have equal size, the seed has one pair per
    top vertex and the seed is not empty, the first matching emitted is the
    seed restricted to top-to-bottom pairs. *)
Theorem perfect_entry graph :
  (length (top_nodes graph) ≠ length (bottom_nodes graph) →
   enum_perfect graph = Gen.ret) ∧
  (length (top_nodes graph) = length (bottom_nodes graph) →
   size (the_seed graph) < length (top_nodes graph) →
   enum_perfect graph = Gen.ret) ∧
  (length (top_nodes graph) = length (bottom_nodes graph) →
   size (the_seed graph) = length (top_nodes graph) →
   the_seed graph ≠ ∅ →
   head (Gen.emitted (enum_perfect graph)) = Some (the_seed graph)).
Proof.
  split; [apply enum_perfect_unbalanced|]. split.
  - intros _ Hlt. apply enum_perfect_small_seed. lia.
  - apply enum_perfect_first.
Qed.

(** ** What the seed contract gives the maximum enumerator *)

Lemma seed_empty_no_edges graph mm :
  nx_matching graph mm → edges graph = [] → top_to_bottom graph mm = ∅.
Proof.
  intros Hs He. apply map_eq. intros t. rewrite lookup_empty.
  apply eq_None_not_Some. intros [b [Hm _]%top_to_bottom_lookup].
  apply (seed_edge _ _ Hs) in Hm. unfold has_edge in Hm. rewrite He in Hm.
  destruct Hm as [Hm|Hm]; by apply elem_of_nil in Hm.
Qed.

Lemma single_edge_matching graph t b :
  has_edge graph t b →
  label (nodes graph) t = Some LEFT → label (nodes graph) b = Some RIGHT →
  is_matching graph {[t := b]}.
Proof.
  intros He Ht Hb. split.
  - intros t' b' [-> ->]%lookup_singleton_Some. done.
  - intros t' b' [-> ->]%lookup_singleton_Some. done.
  - intros t' b' [-> ->]%lookup_singleton_Some. done.
  - intros t1 t2 b' [-> ->]%lookup_singleton_Some [-> _]%lookup_singleton_Some. done.
Qed.

Lemma seed_nonempty_edges graph mm :
  bipartite graph → seed_contract graph mm → edges graph ≠ [] →
  top_to_bottom graph mm ≠ ∅.
Proof.
  intros Hb Hs He Hempty.
  destruct (edges graph) as [|[u v] es] eqn:Hes; [done|].
  assert ((u, v) ∈ edges graph) as Hin by (rewrite Hes; left).
  assert (∃ t b, is_matching graph {[t := b]}) as (t & b & Hm).
  { destruct (bip_edges _ Hb _ _ Hin) as [[Hu Hv]|[Hu Hv]].
    - exists u, v. apply single_edge_matching; [by left|done..].
    - exists v, u. apply single_edge_matching; [by right|done..]. }
  apply (seed_max _ _ Hs) in Hm. rewrite Hempty, map_size_singleton, map_size_empty in Hm. lia.
Qed.

Lemma enum_maximum_empty_seed graph :
  the_seed graph = ∅ → enum_maximum graph = Gen.ret.
Proof.
  intros He. unfold enum_maximum_matchings. rewrite decide_False; [done|].
  intros Hne. by destruct Hne.
Qed.

Lemma enum_maximum_first graph :
  the_seed graph ≠ ∅ →
  head (Gen.emitted (enum_maximum graph)) = Some (the_seed graph).
Proof.
  intros Hne. unfold enum_maximum_matchings. rewrite decide_True; [|done].
  by rewrite emitted_yield_seq.
Qed.

(** C7. On a bipartite graph whose seed is a maximum matching,
    [enum_maximum_matchings] emits nothing exactly when the graph has no
    edges: it returns at once when the seed is empty and otherwise emits the
    seed first. *)
Theorem maximum_emits_nothing_iff_no_edges graph :
  bipartite graph →
  seed_contract graph (maximum_matching graph (top_nodes graph)) →
  (Gen.emitted (enum_maximum graph) = [] ↔ edges graph = []) ∧
  (the_seed graph = ∅ → enum_maximum graph = Gen.ret) ∧
  (the_seed graph ≠ ∅ →
   head (Gen.emitted (enum_maximum graph)) = Some (the_seed graph)).
Proof.
  intros Hb Hs. split; [|split].
  - split.
    + intros Hnil. destruct (decide (edges graph = [])) as [|Hne]; [done|].
      pose proof (seed_nonempty_edges _ _ Hb Hs Hne) as Hseed.
      apply enum_maximum_first in Hseed. by rewrite Hnil in Hseed.
    + intros He. rewrite enum_maximum_empty_seed; [done|].
      by apply seed_empty_no_edges; [apply Hs|].
  - apply enum_maximum_empty_seed.
  - apply enum_maximum_first.
Qed.

(** ** Soundness of the recursion *)

Section Soundness.

Hypothesis Htrim : trimmer_contract strongly_connected_components_decomposition.
Hypothesis Hfind : finder_contract find_cycle_with_edge_of_matching.

Variable graph0 : Graph node.
Hypothesis Hbip0 : bipartite graph0.

Lemma trimmed_graph_facts graph m graph' :
  bipartite graph → trimmed graph m = Some graph' →
  bipartite graph' ∧ subgraph graph' graph.
Proof.
  intros Hb. unfold trimmed_graph. case_match; [|done]. intros [= <-].
  set (D := create_directed_matching_graph graph (top_nodes graph) m).
  set (T := strongly_connected_components_decomposition D).
  assert (∀ u v, (u, v) ∈ undirected (arcs T) → (u, v) ∈ arcs D) as Harc.
  { intros u v Hin. eapply sublist_subseteq; [apply (trim_arcs _ Htrim)|].
    eapply sublist_subseteq; [apply undirected_sublist|done]. }
  assert (∀ u v, (u, v) ∈ arcs D → has_edge graph u v ∧ opposite graph u v) as HD.
  { intros u v Hin. apply arc_of_matching_graph in Hin; [|done].
    destruct Hin as [(? & ? & _ & ?)|(? & ? & _ & ?)].
    - split; [done|]. by left.
    - split; [by apply has_edge_sym|]. by right. }
  assert (nodes (to_undirected T) `sublist_of` nodes graph) as Hns
    by apply (trim_nodes _ Htrim D).
  split; split.
  - eapply sublist_fst_NoDup; [done|apply Hb].
  - intros u v Hin.
    assert (closed T) as Hcl by by apply (trim_closed _ Htrim), matching_graph_closed.
    destruct (Hcl u v) as [Hu Hv].
    { eapply sublist_subseteq; [apply undirected_sublist|done]. }
    apply label_is_Some in Hu as [su Hu], Hv as [sv Hv].
    pose proof (sublist_label _ _ _ _ Hns (bip_nodup _ Hb) Hu) as Hu'.
    pose proof (sublist_label _ _ _ _ Hns (bip_nodup _ Hb) Hv) as Hv'.
    destruct (HD _ _ (Harc _ _ Hin)) as [_ [[? ?]|[? ?]]]; [left|right];
      simpl; split; congruence.
  - intros u v [Hin|Hin]; apply Harc, HD in Hin as [? _]; [done|by apply has_edge_sym].
  - done.
Qed.

Lemma frame_pre_sub graph' graph m m' :
  frame_pre graph0 graph m → bipartite graph' → subgraph graph' graph →
  is_matching graph0 m' → frame_pre graph0 graph' m'.
Proof.
  intros [_ He _] Hb Hsub Hm'. split; [done| |done].
  intros u v Huv. by apply He, Hsub.
Qed.

(** The flip step of a frame that found a cycle. *)
Lemma cycle_step graph m d raw_cycle c0 rest0 :
  frame_pre graph0 graph m →
  arcs d ⊆ arcs (create_directed_matching_graph graph (top_nodes graph) m) →
  (∀ v s, label (dnodes d) v = Some s → label (nodes graph) v = Some s) →
  find_cycle_with_edge_of_matching d m = Some raw_cycle →
  _start_cycle_with_left graph raw_cycle = inr (c0 :: rest0) →
  label (dnodes d) c0 = Some LEFT →
  ∃ m' c1 rest,
    rest0 = c1 :: rest ∧ flip_cycle m (c0 :: rest0) = Some m' ∧
    frame_post graph0 graph m m' ∧
    m !! c0 = Some c1 ∧ m' !! c0 ≠ Some c1.
Proof.
  intros [Hb He Hm] Hsub Hlab Hfc Hst Hc0.
  assert (directed_cycle d (c0 :: rest0)) as Hdc.
  { eapply start_cycle_with_left_cycle; [|done]. by apply Hfind in Hfc. }
  assert (alternating_cycle graph m (c0 :: rest0)) as Hac.
  { eapply directed_cycle_alternating; [done..|]. by apply Hlab. }
  destruct (flip_cycle_facts _ _ _ _ He Hm Hac)
    as (m' & c0' & c1 & rest & Heq & Hflip & Hm' & Hsz & Hne & Hold & Hnew & Horig & Hout).
  simplify_eq. exists m', c1, rest.
  split; [done|]. split; [done|]. split; [|done].
  split; [done..| |done].
  intros t Ht. apply Hout. intros [i Hi]%list_elem_of_lookup. apply Ht.
  pose proof (lookup_lt_Some _ _ _ Hi) as Hlt.
  destruct (lookup_lt_is_Some_2 (c0' :: c1 :: rest) (S i mod length (c0' :: c1 :: rest)))
    as [v Hv]; [by apply Nat.mod_upper_bound|].
  pose proof (cycle_arcs _ _ Hdc _ _ _ Hi Hv) as Harc.
  apply Hsub in Harc. by apply (matching_graph_closed _ _ _ Hb) in Harc as [? _].
Qed.

Lemma perfect_iter_sound fuel : ∀ graph m,
  frame_pre graph0 graph m →
  sound_list graph0 graph m (Gen.emitted (perfect_iter fuel graph m)).
Proof.
  induction fuel as [|fuel IH]; intros graph m Hpre; [apply sound_list_nil|].
  simpl. case_decide; [apply sound_list_nil|].
  destruct (find_cycle_with_edge_of_matching _ m) as [raw_cycle|] eqn:Hfc;
    [|apply sound_list_nil].
  destruct (_start_cycle_with_left graph raw_cycle) as [e|[|c0 rest0]] eqn:Hst;
    [apply sound_list_nil..|].
  unfold assert_starts_left.
  destruct (label _ c0) as [[]|] eqn:Hc0; [|apply sound_list_nil..].
  destruct (cycle_step _ _ _ _ _ _ Hpre (reflexivity _) (λ _ _ H, H) Hfc Hst Hc0)
    as (m' & c1 & rest & -> & -> & Hm' & Hold & Hnew).
  unfold Gen.assert. rewrite bool_decide_true by apply Hm'.
  cbn [first_edge].
  eapply sound_list_prefix; [apply emitted_branch_prefix|].
  apply (branches _ _ _ _ m m' c0 c1); [done|by left|done..| |].
  - unfold perfect_plus_call.
    destruct (trimmed _ m) as [graph_plus|] eqn:Htr; [|apply keeps_nil].
    cbn [mbind option_bind].
    apply trimmed_graph_facts in Htr as [Hbp Hsp];
      [|by apply without_nodes_bipartite, Hpre].
    pose proof (subgraph_trans _ _ _ Hsp (without_nodes_subgraph graph (c0, c1))) as Hs.
    apply (sound_list_keeps _ graph_plus); [done| |].
    + intros Hin. apply (subgraph_node _ _ _ Hsp) in Hin.
      apply without_nodes_removed in Hin as [? _]. done.
    + apply IH. eapply frame_pre_sub; [done..|apply Hpre].
  - unfold perfect_minus_call.
    destruct (graph_without_edge graph (c0, c1)) as [graph_minus|] eqn:Hwe;
      [|apply avoids_nil].
    destruct (trimmed graph_minus m') as [graph_minus'|] eqn:Htr; [|apply avoids_nil].
    apply trimmed_graph_facts in Htr as [Hbm Hsm];
      [|by eapply without_edge_bipartite; [apply Hpre|]].
    pose proof (subgraph_trans _ _ _ Hsm (without_edge_subgraph _ _ _ Hwe)) as Hs.
    apply (sound_list_avoids _ graph_minus'); [done| |done|].
    + intros Hin. apply Hsm in Hin. by apply (without_edge_removed _ _ _ Hwe).
    + apply IH. eapply frame_pre_sub; [done..|apply Hm'].
Qed.

Lemma feasible_scan_Some graph m ns left1 right_ left2 :
  feasible_scan graph m ns = Some (left1, right_, left2) →
  left1 ∈ ns.*1 ∧ m !! left1 = Some right_ ∧ right_ ∈ (nodes graph).*1 ∧
  left2 ∈ neighbors graph right_ ∧ m !! left2 = None.
Proof.
  induction ns as [|[node1 s] ns IH]; simpl; [done|].
  assert (feasible_scan graph m ns = Some (left1, right_, left2) →
          left1 ∈ node1 :: ns.*1 ∧ m !! left1 = Some right_ ∧
          right_ ∈ (nodes graph).*1 ∧
          left2 ∈ neighbors graph right_ ∧ m !! left2 = None) as Hrec.
  { intros (? & ?)%IH. split; [by right|done]. }
  destruct s; [|done].
  destruct (m !! node1) as [r|] eqn:Hm1; [|done].
  case_decide as Hr; [|done].
  destruct (list_find _ (neighbors graph r)) as [[i l2]|] eqn:Hfind'; [|done].
  intros [= -> -> ->].
  apply list_find_Some in Hfind' as (Hl & Hnone & _).
  split; [left|]. repeat split; try done. by eapply list_elem_of_lookup_2.
Qed.

Lemma neighbors_has_edge graph u v : u ∈ neighbors graph v → has_edge graph u v.
Proof.
  unfold neighbors. intros [[a b'] [Hin Hf]]%list_elem_of_omap. simpl in Hf.
  repeat case_decide; simplify_eq; [by right|by left].
Qed.

(** The rewiring step of a frame that found a feasible path. *)
Lemma path_step graph m left1 right_ left2 :
  frame_pre graph0 graph m →
  _find_feaseable_two_edge_path graph m = Some (left1, right_, left2) →
  m !! left1 = Some right_ ∧ m !! left2 = None ∧
  frame_post graph0 graph m (<[left2 := right_]> (delete left1 m)).
Proof.
  intros [Hb He Hm] (Hn1 & Hm1 & Hr & Hnb%neighbors_has_edge & Hm2)%feasible_scan_Some.
  split; [done|]. split; [done|].
  assert (left1 ≠ left2) as Hne by (intros ->; congruence).
  assert (label (nodes graph0) right_ = Some RIGHT) as Hright
    by by eapply matching_value.
  assert (label (nodes graph0) left2 = Some LEFT) as Hleft.
  { destruct (has_edge_opposite _ _ _ Hbip0 (He _ _ Hnb)) as [[? ?]|[? ?]]; congruence. }
  assert (∀ t b, <[left2 := right_]> (delete left1 m) !! t = Some b →
            (t = left2 ∧ b = right_) ∨ (t ≠ left2 ∧ t ≠ left1 ∧ m !! t = Some b)) as Hlk.
  { intros t b Hl. destruct (decide (t = left2)) as [->|Hne2].
    - rewrite lookup_insert_eq in Hl. left. by simplify_eq.
    - rewrite lookup_insert_ne, lookup_delete_Some in Hl by done.
      right. by destruct Hl. }
  split.
  - split.
    + intros t b [[-> ->]|(_ & _ & ?)]%Hlk; [by apply He|by eapply matching_edge].
    + intros t b [[-> ->]|(_ & _ & ?)]%Hlk; [done|by eapply matching_key].
    + intros t b [[-> ->]|(_ & _ & ?)]%Hlk; [done|by eapply matching_value].
    + intros t t' b [[-> ->]|(? & ? & Ht)]%Hlk [[-> ?]|(? & ? & Ht')]%Hlk; try done.
      * subst. destruct (matching_inj _ _ Hm _ _ _ Hm1 Ht'). done.
      * subst. destruct (matching_inj _ _ Hm _ _ _ Hm1 Ht). done.
      * by eapply matching_inj.
  - rewrite map_size_insert_None by by rewrite lookup_delete_ne.
    rewrite map_size_delete_Some by eauto.
    assert (size m ≠ 0) by (apply map_size_non_empty_iff; intros ->; by rewrite lookup_empty in Hm1).
    lia.
  - intros Heq. rewrite <- Heq, lookup_insert_eq in Hm2. done.
  - intros t Ht.
    rewrite lookup_insert_ne, lookup_delete_ne; [done|intros ->..].
    + by apply Ht.
    + apply Ht. by apply (has_edge_nodes _ _ _ Hb Hnb).
  - intros t b [[-> ->]|(_ & _ & ?)]%Hlk; [by right|by left].
Qed.

Lemma maximum_branches fuel graph m m' x y t b :
  (∀ graph m d,
     frame_pre graph0 graph m →
     arcs d ⊆ arcs (create_directed_matching_graph graph (top_nodes graph) m) →
     (∀ v s, label (dnodes d) v = Some s → label (nodes graph) v = Some s) →
     sound_list graph0 graph m (Gen.emitted (maximum_iter fuel graph m d))) →
  frame_pre graph0 graph m → frame_post graph0 graph m m' →
  (x = m ∧ y = m') ∨ (x = m' ∧ y = m) →
  x !! t = Some b → y !! t ≠ Some b →
  sound_list graph0 graph m (Gen.emitted (
    Gen.yield m' ;;
    (let '(graph_plus, m0, d0) := maximum_plus_call graph x (t, b) in
     maximum_iter fuel graph_plus m0 d0) ;;
    match maximum_minus_call graph y (t, b) with
    | None => Gen.raise NetworkXError
    | Some (graph_minus, m0, d0) => maximum_iter fuel graph_minus m0 d0
    end)).
Proof.
  intros IH Hpre Hm' Hxy Hx Hy.
  assert (is_matching graph0 x ∧ is_matching graph0 y) as [Hmx Hmy].
  { destruct Hxy as [[-> ->]|[-> ->]]; split; (apply Hpre || apply Hm'). }
  eapply sound_list_prefix; [apply emitted_branch_prefix|].
  apply (branches _ _ _ _ x y t b); [done..| |].
  - unfold maximum_plus_call.
    apply (sound_list_keeps _ (graph_without_nodes_of_edge graph (t, b)));
      [apply without_nodes_subgraph| |].
    + intros Hin. by apply without_nodes_removed in Hin as [? _].
    + apply IH; [|done..].
      eapply frame_pre_sub; [done| |apply without_nodes_subgraph|done].
      apply without_nodes_bipartite, Hpre.
  - unfold maximum_minus_call.
    destruct (graph_without_edge graph (t, b)) as [graph_minus|] eqn:Hwe;
      [|apply avoids_nil].
    cbn [mbind option_bind].
    apply (sound_list_avoids _ graph_minus);
      [by eapply without_edge_subgraph| |done|].
    + by apply (without_edge_removed _ _ _ Hwe).
    + apply IH; [|done..].
      eapply frame_pre_sub; [done| |by eapply without_edge_subgraph|done].
      eapply without_edge_bipartite; [apply Hpre|done].
Qed.

Lemma maximum_iter_sound fuel : ∀ graph m d,
  frame_pre graph0 graph m →
  arcs d ⊆ arcs (create_directed_matching_graph graph (top_nodes graph) m) →
  (∀ v s, label (dnodes d) v = Some s → label (nodes graph) v = Some s) →
  sound_list graph0 graph m (Gen.emitted (maximum_iter fuel graph m d)).
Proof.
  induction fuel as [|fuel IH]; intros graph m d Hpre Hsub Hlab; [apply sound_list_nil|].
  simpl. case_decide; [apply sound_list_nil|].
  destruct (find_cycle_with_edge_of_matching d m) as [[|v0 raw]|] eqn:Hfc; simpl.
  2:{ destruct (label (nodes graph) v0) as [side0|] eqn:Hv0; [|apply sound_list_nil].
      set (cycle := match side0 with LEFT => v0 :: raw | RIGHT => rotate_right (v0 :: raw) end).
      assert (_start_cycle_with_left graph (v0 :: raw) = inr cycle) as Hst.
      { unfold _start_cycle_with_left. rewrite Hv0. by destruct side0. }
      replace (match side0 with
               | LEFT => inr (v0 :: raw)
               | RIGHT => inr (rotate_right (v0 :: raw))
               end) with (inr (A := exn) cycle) by by destruct side0.
      clearbody cycle. destruct cycle as [|c0 rest0]; [apply sound_list_nil|].
      unfold assert_starts_left.
      destruct (label _ c0) as [[]|] eqn:Hc0; [|apply sound_list_nil..].
      destruct (cycle_step _ _ _ _ _ _ Hpre Hsub Hlab Hfc Hst Hc0)
        as (m' & c1 & rest & -> & -> & Hm' & Hold & Hnew).
      unfold Gen.assert. rewrite bool_decide_true by apply Hm'.
      cbn [first_edge].
      apply (maximum_branches fuel graph m m' m m' c0 c1); try done. by left. }
  all: destruct (_find_feaseable_two_edge_path graph m) as [[[left1 right_] left2]|] eqn:Hpath;
    [|apply sound_list_nil].
  all: destruct (path_step _ _ _ _ _ Hpre Hpath) as (Hm1 & Hm2 & Hm').
  all: rewrite Hm1; unfold Gen.assert; rewrite bool_decide_true by apply Hm'.
  all: apply (maximum_branches fuel graph m _ (<[left2:=right_]> (delete left1 m)) m
                left2 right_); try done.
  all: try (by right); try apply lookup_insert_eq; by rewrite Hm2.
Qed.

Lemma seeded_sound graph m (l : list dict) :
  is_matching graph0 m → sound_list graph0 graph m l →
  NoDup (m :: l) ∧ Forall (λ n, is_matching graph0 n ∧ size n = size m) (m :: l).
Proof.
  intros Hm [Hnd Hall]. rewrite Forall_forall in Hall. split.
  - apply NoDup_cons. split; [|done]. intros Hin.
    by destruct (post_differs _ _ _ _ (Hall _ Hin)).
  - apply Forall_cons. split; [done|]. apply Forall_forall. intros n Hn.
    split; apply (Hall _ Hn).
Qed.

Lemma enum_perfect_sound :
  nx_matching graph0 (maximum_matching graph0 (top_nodes graph0)) →
  NoDup (Gen.emitted (enum_perfect graph0)) ∧
  Forall (λ n, is_matching graph0 n ∧ size n = length (top_nodes graph0))
         (Gen.emitted (enum_perfect graph0)).
Proof.
  intros Hs. unfold enum_perfect_matchings.
  case_decide; [split; constructor|].
  case_decide as Hguard; [|split; constructor].
  destruct Hguard as [_ ->].
  rewrite emitted_yield_seq.
  pose proof (seed_is_matching _ _ Hbip0 Hs) as Hm.
  destruct (trimmed graph0 _) as [graph|] eqn:Htr;
    [|by apply (seeded_sound graph0); [|apply sound_list_nil]].
  apply trimmed_graph_facts in Htr as [Hb Hsub]; [|done].
  apply (seeded_sound graph); [done|].
  apply perfect_iter_sound. split; [done|apply Hsub|done].
Qed.

Lemma enum_maximum_sound :
  nx_matching graph0 (maximum_matching graph0 (top_nodes graph0)) →
  NoDup (Gen.emitted (enum_maximum graph0)) ∧
  Forall (λ n, is_matching graph0 n ∧ size n = size (the_seed graph0))
         (Gen.emitted (enum_maximum graph0)).
Proof.
  intros Hs. unfold enum_maximum_matchings.
  case_decide; [|split; constructor].
  rewrite emitted_yield_seq.
  pose proof (seed_is_matching _ _ Hbip0 Hs) as Hm.
  apply (seeded_sound graph0); [done|].
  apply maximum_iter_sound.
  - split; [done..|]. done.
  - intros a Ha. eapply sublist_subseteq; [apply (trim_arcs _ Htrim)|done].
  - intros v s Hl. simpl.
    eapply (sublist_label _ (nodes graph0)); [|apply Hbip0|done].
    apply (trim_nodes _ Htrim (create_directed_matching_graph graph0 _ _)).
Qed.

End Soundness.

(** ** What the enumerators emit *)

Lemma top_nodes_NoDup graph : bipartite graph → NoDup (top_nodes graph).
Proof.
  intros Hb. unfold top_nodes.
  eapply sublist_fst_NoDup; [apply sublist_filter|apply Hb].
Qed.

Lemma matching_dom_tops graph m :
  bipartite graph → is_matching graph m →
  dom m ⊆ (list_to_set (top_nodes graph) : gset node).
Proof.
  intros Hb Hm t [b Ht]%elem_of_dom. apply elem_of_list_to_set.
  apply top_nodes_label; [apply Hb|]. by eapply matching_key.
Qed.

Lemma matching_size_le_tops graph m :
  bipartite graph → is_matching graph m → size m ≤ length (top_nodes graph).
Proof.
  intros Hb Hm. rewrite <- size_dom.
  rewrite <- (size_list_to_set (C := gset node)) by by apply top_nodes_NoDup.
  by apply subseteq_size, matching_dom_tops.
Qed.

Lemma matching_covers_tops graph m t :
  bipartite graph → is_matching graph m → size m = length (top_nodes graph) →
  t ∈ top_nodes graph → is_Some (m !! t).
Proof.
  intros Hb Hm Hsz Ht. apply elem_of_dom.
  assert (dom m = list_to_set (top_nodes graph)) as ->.
  { apply set_subseteq_size_eq; [by apply matching_dom_tops|].
    rewrite size_dom, size_list_to_set by by apply top_nodes_NoDup. lia. }
  by apply elem_of_list_to_set.
Qed.

Lemma is_matching_sided graph m : is_matching graph m → sided graph m.
Proof. intros Hm t b Ht. split; [by eapply matching_key|by eapply matching_value]. Qed.

(** The cycle flip keeps the keys on the LEFT and the values on the
    RIGHT. *)
Lemma flip_sided graph m c m' :
  sided graph m → alternating_cycle graph m c → flip_cycle m c = Some m' →
  sided graph m'.
Proof.
  intros Hs Hac Hflip.
  destruct (alternating_cycle_pairs _ _ _ Hac) as (p & ps & -> & Halt).
  rewrite flip_cycle_interleave in Hflip. simplify_eq.
  intros t b Hl.
  apply foldl_write_lookup in Hl as [Hin|[_ Hold]];
    [|by apply Hs|rewrite shifted_fst; apply Halt].
  destruct (flip_new_top _ _ _ _ Hin) as [b0 Hin0].
  destruct (flip_new_bottom _ _ _ _ Hin) as [t0 Hin1].
  apply (alt_matched _ _ _ _ Halt) in Hin0, Hin1.
  split; [by apply (Hs _ _ Hin0)|by apply (Hs _ _ Hin1)].
Qed.

(** So does the rewiring of a feasible path. *)
Lemma path_sided graph m left1 right_ left2 :
  bipartite graph → sided graph m →
  _find_feaseable_two_edge_path graph m = Some (left1, right_, left2) →
  sided graph (<[left2 := right_]> (delete left1 m)).
Proof.
  intros Hb Hs (_ & Hm1 & _ & Hnb%neighbors_has_edge & _)%feasible_scan_Some t b Hl.
  destruct (Hs _ _ Hm1) as [_ Hr].
  destruct (decide (t = left2)) as [->|Hne].
  - rewrite lookup_insert_eq in Hl. simplify_eq. split; [|done].
    destruct (has_edge_opposite _ _ _ Hb Hnb) as [[? ?]|[? ?]]; congruence.
  - rewrite lookup_insert_ne in Hl by done.
    apply lookup_delete_Some in Hl as [_ Hl]. by apply Hs.
Qed.

Section Claims.

Variable graph : Graph node.
Hypothesis Hbip : bipartite graph.
Hypothesis Htrim : trimmer_contract strongly_connected_components_decomposition.
Hypothesis Hfind : finder_contract find_cycle_with_edge_of_matching.

(** C2. Every matching emitted by [enum_maximum_matchings] is a matching
    of the graph whose size is the maximum matching number of the graph,
    and every matching emitted by [enum_perfect_matchings] has one pair per
    top vertex, as many as there are bottom vertices, and covers every top
    vertex. *)
Theorem emitted_cardinality :
  seed_contract graph (maximum_matching graph (top_nodes graph)) →
  (∀ n, n ∈ Gen.emitted (enum_maximum graph) →
     maximum_matching_number graph (size n)) ∧
  (∀ n, n ∈ Gen.emitted (enum_perfect graph) →
     size n = length (top_nodes graph) ∧
     length (top_nodes graph) = length (bottom_nodes graph) ∧
     ∀ t, t ∈ top_nodes graph → is_Some (n !! t)).
Proof.
  intros Hs. split.
  - intros n Hn.
    destruct (enum_maximum_sound Htrim Hfind graph Hbip (seed_nx _ _ Hs)) as [_ Hall].
    rewrite Forall_forall in Hall. destruct (Hall _ Hn) as [Hm Hsz].
    split; [by exists n|]. intros m Hm'. rewrite Hsz. by apply (seed_max _ _ Hs).
  - intros n Hn.
    destruct (enum_perfect_sound Htrim Hfind graph Hbip (seed_nx _ _ Hs)) as [_ Hall].
    rewrite Forall_forall in Hall. destruct (Hall _ Hn) as [Hm Hsz].
    split; [done|]. split.
    + destruct (decide (length (top_nodes graph) = length (bottom_nodes graph)))
        as [|Hne]; [done|].
      rewrite enum_perfect_unbalanced in Hn by done. by apply elem_of_nil in Hn.
    + intros t Ht. by eapply matching_covers_tops.
Qed.

(** C3. In every matching emitted by either enumerator each pair is an
    edge of the graph, no top vertex occurs in two pairs and no bottom
    vertex occurs in two pairs. *)
Theorem emitted_matchings_are_matchings :
  nx_matching graph (maximum_matching graph (top_nodes graph)) →
  ∀ n, n ∈ Gen.emitted (enum_perfect graph) ∨ n ∈ Gen.emitted (enum_maximum graph) →
    (∀ t b, n !! t = Some b → has_edge graph t b) ∧
    (∀ t b b', n !! t = Some b → n !! t = Some b' → b = b') ∧
    (∀ t t' b, n !! t = Some b → n !! t' = Some b → t = t').
Proof.
  intros Hs n Hn.
  assert (is_matching graph n) as Hm.
  { destruct Hn as [Hn|Hn].
    - destruct (enum_perfect_sound Htrim Hfind graph Hbip Hs) as [_ Hall].
      rewrite Forall_forall in Hall. by destruct (Hall _ Hn).
    - destruct (enum_maximum_sound Htrim Hfind graph Hbip Hs) as [_ Hall].
      rewrite Forall_forall in Hall. by destruct (Hall _ Hn). }
  split; [apply Hm|]. split; [|apply Hm].
  intros t b b' Hb Hb'. congruence.
Qed.

(** C4. Within one run of either enumerator no matching is emitted
    twice. *)
Theorem emitted_without_repetition :
  nx_matching graph (maximum_matching graph (top_nodes graph)) →
  NoDup (Gen.emitted (enum_perfect graph)) ∧
  NoDup (Gen.emitted (enum_maximum graph)).
Proof.
  intros Hs. split.
  - by destruct (enum_perfect_sound Htrim Hfind graph Hbip Hs).
  - by destruct (enum_maximum_sound Htrim Hfind graph Hbip Hs).
Qed.

(** C9. Every matching emitted by either enumerator maps LEFT vertices to
    RIGHT vertices; the cycle flip and the rewiring of a feasible path both
    keep the keys on the LEFT and the values on the RIGHT. *)
Theorem emitted_top_to_bottom :
  nx_matching graph (maximum_matching graph (top_nodes graph)) →
  (∀ n, n ∈ Gen.emitted (enum_perfect graph) ∨ n ∈ Gen.emitted (enum_maximum graph) →
     sided graph n) ∧
  (∀ m c m', sided graph m → alternating_cycle graph m c →
     flip_cycle m c = Some m' → sided graph m') ∧
  (∀ m left1 right_ left2, sided graph m →
     _find_feaseable_two_edge_path graph m = Some (left1, right_, left2) →
     sided graph (<[left2 := right_]> (delete left1 m))).
Proof.
  intros Hs. split; [|split].
  - intros n Hn. apply is_matching_sided.
    destruct Hn as [Hn|Hn].
    + destruct (enum_perfect_sound Htrim Hfind graph Hbip Hs) as [_ Hall].
      rewrite Forall_forall in Hall. by destruct (Hall _ Hn).
    + destruct (enum_maximum_sound Htrim Hfind graph Hbip Hs) as [_ Hall].
      rewrite Forall_forall in Hall. by destruct (Hall _ Hn).
  - intros m c m'. apply flip_sided.
  - intros m left1 right_ left2. by apply path_sided.
Qed.

End Claims.

(** ** The matching handed to the recursion on G+(e) *)




End Properties.

(** * Completeness of the enumeration *)

Section Orbits.

Context {node : Type} `{Countable node}.

Local Abbreviation dict := (gmap node node).

Implicit Types (m n : dict) (t b u v : node).

(** More elements than the set has room for: two of them are equal. *)
Lemma pigeonhole (l : list node) : ∀ X : gset node,
  (∀ x, x ∈ l → x ∈ X) → size X < length l →
  ∃ i j x, i < j ∧ l !! i = Some x ∧ l !! j = Some x.
Proof.
  induction l as [|y l IH]; intros X Hin Hlen; [simpl in Hlen; lia|].
  destruct (decide (y ∈ l)) as [Hy|Hy].
  - apply list_elem_of_lookup in Hy as [j Hj].
    exists 0, (S j), y. split; [lia|done].
  - destruct (IH (X ∖ {[y]})) as (i & j & x & Hij & Hi & Hj).
    + intros x Hx. apply elem_of_difference. split; [apply Hin; by right|].
      intros ->%elem_of_singleton. done.
    + assert (y ∈ X) as HyX by (apply Hin; left).
      pose proof (size_difference X {[y]}) as Hsz.
      rewrite size_singleton in Hsz. simpl in Hlen.
      assert (size X ≠ 0).
      { intros Hz. apply size_empty_inv in Hz. by apply (not_elem_of_empty (C := gset node) y), Hz. }
      rewrite Hsz by by apply singleton_subseteq_l. lia.
    + exists (S i), (S j), x. split; [lia|done].
Qed.

(** An injective map of a finite set into itself brings every element back
    to itself. *)
Lemma periodic (f : node → node) (X : gset node) x :
  (∀ y, y ∈ X → f y ∈ X) →
  (∀ y z, y ∈ X → z ∈ X → f y = f z → y = z) →
  x ∈ X → ∃ k, 0 < k ∧ Nat.iter k f x = x.
Proof.
  intros Hclosed Hinj Hx.
  assert (∀ i, Nat.iter i f x ∈ X) as Hiter.
  { induction i as [|i IH]; simpl; auto. }
  destruct (pigeonhole ((λ i, Nat.iter i f x) <$> seq 0 (S (size X))) X)
    as (i & j & y & Hij & Hi & Hj).
  - intros y (i & -> & _)%list_elem_of_fmap. apply Hiter.
  - rewrite length_fmap, length_seq. lia.
  - rewrite list_lookup_fmap in Hi, Hj.
    destruct (seq 0 (S (size X)) !! i) as [i'|] eqn:Hi'; [|done].
    destruct (seq 0 (S (size X)) !! j) as [j'|] eqn:Hj'; [|done].
    apply lookup_seq in Hi' as [-> _], Hj' as [-> _]. simpl in Hi, Hj.
    assert (Nat.iter i f x = Nat.iter j f x) as Heq by congruence.
    clear Hi Hj y.
    exists (j - i). split; [lia|].
    revert j Hij Heq. induction i as [|i IH]; intros j Hij Heq.
    + by rewrite Nat.sub_0_r.
    + destruct j as [|j]; [lia|]. simpl in Heq.
      apply Hinj in Heq; [|apply Hiter..]. simpl. apply IH; [lia|done].
Qed.

Lemma key_of_Some n b t : injective n → key_of n b = Some t ↔ n !! t = Some b.
Proof.
  intros Hinj. unfold key_of. rewrite fmap_Some. split.
  - intros ([i [t' b']] & (Hl & Hb & _)%list_find_Some & ->). simpl in *. subst.
    apply list_elem_of_lookup_2 in Hl. by apply elem_of_map_to_list in Hl.
  - intros Hn.
    destruct (list_find_elem_of (λ p : node * node, p.2 = b) (map_to_list n) (t, b))
      as [[i [t' b']] Hfind]; [by apply elem_of_map_to_list|done|].
    exists (i, (t', b')). split; [done|]. simpl.
    apply list_find_Some in Hfind as (Hl & Hb & _). simpl in Hb. subst.
    apply list_elem_of_lookup_2, elem_of_map_to_list in Hl. by eapply Hinj.
Qed.

Section Orbit.

Variables (m n : dict).
Hypothesis Hcover : same_cover m n.

Let differs t := ∃ b, m !! t = Some b ∧ n !! t ≠ Some b.

Lemma successor_spec t b :
  m !! t = Some b → n !! successor m n t = Some b.
Proof.
  intros Hm. destruct (proj1 (cover_bottoms _ _ Hcover b)) as [t' Ht']; [by exists t|].
  unfold successor. rewrite Hm. simpl.
  rewrite (proj2 (key_of_Some n b t' (cover_inj_r _ _ Hcover))) by done. done.
Qed.

Lemma successor_dom t : t ∈ dom m → successor m n t ∈ dom m.
Proof.
  intros [b Hb]%elem_of_dom. rewrite <- (cover_tops _ _ Hcover).
  apply elem_of_dom. exists b. by apply successor_spec.
Qed.

Lemma successor_inj y z :
  y ∈ dom m → z ∈ dom m → successor m n y = successor m n z → y = z.
Proof.
  intros [by' Hy]%elem_of_dom [bz Hz]%elem_of_dom Heq.
  pose proof (successor_spec _ _ Hy) as Hy'. pose proof (successor_spec _ _ Hz) as Hz'.
  rewrite Heq in Hy'. simplify_eq. by eapply (cover_inj_l _ _ Hcover).
Qed.

Lemma successor_differs t b :
  m !! t = Some b → n !! t ≠ Some b →
  differs (successor m n t) ∧ diff_arc m n t b ∧ diff_arc m n b (successor m n t).
Proof.
  intros Hm Hn. pose proof (successor_spec _ _ Hm) as Hs.
  assert (successor m n t ≠ t) as Hne by (intros Heq; by rewrite Heq in Hs).
  assert (m !! successor m n t ≠ Some b) as Hms.
  { intros Hms. apply Hne. by eapply (cover_inj_l _ _ Hcover). }
  split; [|split].
  - assert (successor m n t ∈ dom m) as [b' Hb']%elem_of_dom.
    { apply successor_dom, elem_of_dom. eauto. }
    exists b'. split; [done|]. congruence.
  - by left.
  - by right.
Qed.

Lemma orbit_reachable t k :
  differs t →
  rtc (diff_arc m n) t (Nat.iter k (successor m n) t) ∧
  differs (Nat.iter k (successor m n) t).
Proof.
  intros Hd. induction k as [|k [IHr (b & Hm & Hn)]]; simpl; [done|].
  destruct (successor_differs _ _ Hm Hn) as (Hd' & H1 & H2).
  split; [|done]. eapply rtc_r; [|done]. by eapply rtc_r.
Qed.

(** Every arc on which the two matchings differ lies on a cycle of such
    arcs. *)
Lemma diff_arc_cyclic u v : diff_arc m n u v → rtc (diff_arc m n) v u.
Proof.
  intros [[Hm Hn]|[Hn Hm]].
  - destruct (periodic (successor m n) (dom m) u) as (k & Hk & Hper).
    + apply successor_dom.
    + apply successor_inj.
    + apply elem_of_dom. eauto.
    + destruct (successor_differs _ _ Hm Hn) as (Hd' & _ & H2).
      eapply rtc_l; [done|].
      destruct k as [|k]; [lia|]. rewrite Nat.iter_succ_r in Hper.
      rewrite <- Hper at 2. by apply orbit_reachable.
  - destruct (proj2 (cover_bottoms _ _ Hcover u)) as [t Ht]; [by exists v|].
    assert (t ≠ v) as Hne by (intros ->; congruence).
    assert (n !! t ≠ Some u) as Hnt.
    { intros Hnt. apply Hne. by eapply (cover_inj_r _ _ Hcover). }
    assert (successor m n t = v) as Hs.
    { pose proof (successor_spec _ _ Ht) as Hs. by eapply (cover_inj_r _ _ Hcover). }
    destruct (periodic (successor m n) (dom m) t) as (k & Hk & Hper).
    + apply successor_dom.
    + apply successor_inj.
    + apply elem_of_dom. eauto.
    + destruct (successor_differs _ _ Ht Hnt) as (Hd' & H1 & _).
      rewrite Hs in Hd'.
      destruct k as [|k]; [lia|]. rewrite Nat.iter_succ_r, Hs in Hper.
      eapply rtc_r; [|done]. rewrite <- Hper. by apply orbit_reachable.
Qed.

End Orbit.

Section Graphs.

Variable graph0 : Graph node.
Hypothesis Hbip0 : bipartite graph0.

Implicit Types (graph : Graph node) (d : DiGraph node).

Lemma frame_label graph m v s :
  frame_ok graph0 graph m → label (nodes graph) v = Some s →
  label (nodes graph0) v = Some s.
Proof.
  intros Hok Hl. eapply sublist_label; [apply Hok|apply Hbip0|done].
Qed.

Lemma frame_label_inv graph m v s :
  frame_ok graph0 graph m → v ∈ (nodes graph).*1 →
  label (nodes graph0) v = Some s → label (nodes graph) v = Some s.
Proof.
  intros Hok [s' Hs']%label_is_Some Hl.
  pose proof (frame_label _ _ _ _ Hok Hs'). congruence.
Qed.

(** The arc of D(G, M) for an edge read from its top. *)
Lemma arc_in_matching_graph graph m t b :
  bipartite graph → has_edge graph t b → label (nodes graph) t = Some LEFT →
  (if decide (m !! t = Some b) then (t, b) else (b, t))
  ∈ arcs (create_directed_matching_graph graph (top_nodes graph) m).
Proof.
  intros Hb He Ht.
  assert (t ∈ top_nodes graph) as Htop by by apply top_nodes_label; [apply Hb|].
  assert (b ∉ top_nodes graph) as Hbot.
  { rewrite top_nodes_label by apply Hb.
    destruct (has_edge_opposite _ _ _ Hb He) as [[? ?]|[? ?]]; congruence. }
  simpl. apply list_elem_of_fmap.
  destruct He as [Hin|Hin].
  - exists (t, b). split; [|done]. unfold orient. simpl.
    destruct (decide (t ∈ top_nodes graph)); [|done]. simpl.
    by destruct (decide (m !! t = Some b)).
  - exists (b, t). split; [|done]. unfold orient. simpl.
    destruct (decide (b ∈ top_nodes graph)); [done|]. simpl.
    by destruct (decide (m !! t = Some b)).
Qed.

Lemma diff_arc_in_graph graph m n u v :
  frame_ok graph0 graph m → target graph0 graph m n →
  diff_arc m n u v →
  (u, v) ∈ arcs (create_directed_matching_graph graph (top_nodes graph) m).
Proof.
  intros Hok Htg Hd.
  pose proof (pre_bipartite _ _ _ (ok_pre _ _ _ Hok)) as Hb.
  pose proof (pre_matching _ _ _ (ok_pre _ _ _ Hok)) as Hm.
  destruct Hd as [[Hmu Hnu]|[Hnv Hmv]].
  - assert (has_edge graph u v) as He by (apply (tg_diff _ _ _ _ Htg); by right).
    pose proof (arc_in_matching_graph graph m u v Hb He) as Harc.
    rewrite decide_True in Harc by done. apply Harc.
    eapply frame_label_inv; [done|by apply (has_edge_nodes _ _ _ Hb He)|].
    by eapply matching_key.
  - assert (has_edge graph v u) as He by (apply (tg_diff _ _ _ _ Htg); by left).
    pose proof (arc_in_matching_graph graph m v u Hb He) as Harc.
    rewrite decide_False in Harc by done. apply Harc.
    eapply frame_label_inv; [done|by apply (has_edge_nodes _ _ _ Hb He)|].
    eapply matching_key; [apply Htg|done].
Qed.

Lemma target_same_cover graph m n :
  frame_ok graph0 graph m → target graph0 graph m n → dom n = dom m →
  same_cover m n.
Proof.
  intros Hok Htg Hdom. split; [|..|done|apply Htg].
  - intros t t' b. apply (matching_inj graph0), Hok.
  - intros t t' b. apply (matching_inj graph0), Htg.
Qed.

(** Two dictionaries that differ differ at some key. *)
Lemma dict_differ m n : n ≠ m → ∃ t, n !! t ≠ m !! t.
Proof.
  intros Hne.
  destruct (decide (Forall (λ t, n !! t = m !! t) (elements (dom m ∪ dom n))))
    as [Hall|Hex].
  - destruct Hne. apply map_eq. intros t.
    destruct (decide (t ∈ dom m ∪ dom n)) as [Hin|Hnot].
    + rewrite Forall_forall in Hall. apply Hall. by apply elem_of_elements.
    + apply not_elem_of_union in Hnot as [Hm Hn].
      apply not_elem_of_dom in Hm, Hn. congruence.
  - apply not_Forall_Exists in Hex; [|apply _].
    apply Exists_exists in Hex as (t & _ & Ht). by exists t.
Qed.

(** With the same tops covered, a target gives a cyclic arc of D(G, M). *)
Lemma target_cyclic_arc graph m n :
  frame_ok graph0 graph m → target graph0 graph m n → dom n = dom m →
  ∃ u v, (u, v) ∈ arcs (create_directed_matching_graph graph (top_nodes graph) m) ∧
         rtc (arc_rel (create_directed_matching_graph graph (top_nodes graph) m)) v u.
Proof.
  intros Hok Htg Hdom.
  destruct (dict_differ _ _ (tg_differs _ _ _ _ Htg)) as [t Ht].
  assert (is_Some (m !! t)) as [b Hb].
  { destruct (m !! t) as [b|] eqn:Hm; [eauto|].
    apply not_elem_of_dom in Hm. rewrite <- Hdom in Hm. apply not_elem_of_dom in Hm.
    congruence. }
  assert (diff_arc m n t b) as Hd by (left; split; [done|congruence]).
  exists t, b. split; [by eapply diff_arc_in_graph|].
  eapply rtc_subrel; [|eapply diff_arc_cyclic; [by eapply target_same_cover|done]].
  intros u v Huv. by eapply diff_arc_in_graph.
Qed.

(** ** Simple edge lists *)

Lemma simple_edges_sublist (l' l : list (node * node)) :
  l' `sublist_of` l → simple_edges l → simple_edges l'.
Proof.
  intros Hsub [Hnd Hrev]. split.
  - by eapply sublist_NoDup.
  - intros u v Hin Hin'. eapply Hrev; eapply sublist_subseteq; done.
Qed.

Lemma undirected_simple (l : list (node * node)) : simple_edges l → undirected l = l.
Proof.
  induction l as [|a l IH]; intros [Hnd Hrev]; [done|].
  apply NoDup_cons in Hnd as [Ha Hnd]. simpl.
  rewrite IH.
  - rewrite decide_False; [done|]. intros [Hin|Hin]; [done|].
    destruct a as [u v]. apply (Hrev u v); [left|by right].
  - split; [done|]. intros u v Hin Hin'. apply (Hrev u v); by right.
Qed.

Lemma orient_cases top m (e : node * node) :
  orient top m e = e ∨ orient top m e = (e.2, e.1).
Proof.
  unfold orient. destruct e as [u v]. simpl.
  destruct (decide (u ∈ top)); simpl; case_decide; auto.
Qed.

Lemma matching_graph_simple graph top m :
  simple_edges (edges graph) →
  simple_edges (arcs (create_directed_matching_graph graph top m)).
Proof.
  intros [Hnd Hrev]. simpl.
  assert (∀ x y, x ∈ edges graph → y ∈ edges graph →
            orient top m x = orient top m y ∨
            orient top m x = ((orient top m y).2, (orient top m y).1) →
            x = y ∨ (x = (y.2, y.1))) as Hor.
  { intros [u v] [u' v'] Hx Hy.
    destruct (orient_cases top m (u, v)) as [Ho|Ho],
             (orient_cases top m (u', v')) as [Ho'|Ho']; rewrite Ho, Ho'; simpl;
      intros [[= -> ->]|[= -> ->]]; auto. }
  split.
  - apply NoDup_fmap_2_strong; [|done].
    intros x y Hx Hy Heq. destruct (Hor x y Hx Hy) as [?| ->]; [by left|done|].
    destruct y as [u v]. by destruct (Hrev u v).
  - intros u v [x [Hx Hinx]]%list_elem_of_fmap [y [Hy Hiny]]%list_elem_of_fmap.
    destruct (Hor x y Hinx Hiny) as [->| ->].
    + right. rewrite <- Hx, <- Hy. done.
    + assert (u = v) as -> by congruence.
      destruct (orient_cases top m y) as [Ho|Ho]; rewrite Ho in Hy;
        destruct y as [a b']; simpl in *; simplify_eq;
        match goal with Hin : (?w, ?w) ∈ _ |- _ => by destruct (Hrev w w) end.
    + destruct y as [a b']. by destruct (Hrev a b').
Qed.

Lemma length_matching_graph graph top m :
  length (arcs (create_directed_matching_graph graph top m)) = length (edges graph).
Proof. simpl. apply length_fmap. Qed.

Lemma without_nodes_length graph t b :
  has_edge graph t b →
  length (edges (graph_without_nodes_of_edge graph (t, b))) < length (edges graph).
Proof.
  intros [Hin|Hin]; simpl; eapply length_filter_lt; try done;
    unfold incident; simpl; tauto.
Qed.

Lemma without_edge_length graph t b graph' :
  graph_without_edge graph (t, b) = Some graph' →
  length (edges graph') < length (edges graph).
Proof.
  unfold graph_without_edge. case_decide as He; [|done]. intros [= <-]. simpl in *.
  destruct He as [Hin|Hin]; eapply length_filter_lt; try done; simpl; tauto.
Qed.

Lemma without_edge_Some graph t b :
  has_edge graph t b → is_Some (graph_without_edge graph (t, b)).
Proof. intros He. unfold graph_without_edge. rewrite decide_True by done. eauto. Qed.

Lemma without_edge_has_edge graph edge graph' u v :
  graph_without_edge graph edge = Some graph' →
  has_edge graph u v → (u, v) ≠ edge → (v, u) ≠ edge → has_edge graph' u v.
Proof.
  unfold graph_without_edge. case_decide; [|done]. intros [= <-] He Hne1 Hne2.
  destruct edge as [a b']. simpl in *.
  destruct He as [Hin|Hin]; [left|right]; apply list_elem_of_filter; split; try done;
    split; congruence.
Qed.

Lemma without_nodes_has_edge graph edge u v :
  has_edge graph u v → u ≠ edge.1 → u ≠ edge.2 → v ≠ edge.1 → v ≠ edge.2 →
  has_edge (graph_without_nodes_of_edge graph edge) u v.
Proof.
  intros He ????.
  destruct He as [Hin|Hin]; [left|right]; apply list_elem_of_filter; (split; [|done]);
    unfold incident; simpl; tauto.
Qed.

Lemma frame_ok_without_nodes graph m edge :
  frame_ok graph0 graph m → frame_ok graph0 (graph_without_nodes_of_edge graph edge) m.
Proof.
  intros [Hpre Hns Hsimple]. split.
  - eapply frame_pre_sub; [done| |apply without_nodes_subgraph|apply Hpre].
    apply without_nodes_bipartite, Hpre.
  - etrans; [apply sublist_filter|done].
  - eapply simple_edges_sublist; [apply sublist_filter|done].
Qed.

Lemma frame_ok_without_edge graph m edge graph' :
  frame_ok graph0 graph m → graph_without_edge graph edge = Some graph' →
  frame_ok graph0 graph' m.
Proof.
  intros [Hpre Hns Hsimple] Hwe. split.
  - eapply frame_pre_sub; [done| |by eapply without_edge_subgraph|apply Hpre].
    eapply without_edge_bipartite; [apply Hpre|done].
  - etrans; [apply (without_edge_subgraph _ _ _ Hwe)|done].
  - eapply simple_edges_sublist; [|done].
    unfold graph_without_edge in Hwe. case_decide; [|done]. simplify_eq. simpl.
    apply sublist_filter.
Qed.

Lemma frame_ok_matching graph m m' :
  frame_ok graph0 graph m → is_matching graph0 m' → frame_ok graph0 graph m'.
Proof. intros [[? ? ?] ? ?] Hm'. by split; [split|..]. Qed.

End Graphs.

(** ** More on the flip *)

Section FlipCover.

Variables (graph : Graph node) (m : dict) (p : node * node) (ps : list (node * node)).

Let prev := default p.2 (snd <$> last ps).
Let m' := foldl write m (shifted prev (p :: ps)).

Hypothesis Halt : alternating_pairs graph m prev (p :: ps).

(** The flip covers the bottoms that were covered. *)
Lemma flip_bottoms b : (∃ t, m' !! t = Some b) ↔ (∃ t, m !! t = Some b).
Proof.
  split.
  - intros [t [Hin|[_ Hold]]%(flip_lookup _ _ _ _ Halt)]; [|eauto].
    destruct (flip_new_bottom _ _ _ _ Hin) as [t0 Hin0].
    exists t0. by apply (alt_matched _ _ _ _ Halt).
  - intros [t Ht]. destruct (decide (t ∈ (p :: ps).*1)) as [Hin|Hnot].
    + apply list_elem_of_fmap in Hin as [[t0 b0] [Heq Hin]]. simpl in Heq. subst t0.
      pose proof (alt_matched _ _ _ _ Halt _ _ Hin) as Hm0.
      assert (b0 = b) as -> by congruence.
      assert (b ∈ (shifted prev (p :: ps)).*2) as Hb.
      { unfold prev. rewrite shifted_snd_perm. apply list_elem_of_fmap. by exists (t, b). }
      apply list_elem_of_fmap in Hb as [[t' b'] [Heq' Hin']]. simpl in Heq'. subst b'.
      exists t'. apply (flip_lookup _ _ _ _ Halt). by left.
    + exists t. apply (flip_lookup _ _ _ _ Halt). by right.
Qed.

(** A pair of [m] that the flip drops is a pair of the cycle. *)
Lemma flip_dropped t b : m !! t = Some b → m' !! t ≠ Some b → (t, b) ∈ p :: ps.
Proof.
  intros Hm Hm'.
  destruct (proj1 (flip_symmetric_difference _ _ _ _ Halt t b)) as [Hin|Hin];
    [by right| |done].
  destruct Hm'. apply (flip_lookup _ _ _ _ Halt). by left.
Qed.

End FlipCover.

Section Completeness.

Variable maximum_matching : Graph node → list node → dict.
Variable strongly_connected_components_decomposition : DiGraph node → DiGraph node.
Variable find_cycle_with_edge_of_matching : DiGraph node → dict → option (list node).

Local Abbreviation perfect_iter :=
  (_enum_perfect_matchings_iter strongly_connected_components_decomposition
     find_cycle_with_edge_of_matching).
Local Abbreviation maximum_iter :=
  (_enum_maximum_matchings_iter find_cycle_with_edge_of_matching).
Local Abbreviation trimmed :=
  (trimmed_graph strongly_connected_components_decomposition).

Hypothesis Htrim : trimmer_contract strongly_connected_components_decomposition.
Hypothesis Htrimc : trimmer_complete strongly_connected_components_decomposition.
Hypothesis Hfind : finder_contract find_cycle_with_edge_of_matching.
Hypothesis Hfindc : finder_complete find_cycle_with_edge_of_matching.

Variable graph0 : Graph node.
Hypothesis Hbip0 : bipartite graph0.

Implicit Types (graph : Graph node) (d : DiGraph node).

Lemma digraph_ok_refl graph m :
  bipartite graph →
  digraph_ok graph m (create_directed_matching_graph graph (top_nodes graph) m).
Proof. intros Hb. split; [done|done|by apply matching_graph_closed|done]. Qed.

Lemma rtc_arc_rel_mono d d' u v :
  arcs d ⊆ arcs d' → rtc (arc_rel d) u v → rtc (arc_rel d') u v.
Proof. intros Hsub. apply rtc_subrel. intros x y Hxy. by apply Hsub. Qed.

(** The cycle the finder returns, normalized, starts at a LEFT vertex the
    digraph knows. *)
Lemma normalized_cycle graph m d raw_cycle :
  bipartite graph → digraph_ok graph m d →
  find_cycle_with_edge_of_matching d m = Some raw_cycle →
  ∃ c0 rest0, _start_cycle_with_left graph raw_cycle = inr (c0 :: rest0) ∧
              label (dnodes d) c0 = Some LEFT.
Proof.
  intros Hb Hd Hfc. pose proof (Hfind _ _ _ Hfc) as [Hne Hnd Harcs].
  assert (∀ u v, (u, v) ∈ arcs d →
    ∃ su sv, label (dnodes d) u = Some su ∧ label (nodes graph) u = Some su ∧
             label (nodes graph) v = Some sv ∧ su ≠ sv) as Hlab.
  { intros u v Huv. destruct (dg_closed _ _ _ Hd _ _ Huv) as [[su Hu]%label_is_Some _].
    exists su. pose proof (dg_labels _ _ _ Hd _ _ Hu) as Hu'.
    apply (dg_arcs _ _ _ Hd), arc_of_matching_graph in Huv; [|done].
    destruct Huv as [(? & ? & _)|(? & ? & _)]; eexists; split_and!; try done;
      congruence. }
  destruct raw_cycle as [|v0 raw]; [done|].
  assert (0 < length (v0 :: raw)) as Hpos by (simpl; lia).
  destruct (lookup_lt_is_Some_2 (v0 :: raw) (1 mod length (v0 :: raw))) as [v1 Hv1];
    [by apply Nat.mod_upper_bound; simpl|].
  pose proof (Harcs 0 v0 v1 eq_refl Hv1) as Harc0.
  destruct (Hlab _ _ Harc0) as (s0 & s1 & Hd0 & Hg0 & _).
  unfold _start_cycle_with_left. rewrite Hg0. destruct s0.
  - by exists v0, raw.
  - destruct (exists_last Hne) as (front & x & Heq). rewrite Heq, rotate_right_snoc.
    exists x, front. split; [done|].
    assert ((v0 :: raw) !! (length (v0 :: raw) - 1) = Some x) as Hx.
    { rewrite Heq, length_app. simpl.
      replace (length front + 1 - 1) with (length front) by lia.
      by rewrite lookup_app_r, Nat.sub_diag. }
    assert ((v0 :: raw) !! (S (length (v0 :: raw) - 1) mod length (v0 :: raw)) = Some v0)
      as Hx'.
    { replace (S (length (v0 :: raw) - 1)) with (length (v0 :: raw)) by lia.
      by rewrite Nat.Div0.mod_same. }
    destruct (Hlab _ _ (Harcs _ _ _ Hx Hx')) as (sx & sv & Hdx & _ & Hgv & Hne').
    rewrite Hdx. f_equal. destruct sx; [done|]. congruence.
Qed.

(** What the completeness of the enumeration uses of the flip besides
    [cycle_step]. *)
Lemma cycle_step_cover graph m d raw_cycle c0 c1 rest m' :
  frame_pre graph0 graph m → digraph_ok graph m d →
  find_cycle_with_edge_of_matching d m = Some raw_cycle →
  _start_cycle_with_left graph raw_cycle = inr (c0 :: c1 :: rest) →
  label (dnodes d) c0 = Some LEFT →
  flip_cycle m (c0 :: c1 :: rest) = Some m' →
  has_edge graph c0 c1 ∧ dom m' = dom m ∧
  (∀ b, (∃ t, m' !! t = Some b) ↔ (∃ t, m !! t = Some b)) ∧
  (∀ t b, m !! t = Some b → m' !! t ≠ Some b → has_edge graph t b).
Proof.
  intros [Hb He Hm] Hd Hfc Hst Hc0 Hflip.
  assert (directed_cycle d (c0 :: c1 :: rest)) as Hdc.
  { eapply start_cycle_with_left_cycle; [|done]. by apply Hfind in Hfc. }
  assert (alternating_cycle graph m (c0 :: c1 :: rest)) as Hac.
  { eapply directed_cycle_alternating; [done|apply Hd|done|done|].
    by apply (dg_labels _ _ _ Hd). }
  destruct (alternating_cycle_pairs _ _ _ Hac) as (p & ps & Heq & Halt).
  assert (∀ t b, (t, b) ∈ p :: ps → has_edge graph t b) as Hpairs.
  { intros t b (i & _ & Ht & Hb')%elem_of_pairs_cycle. rewrite <- Heq in Ht, Hb'.
    pose proof (cycle_arcs _ _ Hdc _ _ _ Ht Hb') as Harc.
    apply (dg_arcs _ _ _ Hd), arc_of_matching_graph in Harc; [|done].
    destruct Harc as [(_ & _ & _ & ?)|(_ & _ & _ & ?)]; [done|by apply has_edge_sym]. }
  rewrite Heq, flip_cycle_interleave in Hflip.
  assert (p = (c0, c1)) as ->.
  { destruct p. simpl in Heq. by simplify_eq. }
  simplify_eq. split_and!.
  - apply Hpairs. left.
  - by eapply flip_dom.
  - intros b. by eapply flip_bottoms.
  - intros t b Ht Ht'. apply Hpairs. by eapply flip_dropped.
Qed.

(** Trimming a frame's graph succeeds and keeps what lies on cycles. *)
Lemma trimmed_graph_ok graph m :
  frame_ok graph0 graph m →
  ∃ graph', trimmed graph m = Some graph' ∧ frame_ok graph0 graph' m ∧
            subgraph graph' graph ∧ length (edges graph') ≤ length (edges graph) ∧
            ∀ u v,
              (u, v) ∈ arcs (create_directed_matching_graph graph (top_nodes graph) m) →
              rtc (arc_rel (create_directed_matching_graph graph (top_nodes graph) m)) v u →
              has_edge graph' u v.
Proof.
  intros [Hpre Hns Hsimple].
  set (D := create_directed_matching_graph graph (top_nodes graph) m).
  set (T := strongly_connected_components_decomposition D).
  assert (simple_edges (arcs T)) as HsT.
  { eapply simple_edges_sublist; [apply (trim_arcs _ Htrim)|].
    by apply matching_graph_simple. }
  assert (trimmed graph m = Some (to_undirected T)) as Htr.
  { unfold trimmed_graph. fold D. fold T. unfold same_size. simpl.
    rewrite undirected_simple by done.
    rewrite !bool_decide_true by done. done. }
  exists (to_undirected T). split; [done|].
  destruct (trimmed_graph_facts _ Htrim _ _ _ (pre_bipartite _ _ _ Hpre) Htr) as [Hb Hsub].
  split; [|split; [done|split]].
  - split.
    + eapply frame_pre_sub; [done..|apply Hpre].
    + etrans; [apply (trim_nodes _ Htrim D)|done].
    + simpl. by rewrite undirected_simple.
  - simpl. rewrite undirected_simple by done.
    etrans; [apply sublist_length, (trim_arcs _ Htrim)|].
    unfold D. by rewrite length_matching_graph.
  - intros u v Harc Hrtc. left. simpl. rewrite undirected_simple by done.
    by apply Htrimc.
Qed.

Lemma target_trimmed graph m n graph' :
  frame_ok graph0 graph m → target graph0 graph m n → dom n = dom m →
  trimmed graph m = Some graph' → target graph0 graph' m n.
Proof.
  intros Hok Htg Hdom Htr.
  destruct (trimmed_graph_ok _ _ Hok) as (g & Hg & _ & _ & _ & Hcyc).
  assert (g = graph') as -> by congruence.
  pose proof (target_same_cover _ _ _ _ Hok Htg Hdom) as Hcover.
  assert (∀ u v, diff_arc m n u v → has_edge graph' u v) as Hd.
  { intros u v Huv. apply Hcyc; [by eapply diff_arc_in_graph|].
    eapply rtc_subrel; [|by eapply diff_arc_cyclic].
    intros x y Hxy. by eapply diff_arc_in_graph. }
  split; [apply Htg..|].
  intros t b [[Hn Hm]|[Hm Hn]].
  - apply has_edge_sym, Hd. by right.
  - apply Hd. by left.
Qed.

(** ** Moving a target between frames *)

(** From the matching [m] of a frame to the matching [y] of one of its
    branches, on the same graph. *)
Lemma target_shift graph m y n :
  target graph0 graph m n → is_matching graph0 y → n ≠ y →
  (∀ b, (∃ t, y !! t = Some b) ↔ (∃ t, m !! t = Some b)) →
  (∀ t b, y !! t = Some b → m !! t = Some b ∨ has_edge graph t b) →
  (∀ t b, m !! t = Some b → y !! t ≠ Some b → n !! t = Some b → has_edge graph t b) →
  target graph0 graph y n.
Proof.
  intros [Hn Hne Hbot Hdiff] Hy Hney Hboty Horig Hdrop. split; [done..| |].
  - intros b. by rewrite Hboty.
  - intros t b [[Hnt Hyt]|[Hyt Hnt]].
    + destruct (decide (m !! t = Some b)) as [Hmt|Hmt]; [by apply Hdrop|].
      apply Hdiff. by left.
    + destruct (Horig _ _ Hyt) as [Hmt|?]; [|done]. apply Hdiff. by right.
Qed.

(** Into the branch that keeps the pair [(t0, b0)]. *)
Lemma target_plus graph y n t0 b0 :
  bipartite graph → target graph0 graph y n → is_matching graph0 y →
  y !! t0 = Some b0 → n !! t0 = Some b0 →
  target graph0 (graph_without_nodes_of_edge graph (t0, b0)) y n.
Proof.
  intros Hb [Hn Hne Hbot Hdiff] Hy Hy0 Hn0. split; [done..|].
  intros t b Htb. pose proof (Hdiff _ _ Htb) as He.
  assert (label (nodes graph0) t0 = Some LEFT) as Ht0 by by eapply matching_key.
  assert (label (nodes graph0) b0 = Some RIGHT) as Hb0 by by eapply matching_value.
  assert (label (nodes graph0) t = Some LEFT ∧ label (nodes graph0) b = Some RIGHT)
    as [Ht Hb'].
  { destruct Htb as [[Hx _]|[Hx _]].
    - split; [apply (matching_key _ _ Hn _ _ Hx)|apply (matching_value _ _ Hn _ _ Hx)].
    - split; [apply (matching_key _ _ Hy _ _ Hx)|apply (matching_value _ _ Hy _ _ Hx)]. }
  apply without_nodes_has_edge; simpl; [done| | | |]; intros ->.
  - destruct Htb as [[? ?]|[? ?]]; congruence.
  - congruence.
  - congruence.
  - destruct Htb as [[Hx Hx']|[Hx Hx']].
    + destruct Hx'. by rewrite (matching_inj _ _ Hn _ _ _ Hx Hn0).
    + destruct Hx'. by rewrite (matching_inj _ _ Hy _ _ _ Hx Hy0).
Qed.

(** Into the branch that avoids the pair [(t0, b0)]. *)
Lemma target_minus graph y n t0 b0 graph' :
  target graph0 graph y n → is_matching graph0 y →
  y !! t0 ≠ Some b0 → n !! t0 ≠ Some b0 →
  label (nodes graph0) b0 = Some RIGHT →
  graph_without_edge graph (t0, b0) = Some graph' →
  target graph0 graph' y n.
Proof.
  intros [Hn Hne Hbot Hdiff] Hy Hy0 Hn0 Hb0 Hwe. split; [done..|].
  intros t b Htb. pose proof (Hdiff _ _ Htb) as He.
  eapply without_edge_has_edge; [done..| |].
  - intros [= -> ->]. destruct Htb as [[? ?]|[? ?]]; congruence.
  - intros [= -> ->].
    assert (label (nodes graph0) b0 = Some LEFT); [|congruence].
    destruct Htb as [[Hx _]|[Hx _]];
      [apply (matching_key _ _ Hn _ _ Hx)|apply (matching_key _ _ Hy _ _ Hx)].
Qed.

(** Along a path that closes to a cycle every arc lies on a cycle. *)
Lemma rtc_cyclic_steps (R : relation node) u v :
  rtc R v u → rtc R u v → rtc (λ x y, R x y ∧ rtc R y x) v u.
Proof.
  intros Hvu. induction Hvu as [|v w u Hvw Hwu IH]; intros Huv; [done|].
  eapply rtc_l.
  - split; [done|]. by etrans.
  - apply IH. eapply rtc_r; done.
Qed.

Lemma branches_run {A} (x : A) (gA gB : Gen.t A) :
  Gen.stop gA = Returned →
  Gen.stop (Gen.yield x ;; gA ;; gB) = Gen.stop gB ∧
  Gen.emitted (Gen.yield x ;; gA ;; gB) = x :: Gen.emitted gA ++ Gen.emitted gB.
Proof. intros HA. unfold Gen.seq. simpl. rewrite HA. done. Qed.

Lemma no_edges_no_target graph m n :
  frame_ok graph0 graph m → length (edges graph) = 0 →
  target graph0 graph m n → dom n = dom m → False.
Proof.
  intros Hok Hnil Htg Hdom.
  destruct (target_cyclic_arc _ Hbip0 _ _ _ Hok Htg Hdom) as (u & v & Harc & _).
  simpl in Harc. destruct (edges graph); [|done]. by apply elem_of_nil in Harc.
Qed.

Lemma perfect_iter_complete fuel : ∀ graph m,
  length (edges graph) < fuel → frame_ok graph0 graph m →
  Gen.stop (perfect_iter fuel graph m) = Returned ∧
  ∀ n, target graph0 graph m n → dom n = dom m →
       n ∈ Gen.emitted (perfect_iter fuel graph m).
Proof.
  induction fuel as [|fuel IH]; intros graph m Hfuel Hok; [lia|].
  pose proof (ok_pre _ _ _ Hok) as Hpre.
  pose proof (pre_bipartite _ _ _ Hpre) as Hb.
  simpl. case_decide as Hnil.
  { split; [done|]. intros n Htg Hdom. by destruct (no_edges_no_target _ _ _ Hok Hnil Htg Hdom). }
  destruct (find_cycle_with_edge_of_matching _ m) as [raw_cycle|] eqn:Hfc.
  2:{ split; [done|]. intros n Htg Hdom.
      destruct (target_cyclic_arc _ Hbip0 _ _ _ Hok Htg Hdom) as (u & v & Harc & Hrtc).
      by destruct (Hfindc _ _ Hfc _ _ Harc). }
  destruct (normalized_cycle _ _ _ _ Hb (digraph_ok_refl _ m Hb) Hfc)
    as (c0 & rest0 & Hst & Hc0).
  rewrite Hst. unfold assert_starts_left. rewrite Hc0.
  destruct (cycle_step _ Hfind _ _ _ _ _ _ _ Hpre (reflexivity _) (λ _ _ H, H) Hfc Hst Hc0)
    as (m' & c1 & rest & -> & Hflip & Hm' & Hold & Hnew).
  destruct (cycle_step_cover _ _ _ _ _ _ _ _ Hpre (digraph_ok_refl _ m Hb) Hfc Hst Hc0 Hflip)
    as (He & Hdom' & Hbot' & Hdrop).
  rewrite Hflip. unfold Gen.assert. rewrite bool_decide_true by apply Hm'.
  cbn [first_edge].
  pose proof (post_matching _ _ _ _ Hm') as Hmm'.
  (* the branch that keeps (c0, c1) *)
  unfold perfect_plus_call.
  destruct (trimmed_graph_ok _ m (frame_ok_without_nodes _ _ _ (c0, c1) Hok))
    as (graph_plus & Hgp & Hokp & _ & Hlenp & _).
  rewrite Hgp. cbn [mbind option_bind].
  pose proof (without_nodes_length _ _ _ He) as Hlen1.
  destruct (IH graph_plus m) as [HstopA HA]; [lia|done|].
  (* the branch that avoids (c0, c1) *)
  unfold perfect_minus_call.
  destruct (without_edge_Some _ _ _ He) as [graph_minus Hgm0]. rewrite Hgm0.
  pose proof (frame_ok_without_edge _ _ _ _ _ (frame_ok_matching _ _ _ _ Hok Hmm') Hgm0)
    as Hokm0.
  destruct (trimmed_graph_ok _ m' Hokm0) as (graph_minus' & Hgm & Hokm & _ & Hlenm & _).
  rewrite Hgm.
  pose proof (without_edge_length _ _ _ _ Hgm0) as Hlen2.
  destruct (IH graph_minus' m') as [HstopB HB]; [lia|done|].
  destruct (branches_run m' (perfect_iter fuel graph_plus m)
              (perfect_iter fuel graph_minus' m') HstopA) as [-> ->].
  split; [done|].
  intros n Htg Hdom.
  destruct (decide (n !! c0 = Some c1)) as [Hn0|Hn0].
  - apply elem_of_cons. right. apply elem_of_app. left. apply HA; [|done].
    apply (target_trimmed (graph_without_nodes_of_edge graph (c0, c1)) m n graph_plus);
      [by apply frame_ok_without_nodes| |done..].
    apply target_plus; try done. apply Hpre.
  - destruct (decide (n = m')) as [->|Hne]; [by left|].
    apply elem_of_cons. right. apply elem_of_app. right. apply HB; [|congruence].
    apply (target_trimmed graph_minus m' n graph_minus'); [done| |congruence|done].
    apply (target_minus graph m' n c0 c1 graph_minus); [|done..| |done].
    + apply (target_shift _ m); try done.
      * apply Hm'.
      * intros t b Htb Hne' _. by apply Hdrop.
    + eapply matching_value; [apply Hpre|done].
Qed.

(** ** Completeness of the maximum enumerator *)

Lemma has_edge_neighbors graph u v : has_edge graph u v → u ∈ neighbors graph v.
Proof.
  unfold neighbors. intros [Hin|Hin]; apply list_elem_of_omap.
  - exists (u, v). split; [done|]. simpl. repeat case_decide; congruence.
  - exists (v, u). split; [done|]. simpl. by rewrite decide_True.
Qed.

Lemma feasible_scan_complete graph m ns t1 b t :
  (t1, LEFT) ∈ ns → m !! t1 = Some b → b ∈ (nodes graph).*1 →
  t ∈ neighbors graph b → m !! t = None →
  is_Some (feasible_scan graph m ns).
Proof.
  intros Hin Hm Hb Hnb Ht. induction ns as [|[x s] ns IH]; [by apply elem_of_nil in Hin|].
  simpl. apply elem_of_cons in Hin as [Heq|Hin].
  - simplify_eq. rewrite Hm. rewrite decide_True by done.
    destruct (list_find _ _) as [[i l2]|] eqn:Hlf; [done|].
    apply list_find_None in Hlf. rewrite Forall_forall in Hlf.
    by destruct (Hlf t).
  - specialize (IH Hin). destruct s, (m !! x); try done.
    case_decide; [|done]. by destruct (list_find _ _) as [[? ?]|].
Qed.

Lemma map_img_size (m : dict) :
  (∀ t t' b, m !! t = Some b → m !! t' = Some b → t = t') →
  size (map_img m : gset node) = size m.
Proof.
  induction m as [|t b m Hnone _ IH] using map_first_key_ind; intros Hinj.
  - by rewrite map_img_empty_L, size_empty, map_size_empty.
  - rewrite map_img_insert_notin_L by done.
    rewrite map_size_insert_None by done.
    rewrite size_union, size_singleton.
    + f_equal. apply IH. intros x x' y Hx Hx'.
      apply (Hinj x x' y); rewrite lookup_insert_ne; try done; congruence.
    + apply disjoint_singleton_l. intros [x Hx]%elem_of_map_img.
      assert (t = x) as <-; [|congruence].
      apply (Hinj t x b); [by rewrite lookup_insert_eq|].
      rewrite lookup_insert_ne; [done|congruence].
Qed.

Lemma target_size graph m n :
  frame_ok graph0 graph m → target graph0 graph m n → size n = size m.
Proof.
  intros Hok Htg.
  rewrite <- (map_img_size n), <- (map_img_size m).
  - f_equal. apply set_eq. intros b. rewrite !elem_of_map_img.
    symmetry. apply Htg.
  - apply (matching_inj graph0), Hok.
  - apply (matching_inj graph0), Htg.
Qed.

Lemma target_new_top graph m n :
  frame_ok graph0 graph m → target graph0 graph m n → dom n ≠ dom m →
  ∃ t, is_Some (n !! t) ∧ m !! t = None.
Proof.
  intros Hok Htg Hdom.
  destruct (set_choose_or_empty (dom n ∖ dom m)) as [[t Ht]|Hemp].
  - exists t. apply elem_of_difference in Ht as [Hn Hm].
    split; [by apply elem_of_dom|by apply not_elem_of_dom].
  - destruct Hdom. apply set_eq. apply set_equiv. apply set_subseteq_size_equiv.
    + intros t Ht. destruct (decide (t ∈ dom m)); [done|]. set_solver.
    + rewrite !size_dom. by rewrite (target_size _ _ _ Hok Htg).
Qed.

Lemma target_feasible graph m n :
  frame_ok graph0 graph m → target graph0 graph m n → dom n ≠ dom m →
  is_Some (_find_feaseable_two_edge_path graph m).
Proof.
  intros Hok Htg Hdom.
  pose proof (pre_bipartite _ _ _ (ok_pre _ _ _ Hok)) as Hb.
  destruct (target_new_top _ _ _ Hok Htg Hdom) as (t & [b Hn] & Hm).
  destruct (proj2 (tg_bottoms _ _ _ _ Htg b)) as [t1 Ht1]; [by exists t|].
  assert (t1 ≠ t) as Hne by congruence.
  assert (n !! t1 ≠ Some b) as Hn1.
  { intros Hn1. apply Hne. by apply (matching_inj graph0 n (tg_matching _ _ _ _ Htg) _ _ b). }
  assert (has_edge graph t b) as He.
  { apply (tg_diff _ _ _ _ Htg). left. split; [done|congruence]. }
  assert (has_edge graph t1 b) as He1.
  { apply (tg_diff _ _ _ _ Htg). by right. }
  destruct (has_edge_nodes _ _ _ Hb He1) as [Ht1n Hbn].
  unfold _find_feaseable_two_edge_path.
  apply (feasible_scan_complete graph m _ t1 b t); try done.
  - apply label_Some. apply (frame_label_inv _ Hbip0 _ m); [done..|].
    eapply matching_key; [apply Hok|done].
  - by apply has_edge_neighbors.
Qed.

Lemma target_has_edge graph m n :
  target graph0 graph m n → ∃ u v, has_edge graph u v.
Proof.
  intros Htg. destruct (dict_differ _ _ (tg_differs _ _ _ _ Htg)) as [t Ht].
  destruct (n !! t) as [b|] eqn:Hn.
  - exists t, b. apply (tg_diff _ _ _ _ Htg). left. split; [done|congruence].
  - destruct (m !! t) as [b|] eqn:Hm; [|done].
    exists t, b. apply (tg_diff _ _ _ _ Htg). right. split; [done|congruence].
Qed.

Lemma digraph_cycle graph m d u v :
  digraph_ok graph m d →
  (u, v) ∈ arcs (create_directed_matching_graph graph (top_nodes graph) m) →
  rtc (arc_rel (create_directed_matching_graph graph (top_nodes graph) m)) v u →
  (u, v) ∈ arcs d ∧ rtc (arc_rel d) v u.
Proof.
  intros Hd Harc Hrtc. split; [by apply (dg_cyclic _ _ _ Hd)|].
  eapply rtc_subrel; [|apply rtc_cyclic_steps; [done|by apply rtc_once]].
  intros x y [Hxy Hyx]. by apply (dg_cyclic _ _ _ Hd).
Qed.

(** The matching after a feasible path covers the bottoms it covered
    before. *)
Lemma path_bottoms (m : dict) left1 right_ left2 b :
  m !! left1 = Some right_ → m !! left2 = None →
  (∃ t, <[left2 := right_]> (delete left1 m) !! t = Some b) ↔ (∃ t, m !! t = Some b).
Proof.
  intros H1 H2. assert (left1 ≠ left2) as Hne by congruence. split.
  - intros [t Ht]. destruct (decide (t = left2)) as [->|Hn2].
    + rewrite lookup_insert_eq in Ht. simplify_eq. by exists left1.
    + rewrite lookup_insert_ne in Ht by done.
      apply lookup_delete_Some in Ht as [_ Ht]. by exists t.
  - intros [t Ht]. destruct (decide (t = left1)) as [->|Hn1].
    + exists left2. rewrite lookup_insert_eq. congruence.
    + exists t. rewrite lookup_insert_ne by congruence.
      by rewrite lookup_delete_ne.
Qed.

Lemma maximum_iter_complete fuel : ∀ graph m d,
  length (edges graph) < fuel → frame_ok graph0 graph m → digraph_ok graph m d →
  Gen.stop (maximum_iter fuel graph m d) = Returned ∧
  ∀ n, target graph0 graph m n → n ∈ Gen.emitted (maximum_iter fuel graph m d).
Proof.
  induction fuel as [|fuel IH]; intros graph m d Hfuel Hok Hd; [lia|].
  pose proof (ok_pre _ _ _ Hok) as Hpre.
  pose proof (pre_bipartite _ _ _ Hpre) as Hb.
  pose proof (pre_matching _ _ _ Hpre) as Hm.
  simpl. case_decide as Hnil.
  { split; [done|]. intros n Htg.
    destruct (target_has_edge _ _ _ Htg) as (u & v & [He|He]);
      destruct (edges graph); try done; by apply elem_of_nil in He. }
  destruct (find_cycle_with_edge_of_matching d m) as [raw_cycle|] eqn:Hfc; simpl.
  - assert (raw_cycle ≠ []) as Hne by apply (Hfind _ _ _ Hfc).
    destruct raw_cycle as [|r0 raw]; [done|]. clear Hne.
    destruct (normalized_cycle _ _ _ _ Hb Hd Hfc) as (c0 & rest0 & Hst & Hc0).
    rewrite Hst. unfold assert_starts_left. rewrite Hc0.
    destruct (cycle_step _ Hfind _ _ _ _ _ _ _ Hpre (dg_arcs _ _ _ Hd) (dg_labels _ _ _ Hd)
                Hfc Hst Hc0)
      as (m' & c1 & rest & -> & Hflip & Hm' & Hold & Hnew).
    destruct (cycle_step_cover _ _ _ _ _ _ _ _ Hpre Hd Hfc Hst Hc0 Hflip)
      as (He & Hdom' & Hbot' & Hdrop).
    rewrite Hflip. unfold Gen.assert. rewrite bool_decide_true by apply Hm'.
    cbn [first_edge].
    pose proof (post_matching _ _ _ _ Hm') as Hmm'.
    unfold maximum_plus_call, maximum_minus_call.
    pose proof (without_nodes_length _ _ _ He) as Hlen1.
    apply Nat.lt_le_trans with (p := fuel) in Hlen1; [|lia].
    pose proof (frame_ok_without_nodes _ _ _ (c0, c1) Hok) as Hokp.
    destruct (IH _ m _ Hlen1 Hokp
                (digraph_ok_refl _ m (pre_bipartite _ _ _ (ok_pre _ _ _ Hokp))))
      as [HstopA HA].
    destruct (without_edge_Some _ _ _ He) as [graph_minus Hgm]. rewrite Hgm.
    cbn [mbind option_bind].
    pose proof (frame_ok_without_edge _ _ _ _ _
                  (frame_ok_matching _ _ _ _ Hok Hmm') Hgm) as Hokm.
    pose proof (without_edge_length _ _ _ _ Hgm) as Hlen2.
    apply Nat.lt_le_trans with (p := fuel) in Hlen2; [|lia].
    destruct (IH _ m' _ Hlen2 Hokm
                (digraph_ok_refl _ m' (pre_bipartite _ _ _ (ok_pre _ _ _ Hokm))))
      as [HstopB HB].
    match goal with |- context [Gen.yield m' ;; ?gA ;; ?gB] =>
      destruct (branches_run m' gA gB HstopA) as [-> ->] end.
    split; [done|].
    intros n Htg.
    destruct (decide (n !! c0 = Some c1)) as [Hn0|Hn0].
    + apply elem_of_cons. right. apply elem_of_app. left. apply HA.
      apply target_plus; try done.
    + destruct (decide (n = m')) as [->|Hne]; [by left|].
      apply elem_of_cons. right. apply elem_of_app. right. apply HB.
      apply (target_minus graph m' n c0 c1 graph_minus); [|done..| |done].
      * apply (target_shift _ m); try done.
        -- apply Hm'.
        -- intros t b Htb Hne' _. by apply Hdrop.
      * eapply matching_value; [apply Hpre|done].
  - destruct (_find_feaseable_two_edge_path graph m) as [[[left1 right_] left2]|] eqn:Hpath.
    2:{ split; [done|]. intros n Htg.
        destruct (decide (dom n = dom m)) as [Hdom|Hdom].
        - destruct (target_cyclic_arc _ Hbip0 _ _ _ Hok Htg Hdom) as (u & v & Harc & Hrtc).
          destruct (digraph_cycle _ _ _ _ _ Hd Harc Hrtc) as [Harc' Hrtc'].
          by destruct (Hfindc _ _ Hfc _ _ Harc').
        - destruct (target_feasible _ _ _ Hok Htg Hdom) as [? Hsome]. congruence. }
    destruct (path_step _ Hbip0 _ _ _ _ _ Hpre Hpath) as (H1 & H2 & Hm').
    apply feasible_scan_Some in Hpath as (_ & _ & _ & He%neighbors_has_edge & _).
    rewrite H1. unfold Gen.assert. rewrite bool_decide_true by apply Hm'.
    set (m' := <[left2 := right_]> (delete left1 m)) in *.
    pose proof (post_matching _ _ _ _ Hm') as Hmm'.
    unfold maximum_plus_call, maximum_minus_call.
    pose proof (without_nodes_length _ _ _ He) as Hlen1.
    apply Nat.lt_le_trans with (p := fuel) in Hlen1; [|lia].
    pose proof (frame_ok_without_nodes _ _ _ (left2, right_)
                  (frame_ok_matching _ _ _ _ Hok Hmm')) as Hokp.
    destruct (IH _ m' _ Hlen1 Hokp
                (digraph_ok_refl _ m' (pre_bipartite _ _ _ (ok_pre _ _ _ Hokp))))
      as [HstopA HA].
    destruct (without_edge_Some _ _ _ He) as [graph_minus Hgm]. rewrite Hgm.
    cbn [mbind option_bind].
    pose proof (frame_ok_without_edge _ _ _ _ _ Hok Hgm) as Hokm.
    pose proof (without_edge_length _ _ _ _ Hgm) as Hlen2.
    apply Nat.lt_le_trans with (p := fuel) in Hlen2; [|lia].
    destruct (IH _ m _ Hlen2 Hokm
                (digraph_ok_refl _ m (pre_bipartite _ _ _ (ok_pre _ _ _ Hokm))))
      as [HstopB HB].
    match goal with |- context [Gen.yield m' ;; ?gA ;; ?gB] =>
      destruct (branches_run m' gA gB HstopA) as [-> ->] end.
    split; [done|].
    intros n Htg.
    assert (left1 ≠ left2) as Hne12 by congruence.
    destruct (decide (n !! left2 = Some right_)) as [Hn2|Hn2].
    + destruct (decide (n = m')) as [->|Hne]; [by left|].
      apply elem_of_cons. right. apply elem_of_app. left. apply HA.
      apply target_plus; try done; [|by apply lookup_insert_eq].
      apply (target_shift _ m); try done.
      * intros b. by apply path_bottoms.
      * apply Hm'.
      * intros t b Htb Hne' Hn. destruct (decide (t = left1)) as [->|Hn1].
        -- simplify_eq. destruct Hne12.
           by apply (matching_inj graph0 n (tg_matching _ _ _ _ Htg) _ _ right_).
        -- destruct Hne'. unfold m'. rewrite lookup_insert_ne by congruence.
           by rewrite lookup_delete_ne.
    + apply elem_of_cons. right. apply elem_of_app. right. apply HB.
      apply (target_minus graph m n left2 right_ graph_minus); try done; [congruence|].
      by apply (matching_value graph0 m Hm left1).
Qed.

(** ** Completeness of the two entry points *)

Local Abbreviation enum_perfect :=
  (enum_perfect_matchings maximum_matching strongly_connected_components_decomposition
     find_cycle_with_edge_of_matching).
Local Abbreviation enum_maximum :=
  (enum_maximum_matchings maximum_matching strongly_connected_components_decomposition
     find_cycle_with_edge_of_matching).
Local Abbreviation the_seed := (seed maximum_matching).

Lemma stop_yield_seq {A} (x : A) (g : Gen.t A) :
  Gen.stop (Gen.yield x ;; g) = Gen.stop g.
Proof. done. Qed.

Lemma bottom_nodes_NoDup graph : bipartite graph → NoDup (bottom_nodes graph).
Proof.
  intros Hb. unfold bottom_nodes.
  eapply sublist_fst_NoDup; [apply sublist_filter|apply Hb].
Qed.

Lemma bottom_nodes_label graph v :
  NoDup (nodes graph).*1 →
  v ∈ bottom_nodes graph ↔ label (nodes graph) v = Some RIGHT.
Proof.
  intros Hnd. rewrite elem_of_bottom_nodes. split.
  - by apply label_NoDup.
  - apply label_Some.
Qed.

Lemma matching_img_bottoms graph m :
  bipartite graph → is_matching graph m →
  (map_img m : gset node) ⊆ list_to_set (bottom_nodes graph).
Proof.
  intros Hb Hm b [t Ht]%elem_of_map_img. apply elem_of_list_to_set.
  apply bottom_nodes_label; [apply Hb|]. by eapply matching_value.
Qed.

Lemma matching_size_le_bottoms graph m :
  bipartite graph → is_matching graph m → size m ≤ length (bottom_nodes graph).
Proof.
  intros Hb Hm. rewrite <- (map_img_size m) by apply (matching_inj _ _ Hm).
  rewrite <- (size_list_to_set (C := gset node)) by by apply bottom_nodes_NoDup.
  by apply subseteq_size, matching_img_bottoms.
Qed.

Lemma matching_covers_bottoms graph m b :
  bipartite graph → is_matching graph m → size m = length (bottom_nodes graph) →
  (∃ t, m !! t = Some b) ↔ b ∈ bottom_nodes graph.
Proof.
  intros Hb Hm Hsz.
  assert ((map_img m : gset node) = list_to_set (bottom_nodes graph)) as Heq.
  { apply set_subseteq_size_eq; [by apply matching_img_bottoms|].
    rewrite map_img_size by apply (matching_inj _ _ Hm).
    rewrite size_list_to_set by by apply bottom_nodes_NoDup. lia. }
  rewrite <- (elem_of_map_img (SA := gset node)), Heq. apply elem_of_list_to_set.
Qed.

Lemma frame_ok_start m :
  simple_edges (edges graph0) → is_matching graph0 m → frame_ok graph0 graph0 m.
Proof. intros Hs Hm. split; [by split|done|done]. Qed.

Lemma digraph_ok_trimmed graph m :
  bipartite graph →
  digraph_ok graph m
    (strongly_connected_components_decomposition
       (create_directed_matching_graph graph (top_nodes graph) m)).
Proof.
  intros Hb. split.
  - intros a Ha. eapply sublist_subseteq; [apply (trim_arcs _ Htrim)|done].
  - intros v s Hl.
    eapply (sublist_label _ (nodes graph)); [|apply Hb|done].
    apply (trim_nodes _ Htrim (create_directed_matching_graph graph _ _)).
  - apply (trim_closed _ Htrim). by apply matching_graph_closed.
  - intros u v Harc Hrtc. by apply Htrimc.
Qed.

Lemma enum_maximum_complete :
  simple_edges (edges graph0) →
  nx_matching graph0 (maximum_matching graph0 (top_nodes graph0)) →
  Gen.stop (enum_maximum graph0) = Returned ∧
  (the_seed graph0 ≠ ∅ →
   ∀ n, is_matching graph0 n →
        (∀ b, (∃ t, the_seed graph0 !! t = Some b) ↔ (∃ t, n !! t = Some b)) →
        n ∈ Gen.emitted (enum_maximum graph0)).
Proof.
  intros Hs Hnx. unfold enum_maximum_matchings.
  pose proof (seed_is_matching _ _ Hbip0 Hnx) as Hm.
  fold (the_seed graph0) in *.
  change (top_to_bottom graph0 (maximum_matching graph0 (top_nodes graph0)))
    with (the_seed graph0) in *.
  case_decide as Hne; [|by split].
  destruct (maximum_iter_complete (budget graph0) graph0 (the_seed graph0) _
              (Nat.lt_succ_diag_r _) (frame_ok_start _ Hs Hm)
              (digraph_ok_trimmed graph0 (the_seed graph0) Hbip0)) as [Hstop Hall].
  split; [by rewrite stop_yield_seq|].
  intros _ n Hn Hbot. rewrite emitted_yield_seq.
  destruct (decide (n = the_seed graph0)) as [->|Hneq]; [by left|].
  right. apply Hall. split; [done..|].
  intros t b [[Hnt _]|[Hmt _]];
    [by apply (matching_edge _ _ Hn)|by apply (matching_edge _ _ Hm)].
Qed.

Lemma enum_perfect_complete :
  simple_edges (edges graph0) →
  nx_matching graph0 (maximum_matching graph0 (top_nodes graph0)) →
  Gen.stop (enum_perfect graph0) = Returned ∧
  (length (top_nodes graph0) = length (bottom_nodes graph0) →
   the_seed graph0 ≠ ∅ → size (the_seed graph0) = length (top_nodes graph0) →
   ∀ n, is_matching graph0 n → size n = length (top_nodes graph0) →
        n ∈ Gen.emitted (enum_perfect graph0)).
Proof.
  intros Hs Hnx. unfold enum_perfect_matchings.
  pose proof (seed_is_matching _ _ Hbip0 Hnx) as Hm.
  change (top_to_bottom graph0 (maximum_matching graph0 (top_nodes graph0)))
    with (the_seed graph0) in *.
  case_decide as Hsides; [split; [done|intros; lia]|].
  case_decide as Hguard; [|split; [done|intros ? ? ?; destruct Hguard; by split]].
  pose proof (frame_ok_start _ Hs Hm) as Hok.
  destruct (trimmed_graph_ok _ _ Hok) as (graph & Htr & Hok' & _ & _ & _).
  rewrite Htr.
  destruct (perfect_iter_complete (budget graph) graph (the_seed graph0)
              (Nat.lt_succ_diag_r _) Hok') as [Hstop Hall].
  split; [by rewrite stop_yield_seq|].
  intros Heq Hne Hsz n Hn Hszn. rewrite emitted_yield_seq.
  destruct (decide (n = the_seed graph0)) as [->|Hneq]; [by left|].
  assert (dom n = dom (the_seed graph0)) as Hdom.
  { apply set_eq. intros t. rewrite !elem_of_dom. split; intros [b Hb].
    - apply (matching_covers_tops graph0); [done..|].
      apply top_nodes_label; [apply Hbip0|]. by apply (matching_key _ _ Hn _ b).
    - apply (matching_covers_tops graph0); [done..|].
      apply top_nodes_label; [apply Hbip0|]. by apply (matching_key _ _ Hm _ b). }
  right. apply Hall; [|done].
  apply (target_trimmed graph0 (the_seed graph0) n graph); [done| |done|done].
  split; [done..| |].
  - intros b. rewrite !matching_covers_bottoms; [done|done|done|lia|done|done|lia].
  - intros t b [[Hnt _]|[Hmt _]];
    [by apply (matching_edge _ _ Hn)|by apply (matching_edge _ _ Hm)].
Qed.

End Completeness.

End Orbits.

(** * Further properties of the code *)

Section CodeProperties.

Context {node : Type} `{Countable node}.

Local Abbreviation dict := (gmap node node).

Implicit Types (graph : Graph node) (d : DiGraph node) (m : dict).
Implicit Types (ns : list (node * side)) (u v t b : node).

(** ** [_start_cycle_with_left] *)

Lemma rotate_right_perm (l : list node) : rotate_right l ≡ₚ l.
Proof.
  unfold rotate_right. rewrite Permutation_app_comm. by rewrite take_drop.
Qed.

Lemma rotate_right_head (l : list node) : l ≠ [] → head (rotate_right l) = last l.
Proof.
  intros Hne. destruct (exists_last Hne) as (front & x & ->).
  rewrite rotate_right_snoc, last_snoc. done.
Qed.

(** X1. [_start_cycle_with_left] raises [IndexError] exactly on the empty
    list and [KeyError] exactly when the first vertex of the list is no
    vertex of the graph.  Otherwise it returns a rearrangement of the list:
    the list itself when its first vertex is LEFT, a list that starts with
    its last vertex when its first vertex is RIGHT. *)
Theorem start_cycle_with_left_outcome graph (raw_cycle : list node) :
  (_start_cycle_with_left graph raw_cycle = inl IndexError ↔ raw_cycle = []) ∧
  (_start_cycle_with_left graph raw_cycle = inl KeyError ↔
   ∃ v, head raw_cycle = Some v ∧ v ∉ (nodes graph).*1) ∧
  (∀ c, _start_cycle_with_left graph raw_cycle = inr c →
     c ≡ₚ raw_cycle ∧
     ∃ v, head raw_cycle = Some v ∧
          (label (nodes graph) v = Some LEFT → c = raw_cycle) ∧
          (label (nodes graph) v = Some RIGHT → head c = last raw_cycle)).
Proof.
  unfold _start_cycle_with_left. destruct raw_cycle as [|v raw].
  { split; [by split|]. split; [|done]. split; [done|]. by intros (v & ? & _). }
  simpl.
  assert (∀ s, label (nodes graph) v = Some s →
            ¬ ∃ v', Some v = Some v' ∧ v' ∉ (nodes graph).*1) as Hin.
  { intros s Hs (v' & [= <-] & Hnot). destruct Hnot. apply label_is_Some. eauto. }
  destruct (label (nodes graph) v) as [[]|] eqn:Hv.
  - split; [by split|]. split; [split; [done|by intros ?%(Hin LEFT)]|].
    intros c [= <-]. split; [done|]. exists v.
    split; [done|]. split; [done|]. intros ?. congruence.
  - split; [by split|]. split; [split; [done|by intros ?%(Hin RIGHT)]|].
    intros c [= <-]. split; [apply rotate_right_perm|]. exists v.
    split; [done|]. split; [intros ?; congruence|]. intros _. by apply rotate_right_head.
  - split; [by split|]. split; [|done]. split; [|done]. intros _. exists v.
    split; [done|]. intros Hin'%label_is_Some. rewrite Hv in Hin'. by destruct Hin'.
Qed.

(** X2. On a directed cycle of (a part of) the digraph of a bipartite graph
    and a matching, the normalization succeeds, the cycle it returns starts
    at a LEFT vertex and is the same directed cycle, with the pattern the
    flip expects. *)
Theorem start_cycle_with_left_normalizes graph m d (raw_cycle : list node) :
  bipartite graph →
  arcs d ⊆ arcs (create_directed_matching_graph graph (top_nodes graph) m) →
  directed_cycle d raw_cycle →
  ∃ c0 rest,
    _start_cycle_with_left graph raw_cycle = inr (c0 :: rest) ∧
    label (nodes graph) c0 = Some LEFT ∧
    c0 :: rest ≡ₚ raw_cycle ∧
    directed_cycle d (c0 :: rest) ∧
    alternating_cycle graph m (c0 :: rest).
Proof.
  intros Hb Hsub Hdc. pose proof Hdc as [Hne Hnd Harcs].
  assert (∀ u v, (u, v) ∈ arcs d →
    ∃ su sv, label (nodes graph) u = Some su ∧
             label (nodes graph) v = Some sv ∧ su ≠ sv) as Hlab.
  { intros u v Huv. apply Hsub, arc_of_matching_graph in Huv; [|done].
    destruct Huv as [(? & ? & _)|(? & ? & _)]; eexists _, _; split_and!; done. }
  assert (∃ c, _start_cycle_with_left graph raw_cycle = inr c ∧
               ∃ c0, head c = Some c0 ∧ label (nodes graph) c0 = Some LEFT)
    as (c & Hst & c0 & Hhead & Hc0).
  { destruct raw_cycle as [|v0 raw]; [done|].
    assert (0 < length (v0 :: raw)) as Hpos by (simpl; lia).
    destruct (lookup_lt_is_Some_2 (v0 :: raw) (1 mod length (v0 :: raw))) as [v1 Hv1];
      [by apply Nat.mod_upper_bound; simpl|].
    pose proof (Harcs 0 v0 v1 eq_refl Hv1) as Harc0.
    destruct (Hlab _ _ Harc0) as (s0 & s1 & Hg0 & _).
    unfold _start_cycle_with_left. rewrite Hg0. destruct s0.
    - exists (v0 :: raw). split; [done|]. by exists v0.
    - exists (rotate_right (v0 :: raw)). split; [done|].
      destruct (exists_last Hne) as (front & x & Heq). rewrite Heq, rotate_right_snoc.
      exists x. split; [done|].
      assert ((v0 :: raw) !! (length (v0 :: raw) - 1) = Some x) as Hx.
      { rewrite Heq, length_app. simpl.
        replace (length front + 1 - 1) with (length front) by lia.
        by rewrite lookup_app_r, Nat.sub_diag. }
      assert ((v0 :: raw) !! (S (length (v0 :: raw) - 1) mod length (v0 :: raw)) = Some v0)
        as Hx'.
      { replace (S (length (v0 :: raw) - 1)) with (length (v0 :: raw)) by lia.
        by rewrite Nat.Div0.mod_same. }
      destruct (Hlab _ _ (Harcs _ _ _ Hx Hx')) as (sx & sv & Hgx & Hgv & Hne').
      destruct sx; [done|]. congruence. }
  destruct c as [|c0' rest]; [done|]. simpl in Hhead. simplify_eq.
  pose proof (start_cycle_with_left_cycle _ _ _ _ Hdc Hst) as Hdc'.
  exists c0, rest. split_and!; [done|done| |done|].
  - unfold _start_cycle_with_left in Hst. destruct raw_cycle as [|v0 raw]; [done|].
    destruct (label (nodes graph) v0) as [[]|]; simplify_eq; [done|].
    rewrite <- Hst. apply rotate_right_perm.
  - by eapply directed_cycle_alternating.
Qed.

(** ** [_find_feaseable_two_edge_path] *)

Lemma feasible_scan_left graph m ns left1 right_ left2 :
  feasible_scan graph m ns = Some (left1, right_, left2) → (left1, LEFT) ∈ ns.
Proof.
  induction ns as [|[x s] ns IH]; simpl; [done|].
  assert (feasible_scan graph m ns = Some (left1, right_, left2) →
          (left1, LEFT) ∈ (x, s) :: ns) as Hrec by (intros ?; right; auto).
  destruct s; [|done]. destruct (m !! x); [|done]. case_decide; [|done].
  destruct (list_find _ _) as [[? ?]|]; [|done]. intros [= -> -> ->]. left.
Qed.

(** X3. What [_find_feaseable_two_edge_path] returns is a path
    [left1 -> right -> left2] of the graph: [left1] is a LEFT vertex of the
    graph and a key of the matching, [right] is its partner and a vertex of
    the graph, [left2] is a neighbour of [right] that is no key of the
    matching.  In a bipartite graph with a matching of it, [right] is a RIGHT
    vertex and [left2] a LEFT vertex. *)
Theorem feasible_path_sound graph m left1 right_ left2 :
  _find_feaseable_two_edge_path graph m = Some (left1, right_, left2) →
  (left1, LEFT) ∈ nodes graph ∧ m !! left1 = Some right_ ∧
  right_ ∈ (nodes graph).*1 ∧ has_edge graph left2 right_ ∧
  m !! left2 = None ∧ left1 ≠ left2 ∧
  (bipartite graph → is_matching graph m →
   label (nodes graph) right_ = Some RIGHT ∧ label (nodes graph) left2 = Some LEFT).
Proof.
  intros Hpath. pose proof (feasible_scan_left _ _ _ _ _ _ Hpath) as Hleft.
  apply feasible_scan_Some in Hpath as (_ & Hm1 & Hr & Hnb%neighbors_has_edge & Hm2).
  split_and!; try done; [congruence|].
  intros Hb Hm. pose proof (matching_value _ _ Hm _ _ Hm1) as Hright.
  split; [done|].
  destruct (has_edge_opposite _ _ _ Hb Hnb) as [[? ?]|[? ?]]; congruence.
Qed.

(** X4. [_find_feaseable_two_edge_path] answers [None] exactly when the
    graph has no such path. *)
Theorem feasible_path_none_iff graph m :
  _find_feaseable_two_edge_path graph m = None ↔
  ∀ left1 right_ left2,
    (left1, LEFT) ∈ nodes graph → m !! left1 = Some right_ →
    right_ ∈ (nodes graph).*1 → has_edge graph left2 right_ →
    is_Some (m !! left2).
Proof.
  split.
  - intros Hnone left1 right_ left2 Hl Hm1 Hr He.
    destruct (m !! left2) as [b|] eqn:Hm2; [by eexists|].
    destruct (feasible_scan_complete graph m (nodes graph) left1 right_ left2)
      as [p Hp]; try done; [by apply has_edge_neighbors|].
    unfold _find_feaseable_two_edge_path in Hnone. congruence.
  - intros Hall.
    destruct (_find_feaseable_two_edge_path graph m) as [[[left1 right_] left2]|] eqn:Hp;
      [|done].
    pose proof (feasible_scan_left _ _ _ _ _ _ Hp) as Hleft.
    apply feasible_scan_Some in Hp as (_ & Hm1 & Hr & Hnb%neighbors_has_edge & Hm2).
    destruct (Hall _ _ _ Hleft Hm1 Hr Hnb) as [b Hb]. congruence.
Qed.

(** ** The rewiring of a feasible path *)

(** X5. Exchanging the path [left1 -> right -> left2] in a matching of a
    bipartite graph gives a matching of the graph with as many pairs, other
    than the one before; [left2] takes the place of [left1] among the keys
    and the same bottoms are covered. *)
Theorem path_rewiring graph m left1 right_ left2 :
  bipartite graph → is_matching graph m →
  _find_feaseable_two_edge_path graph m = Some (left1, right_, left2) →
  is_Some (m !! left1) ∧
  is_matching graph (<[left2 := right_]> (delete left1 m)) ∧
  size (<[left2 := right_]> (delete left1 m)) = size m ∧
  <[left2 := right_]> (delete left1 m) ≠ m ∧
  dom (<[left2 := right_]> (delete left1 m)) = {[left2]} ∪ dom m ∖ {[left1]} ∧
  (∀ b, (∃ t, <[left2 := right_]> (delete left1 m) !! t = Some b) ↔
        (∃ t, m !! t = Some b)).
Proof.
  intros Hb Hm Hpath.
  assert (frame_pre graph graph m) as Hpre by by split.
  destruct (path_step graph Hb _ _ _ _ _ Hpre Hpath) as (H1 & H2 & Hpost).
  split_and!; [by eexists|apply Hpost..| |].
  - by rewrite dom_insert_L, dom_delete_L.
  - intros b. by apply path_bottoms.
Qed.

(** ** The flipping loop *)

Lemma range2_lt n i : i ∈ range2 n → i < n.
Proof.
  unfold range2. intros (j & -> & Hj%elem_of_seq)%list_elem_of_fmap.
  pose proof (Nat.div2_odd (S n)) as Hd.
  destruct (Nat.odd (S n)); unfold Nat.b2n in Hd; lia.
Qed.

Lemma py_index_before (c : list node) i :
  i < length c → ∃ v, py_index c (Z.of_nat i - 1) = Some v ∧ v ∈ c.
Proof.
  intros Hi. destruct i as [|i].
  - replace (Z.of_nat 0 - 1)%Z with (-1)%Z by lia. rewrite py_index_minus_one.
    destruct c as [|x c]; [simpl in Hi; lia|].
    destruct (last (x :: c)) as [v|] eqn:Hl.
    + exists v. split; [done|]. rewrite last_lookup in Hl.
      by apply list_elem_of_lookup_2 in Hl.
    + by apply last_None in Hl.
  - replace (Z.of_nat (S i) - 1)%Z with (Z.of_nat i) by lia. rewrite py_index_nonneg.
    destruct (lookup_lt_is_Some_2 c i) as [v Hv]; [lia|].
    exists v. split; [done|]. by apply list_elem_of_lookup_2 in Hv.
Qed.

Lemma flip_fold (c : list node) : ∀ (l : list nat) (acc : dict),
  (∀ i, i ∈ l → i < length c) →
  ∃ m', foldl (flip_step c) (Some acc) l = Some m' ∧
        dom acc ⊆ dom m' ∧
        (∀ t, t ∉ c → m' !! t = acc !! t) ∧
        (∀ t b, m' !! t = Some b → acc !! t = Some b ∨ (t ∈ c ∧ b ∈ c)) ∧
        (l = [] → m' = acc).
Proof.
  induction l as [|i l IH]; intros acc Hl.
  - exists acc. split_and!; try done. intros t b ?. by left.
  - assert (i < length c) as Hi by (apply Hl; left).
    destruct (lookup_lt_is_Some_2 c i Hi) as [k Hk].
    destruct (py_index_before c i Hi) as (v & Hv & Hvc).
    assert (k ∈ c) as Hkc by by apply list_elem_of_lookup_2 in Hk.
    destruct (IH (<[k := v]> acc)) as (m' & Hfold & Hdom & Hout & Horig & _).
    { intros j Hj. apply Hl. by right. }
    exists m'. split_and!; [| | | |done].
    + rewrite <- Hfold. cbn [foldl]. f_equal. unfold flip_step. cbn [mbind option_bind].
      rewrite Hk. cbn [mbind option_bind]. by rewrite Hv.
    + etrans; [|done]. rewrite dom_insert. set_solver.
    + intros t Ht. rewrite Hout by done. apply lookup_insert_ne. by intros ->.
    + intros t b [Hl'|?]%Horig; [|by right].
      apply lookup_insert_Some in Hl' as [[-> ->]|[_ ?]]; [by right|by left].
Qed.

(** X6. The flipping loop never fails.  It only adds or overwrites keys
    that lie on the cycle, with values that lie on the cycle, and on the
    empty cycle it returns the matching unchanged. *)
Theorem flip_cycle_total m (c : list node) :
  ∃ m', flip_cycle m c = Some m' ∧
        dom m ⊆ dom m' ∧
        (∀ t, t ∉ c → m' !! t = m !! t) ∧
        (∀ t b, m' !! t = Some b → m !! t = Some b ∨ (t ∈ c ∧ b ∈ c)) ∧
        (c = [] → m' = m).
Proof.
  destruct (flip_fold c (range2 (length c)) m) as (m' & Hfold & Hdom & Hout & Horig & Hnil).
  { intros i. apply range2_lt. }
  exists m'. split_and!; try done. intros ->. by apply Hnil.
Qed.

(** X7. Flipping along an alternating cycle keeps the keys of the matching
    and the set of bottoms it covers. *)
Theorem flip_keeps_cover graph m (c : list node) m' :
  alternating_cycle graph m c → flip_cycle m c = Some m' →
  dom m' = dom m ∧ (∀ b, (∃ t, m' !! t = Some b) ↔ (∃ t, m !! t = Some b)).
Proof.
  intros Hac Hflip.
  destruct (alternating_cycle_pairs _ _ _ Hac) as (p & ps & -> & Halt).
  rewrite flip_cycle_interleave in Hflip. simplify_eq. split.
  - by eapply flip_dom.
  - intros b. by eapply flip_bottoms.
Qed.

End CodeProperties.

(** ** The enumerators *)

Section EnumeratorProperties.

Context {node : Type} `{Countable node}.

Local Abbreviation dict := (gmap node node).

Implicit Types (graph : Graph node) (d : DiGraph node) (m n : dict).
Implicit Types (u v t b : node).

Variable maximum_matching : Graph node → list node → dict.
Variable strongly_connected_components_decomposition : DiGraph node → DiGraph node.
Variable find_cycle_with_edge_of_matching : DiGraph node → dict → option (list node).

Local Abbreviation enum_perfect :=
  (enum_perfect_matchings maximum_matching strongly_connected_components_decomposition
     find_cycle_with_edge_of_matching).
Local Abbreviation enum_maximum :=
  (enum_maximum_matchings maximum_matching strongly_connected_components_decomposition
     find_cycle_with_edge_of_matching).
Local Abbreviation perfect_iter :=
  (_enum_perfect_matchings_iter strongly_connected_components_decomposition
     find_cycle_with_edge_of_matching).
Local Abbreviation maximum_iter :=
  (_enum_maximum_matchings_iter find_cycle_with_edge_of_matching).
Local Abbreviation trimmed :=
  (trimmed_graph strongly_connected_components_decomposition).
Local Abbreviation the_seed := (seed maximum_matching).

Hypothesis Htrim : trimmer_contract strongly_connected_components_decomposition.
Hypothesis Hfind : finder_contract find_cycle_with_edge_of_matching.

Lemma same_bottoms_refl m : same_bottoms m m.
Proof. by intros b. Qed.

Lemma same_bottoms_trans m n k : same_bottoms m n → same_bottoms n k → same_bottoms m k.
Proof. intros Hmn Hnk b. etrans; [apply Hnk|apply Hmn]. Qed.

Lemma alternating_flip_cover graph m (c : list node) m' :
  alternating_cycle graph m c → flip_cycle m c = Some m' →
  dom m' = dom m ∧ same_bottoms m m'.
Proof.
  intros Hac Hflip.
  destruct (alternating_cycle_pairs _ _ _ Hac) as (p & ps & -> & Halt).
  rewrite flip_cycle_interleave in Hflip. simplify_eq. split.
  - by eapply flip_dom.
  - intros b. by eapply flip_bottoms.
Qed.

Lemma Forall_emitted_seq {A} (P : A → Prop) (g1 g2 : Gen.t A) :
  Forall P (Gen.emitted g1) → Forall P (Gen.emitted g2) →
  Forall P (Gen.emitted (g1 ;; g2)).
Proof.
  intros H1 H2. destruct (emitted_seq_prefix g1 g2) as [k Hk].
  assert (Forall P (Gen.emitted g1 ++ Gen.emitted g2)) as Hall by by apply Forall_app.
  rewrite Hk in Hall. by apply Forall_app in Hall as [? _].
Qed.

Section Frames.

Variable graph0 : Graph node.
Hypothesis Hbip0 : bipartite graph0.

(** The flip step of a frame, with what the later frames need of it. *)
Lemma cycle_flip_facts graph m d raw_cycle c0 rest0 :
  frame_pre graph0 graph m →
  arcs d ⊆ arcs (create_directed_matching_graph graph (top_nodes graph) m) →
  (∀ v s, label (dnodes d) v = Some s → label (nodes graph) v = Some s) →
  find_cycle_with_edge_of_matching d m = Some raw_cycle →
  _start_cycle_with_left graph raw_cycle = inr (c0 :: rest0) →
  label (dnodes d) c0 = Some LEFT →
  ∃ m' c1 rest,
    rest0 = c1 :: rest ∧ flip_cycle m (c0 :: rest0) = Some m' ∧
    frame_post graph0 graph m m' ∧ has_edge graph c0 c1 ∧ same_bottoms m m'.
Proof.
  intros Hpre Hsub Hlab Hfc Hst Hc0.
  destruct (cycle_step _ Hfind _ _ _ _ _ _ _ Hpre Hsub Hlab Hfc Hst Hc0)
    as (m' & c1 & rest & -> & Hflip & Hm' & Hold & Hnew).
  exists m', c1, rest. split_and!; try done.
  - destruct (matching_edge _ _ (pre_matching _ _ _ Hpre) _ _ Hold) as [He|He].
    all: assert (directed_cycle d (c0 :: c1 :: rest)) as Hdc
      by (eapply start_cycle_with_left_cycle; [by apply Hfind in Hfc|done]).
    all: assert (1 mod length (c0 :: c1 :: rest) = 1) as Hmod
      by (apply Nat.mod_small; simpl; lia).
    all: pose proof (cycle_arcs _ _ Hdc 0 c0 c1 eq_refl) as Harc.
    all: rewrite Hmod in Harc; specialize (Harc eq_refl).
    all: apply Hsub, arc_of_matching_graph in Harc; [|apply Hpre].
    all: destruct Harc as [(_ & _ & _ & ?)|(_ & _ & _ & ?)]; [done|by apply has_edge_sym].
  - eapply alternating_flip_cover; [|done].
    eapply directed_cycle_alternating; [apply Hpre|done| |done|by apply Hlab].
    eapply start_cycle_with_left_cycle; [by apply Hfind in Hfc|done].
Qed.

(** The two branches of a frame of the maximum enumerator cover the bottoms
    the frame covers. *)
Lemma bottoms_branches fuel graph m m' x y (e : node * node) :
  (∀ graph m d,
     frame_pre graph0 graph m →
     arcs d ⊆ arcs (create_directed_matching_graph graph (top_nodes graph) m) →
     (∀ v s, label (dnodes d) v = Some s → label (nodes graph) v = Some s) →
     Forall (same_bottoms m) (Gen.emitted (maximum_iter fuel graph m d))) →
  frame_pre graph0 graph m → is_matching graph0 m' → same_bottoms m m' →
  (x = m ∧ y = m') ∨ (x = m' ∧ y = m) →
  Forall (same_bottoms m) (Gen.emitted (
    Gen.yield m' ;;
    (let '(graph_plus, m0, d0) := maximum_plus_call graph x e in
     maximum_iter fuel graph_plus m0 d0) ;;
    match maximum_minus_call graph y e with
    | None => Gen.raise NetworkXError
    | Some (graph_minus, m0, d0) => maximum_iter fuel graph_minus m0 d0
    end)).
Proof.
  intros IH Hpre Hm' Hbot Hxy.
  assert (is_matching graph0 x ∧ is_matching graph0 y ∧
          same_bottoms m x ∧ same_bottoms m y) as (Hmx & Hmy & Hbx & Hby).
  { destruct Hxy as [[-> ->]|[-> ->]]; split_and!;
      try done; try apply Hpre; apply same_bottoms_refl. }
  apply Forall_emitted_seq; [constructor; [done|constructor]|].
  apply Forall_emitted_seq.
  - unfold maximum_plus_call.
    eapply Forall_impl; [apply IH; [|done..]|].
    + eapply frame_pre_sub; [done| |apply without_nodes_subgraph|done].
      apply without_nodes_bipartite, Hpre.
    + intros n Hn. by apply (same_bottoms_trans m x).
  - unfold maximum_minus_call.
    destruct (graph_without_edge graph e) as [graph_minus|] eqn:Hwe; [|constructor].
    cbn [mbind option_bind].
    eapply Forall_impl; [apply IH; [|done..]|].
    + eapply frame_pre_sub; [done| |by eapply without_edge_subgraph|done].
      eapply without_edge_bipartite; [apply Hpre|done].
    + intros n Hn. by apply (same_bottoms_trans m y).
Qed.

Lemma maximum_iter_bottoms fuel : ∀ graph m d,
  frame_pre graph0 graph m →
  arcs d ⊆ arcs (create_directed_matching_graph graph (top_nodes graph) m) →
  (∀ v s, label (dnodes d) v = Some s → label (nodes graph) v = Some s) →
  Forall (same_bottoms m) (Gen.emitted (maximum_iter fuel graph m d)).
Proof.
  induction fuel as [|fuel IH]; intros graph m d Hpre Hsub Hlab; [constructor|].
  simpl. case_decide; [constructor|].
  destruct (find_cycle_with_edge_of_matching d m) as [[|v0 raw]|] eqn:Hfc; simpl.
  2:{ destruct (label (nodes graph) v0) as [side0|] eqn:Hv0; [|constructor].
      set (cycle := match side0 with LEFT => v0 :: raw | RIGHT => rotate_right (v0 :: raw) end).
      assert (_start_cycle_with_left graph (v0 :: raw) = inr cycle) as Hst.
      { unfold _start_cycle_with_left. rewrite Hv0. by destruct side0. }
      replace (match side0 with
               | LEFT => inr (v0 :: raw)
               | RIGHT => inr (rotate_right (v0 :: raw))
               end) with (inr (A := exn) cycle) by by destruct side0.
      clearbody cycle. destruct cycle as [|c0 rest0]; [constructor|].
      unfold assert_starts_left.
      destruct (label _ c0) as [[]|] eqn:Hc0; [|constructor..].
      destruct (cycle_flip_facts _ _ _ _ _ _ Hpre Hsub Hlab Hfc Hst Hc0)
        as (m' & c1 & rest & -> & -> & Hm' & _ & Hbot).
      unfold Gen.assert. rewrite bool_decide_true by apply Hm'.
      cbn [first_edge].
      apply (bottoms_branches fuel graph m m' m m'); try done; [apply Hm'|by left]. }
  all: destruct (_find_feaseable_two_edge_path graph m) as [[[left1 right_] left2]|] eqn:Hpath;
    [|constructor].
  all: destruct (path_step _ Hbip0 _ _ _ _ _ Hpre Hpath) as (Hm1 & Hm2 & Hm').
  all: rewrite Hm1; unfold Gen.assert; rewrite bool_decide_true by apply Hm'.
  all: apply (bottoms_branches fuel graph m (<[left2:=right_]> (delete left1 m))
                (<[left2:=right_]> (delete left1 m)) m); try done;
    [apply Hm'|intros b; by apply path_bottoms|by right].
Qed.

Lemma enum_maximum_bottoms :
  nx_matching graph0 (maximum_matching graph0 (top_nodes graph0)) →
  Forall (same_bottoms (the_seed graph0)) (Gen.emitted (enum_maximum graph0)).
Proof.
  intros Hs. unfold enum_maximum_matchings.
  case_decide; [|constructor].
  pose proof (seed_is_matching _ _ Hbip0 Hs) as Hm.
  apply Forall_emitted_seq; [constructor; [apply same_bottoms_refl|constructor]|].
  apply maximum_iter_bottoms.
  - by split.
  - intros a Ha. eapply sublist_subseteq; [apply (trim_arcs _ Htrim)|done].
  - intros v s Hl. simpl.
    eapply (sublist_label _ (nodes graph0)); [|apply Hbip0|done].
    apply (trim_nodes _ Htrim (create_directed_matching_graph graph0 _ _)).
Qed.

(** ** The enumerators return *)

Lemma trimmed_graph_returns graph m :
  frame_ok graph0 graph m →
  ∃ graph', trimmed graph m = Some graph' ∧ frame_ok graph0 graph' m ∧
            length (edges graph') ≤ length (edges graph).
Proof.
  intros [Hpre Hns Hsimple].
  set (D := create_directed_matching_graph graph (top_nodes graph) m).
  set (T := strongly_connected_components_decomposition D).
  assert (simple_edges (arcs T)) as HsT.
  { eapply simple_edges_sublist; [apply (trim_arcs _ Htrim)|].
    by apply matching_graph_simple. }
  assert (trimmed graph m = Some (to_undirected T)) as Htr.
  { unfold trimmed_graph. fold D. fold T. unfold same_size. simpl.
    rewrite undirected_simple by done.
    rewrite !bool_decide_true by done. done. }
  exists (to_undirected T). split; [done|].
  destruct (trimmed_graph_facts _ Htrim _ _ _ (pre_bipartite _ _ _ Hpre) Htr) as [Hb Hsub].
  split.
  - split.
    + eapply frame_pre_sub; [done..|apply Hpre].
    + etrans; [apply (trim_nodes _ Htrim D)|done].
    + simpl. by rewrite undirected_simple.
  - simpl. rewrite undirected_simple by done.
    etrans; [apply sublist_length, (trim_arcs _ Htrim)|].
    unfold D. by rewrite length_matching_graph.
Qed.

Lemma normalized_cycle_part graph m d raw_cycle :
  bipartite graph →
  arcs d ⊆ arcs (create_directed_matching_graph graph (top_nodes graph) m) →
  (∀ v s, label (dnodes d) v = Some s → label (nodes graph) v = Some s) →
  closed d →
  find_cycle_with_edge_of_matching d m = Some raw_cycle →
  ∃ c0 rest0, _start_cycle_with_left graph raw_cycle = inr (c0 :: rest0) ∧
              label (dnodes d) c0 = Some LEFT.
Proof.
  intros Hb Hsub Hlabels Hclosed Hfc. pose proof (Hfind _ _ _ Hfc) as [Hne Hnd Harcs].
  assert (∀ u v, (u, v) ∈ arcs d →
    ∃ su sv, label (dnodes d) u = Some su ∧ label (nodes graph) u = Some su ∧
             label (nodes graph) v = Some sv ∧ su ≠ sv) as Hlab.
  { intros u v Huv. destruct (Hclosed _ _ Huv) as [[su Hu]%label_is_Some _].
    exists su. pose proof (Hlabels _ _ Hu) as Hu'.
    apply Hsub, arc_of_matching_graph in Huv; [|done].
    destruct Huv as [(? & ? & _)|(? & ? & _)]; eexists; split_and!; try done;
      congruence. }
  destruct raw_cycle as [|v0 raw]; [done|].
  assert (0 < length (v0 :: raw)) as Hpos by (simpl; lia).
  destruct (lookup_lt_is_Some_2 (v0 :: raw) (1 mod length (v0 :: raw))) as [v1 Hv1];
    [by apply Nat.mod_upper_bound; simpl|].
  pose proof (Harcs 0 v0 v1 eq_refl Hv1) as Harc0.
  destruct (Hlab _ _ Harc0) as (s0 & s1 & Hd0 & Hg0 & _).
  unfold _start_cycle_with_left. rewrite Hg0. destruct s0.
  - by exists v0, raw.
  - destruct (exists_last Hne) as (front & x & Heq). rewrite Heq, rotate_right_snoc.
    exists x, front. split; [done|].
    assert ((v0 :: raw) !! (length (v0 :: raw) - 1) = Some x) as Hx.
    { rewrite Heq, length_app. simpl.
      replace (length front + 1 - 1) with (length front) by lia.
      by rewrite lookup_app_r, Nat.sub_diag. }
    assert ((v0 :: raw) !! (S (length (v0 :: raw) - 1) mod length (v0 :: raw)) = Some v0)
      as Hx'.
    { replace (S (length (v0 :: raw) - 1)) with (length (v0 :: raw)) by lia.
      by rewrite Nat.Div0.mod_same. }
    destruct (Hlab _ _ (Harcs _ _ _ Hx Hx')) as (sx & sv & Hdx & _ & Hgv & Hne').
    rewrite Hdx. f_equal. destruct sx; [done|]. congruence.
Qed.

Lemma perfect_iter_returns fuel : ∀ graph m,
  length (edges graph) < fuel → frame_ok graph0 graph m →
  Gen.stop (perfect_iter fuel graph m) = Returned.
Proof.
  induction fuel as [|fuel IH]; intros graph m Hfuel Hok; [lia|].
  pose proof (ok_pre _ _ _ Hok) as Hpre.
  pose proof (pre_bipartite _ _ _ Hpre) as Hb.
  simpl. case_decide as Hnil; [done|].
  destruct (find_cycle_with_edge_of_matching _ m) as [raw_cycle|] eqn:Hfc; [|done].
  destruct (normalized_cycle_part _ _ _ _ Hb (reflexivity _) (λ _ _ H, H)
              (matching_graph_closed _ _ _ Hb) Hfc) as (c0 & rest0 & Hst & Hc0).
  rewrite Hst. unfold assert_starts_left. rewrite Hc0.
  destruct (cycle_flip_facts _ _ _ _ _ _ Hpre (reflexivity _) (λ _ _ H, H) Hfc Hst Hc0)
    as (m' & c1 & rest & -> & Hflip & Hm' & He & _).
  rewrite Hflip. unfold Gen.assert. rewrite bool_decide_true by apply Hm'.
  cbn [first_edge].
  pose proof (post_matching _ _ _ _ Hm') as Hmm'.
  unfold perfect_plus_call.
  destruct (trimmed_graph_returns _ m (frame_ok_without_nodes _ _ _ (c0, c1) Hok))
    as (graph_plus & Hgp & Hokp & Hlenp).
  rewrite Hgp. cbn [mbind option_bind].
  pose proof (without_nodes_length _ _ _ He) as Hlen1.
  assert (Gen.stop (perfect_iter fuel graph_plus m) = Returned) as HstopA
    by (apply IH; [lia|done]).
  unfold perfect_minus_call.
  destruct (without_edge_Some _ _ _ He) as [graph_minus Hgm0]. rewrite Hgm0.
  pose proof (frame_ok_without_edge _ _ _ _ _ (frame_ok_matching _ _ _ _ Hok Hmm') Hgm0)
    as Hokm0.
  destruct (trimmed_graph_returns _ m' Hokm0) as (graph_minus' & Hgm & Hokm & Hlenm).
  rewrite Hgm.
  pose proof (without_edge_length _ _ _ _ Hgm0) as Hlen2.
  destruct (branches_run m' (perfect_iter fuel graph_plus m)
              (perfect_iter fuel graph_minus' m') HstopA) as [-> _].
  apply IH; [lia|done].
Qed.

Lemma maximum_iter_returns fuel : ∀ graph m d,
  length (edges graph) < fuel → frame_ok graph0 graph m →
  arcs d ⊆ arcs (create_directed_matching_graph graph (top_nodes graph) m) →
  (∀ v s, label (dnodes d) v = Some s → label (nodes graph) v = Some s) →
  closed d →
  Gen.stop (maximum_iter fuel graph m d) = Returned.
Proof.
  induction fuel as [|fuel IH]; intros graph m d Hfuel Hok Hsub Hlab Hclosed; [lia|].
  pose proof (ok_pre _ _ _ Hok) as Hpre.
  pose proof (pre_bipartite _ _ _ Hpre) as Hb.
  assert (∀ graph' m', length (edges graph') < fuel → frame_ok graph0 graph' m' →
    Gen.stop (maximum_iter fuel graph' m'
      (create_directed_matching_graph graph' (top_nodes graph') m')) = Returned) as IH'.
  { intros graph' m' Hlt Hok'. apply IH; [done|done|done|done|].
    apply matching_graph_closed, Hok'. }
  simpl. case_decide as Hnil; [done|].
  destruct (find_cycle_with_edge_of_matching d m) as [raw_cycle|] eqn:Hfc; simpl.
  - assert (raw_cycle ≠ []) as Hne by apply (Hfind _ _ _ Hfc).
    destruct raw_cycle as [|r0 raw]; [done|]. clear Hne.
    destruct (normalized_cycle_part _ _ _ _ Hb Hsub Hlab Hclosed Hfc)
      as (c0 & rest0 & Hst & Hc0).
    rewrite Hst. unfold assert_starts_left. rewrite Hc0.
    destruct (cycle_flip_facts _ _ _ _ _ _ Hpre Hsub Hlab Hfc Hst Hc0)
      as (m' & c1 & rest & -> & Hflip & Hm' & He & _).
    rewrite Hflip. unfold Gen.assert. rewrite bool_decide_true by apply Hm'.
    cbn [first_edge].
    pose proof (post_matching _ _ _ _ Hm') as Hmm'.
    unfold maximum_plus_call, maximum_minus_call.
    pose proof (without_nodes_length _ _ _ He) as Hlen1.
    apply Nat.lt_le_trans with (p := fuel) in Hlen1; [|lia].
    pose proof (IH' _ m Hlen1 (frame_ok_without_nodes _ _ _ (c0, c1) Hok)) as HstopA.
    destruct (without_edge_Some _ _ _ He) as [graph_minus Hgm]. rewrite Hgm.
    cbn [mbind option_bind].
    pose proof (without_edge_length _ _ _ _ Hgm) as Hlen2.
    apply Nat.lt_le_trans with (p := fuel) in Hlen2; [|lia].
    match goal with |- context [Gen.yield m' ;; ?gA ;; ?gB] =>
      destruct (branches_run m' gA gB HstopA) as [-> _] end.
    apply IH'; [done|].
    by apply (frame_ok_without_edge _ _ _ _ _ (frame_ok_matching _ _ _ _ Hok Hmm') Hgm).
  - destruct (_find_feaseable_two_edge_path graph m) as [[[left1 right_] left2]|] eqn:Hpath;
      [|done].
    destruct (path_step _ Hbip0 _ _ _ _ _ Hpre Hpath) as (H1 & H2 & Hm').
    apply feasible_scan_Some in Hpath as (_ & _ & _ & He%neighbors_has_edge & _).
    rewrite H1. unfold Gen.assert. rewrite bool_decide_true by apply Hm'.
    set (m' := <[left2 := right_]> (delete left1 m)) in *.
    pose proof (post_matching _ _ _ _ Hm') as Hmm'.
    unfold maximum_plus_call, maximum_minus_call.
    pose proof (without_nodes_length _ _ _ He) as Hlen1.
    apply Nat.lt_le_trans with (p := fuel) in Hlen1; [|lia].
    pose proof (IH' _ m' Hlen1 (frame_ok_without_nodes _ _ _ (left2, right_)
                  (frame_ok_matching _ _ _ _ Hok Hmm'))) as HstopA.
    destruct (without_edge_Some _ _ _ He) as [graph_minus Hgm]. rewrite Hgm.
    cbn [mbind option_bind].
    pose proof (without_edge_length _ _ _ _ Hgm) as Hlen2.
    apply Nat.lt_le_trans with (p := fuel) in Hlen2; [|lia].
    match goal with |- context [Gen.yield m' ;; ?gA ;; ?gB] =>
      destruct (branches_run m' gA gB HstopA) as [-> _] end.
    apply IH'; [done|].
    by apply (frame_ok_without_edge _ _ _ _ _ Hok Hgm).
Qed.

(** X8. On a bipartite graph without repeated edges [enum_perfect_matchings]
    returns: no assertion fails, no index or key is missing, no absent edge
    is removed, and the recursion ends. *)
Theorem enum_perfect_returns :
  simple_edges (edges graph0) →
  nx_matching graph0 (maximum_matching graph0 (top_nodes graph0)) →
  Gen.stop (enum_perfect graph0) = Returned.
Proof.
  intros Hs Hnx. unfold enum_perfect_matchings.
  pose proof (seed_is_matching _ _ Hbip0 Hnx) as Hm.
  case_decide; [done|]. case_decide; [|done].
  destruct (trimmed_graph_returns graph0 _ (frame_ok_start _ Hbip0 _ Hs Hm))
    as (graph & Htr & Hok & _).
  rewrite Htr, stop_yield_seq. apply perfect_iter_returns; [apply Nat.lt_succ_diag_r|done].
Qed.

(** X9. On a bipartite graph without repeated edges [enum_maximum_matchings]
    returns: no assertion fails, no index or key is missing, no absent edge
    is removed, and the recursion ends. *)
Theorem enum_maximum_returns :
  simple_edges (edges graph0) →
  nx_matching graph0 (maximum_matching graph0 (top_nodes graph0)) →
  Gen.stop (enum_maximum graph0) = Returned.
Proof.
  intros Hs Hnx. unfold enum_maximum_matchings.
  pose proof (seed_is_matching _ _ Hbip0 Hnx) as Hm.
  case_decide; [|done]. rewrite stop_yield_seq.
  apply maximum_iter_returns; [apply Nat.lt_succ_diag_r|by apply (frame_ok_start _ Hbip0)|..].
  - intros a Ha. eapply sublist_subseteq; [apply (trim_arcs _ Htrim)|done].
  - intros v s Hl. simpl.
    eapply (sublist_label _ (nodes graph0)); [|apply Hbip0|done].
    apply (trim_nodes _ Htrim (create_directed_matching_graph graph0 _ _)).
  - apply (trim_closed _ Htrim). by apply matching_graph_closed.
Qed.

(** ** What a frame of the recursion emits *)

(** X10. A frame of [_enum_perfect_matchings_iter] on a part [graph] of the
    graph with a matching [m] emits, each once, matchings of the whole graph
    that have as many pairs as [m], differ from [m], agree with [m] outside
    [graph] and pair only along edges of [graph] where they differ. *)
Theorem perfect_frame_invariant fuel graph m :
  bipartite graph → (∀ u v, has_edge graph u v → has_edge graph0 u v) →
  is_matching graph0 m →
  NoDup (Gen.emitted (perfect_iter fuel graph m)) ∧
  ∀ n, n ∈ Gen.emitted (perfect_iter fuel graph m) →
    is_matching graph0 n ∧ size n = size m ∧ n ≠ m ∧
    (∀ t, t ∉ (nodes graph).*1 → n !! t = m !! t) ∧
    (∀ t b, n !! t = Some b → m !! t = Some b ∨ has_edge graph t b).
Proof.
  intros Hb He Hm.
  destruct (perfect_iter_sound _ _ Htrim Hfind graph0 fuel graph m) as [Hnd Hall];
    [by split|].
  split; [done|]. intros n Hn. rewrite Forall_forall in Hall.
  destruct (Hall _ Hn) as [? ? ? ? ?]. done.
Qed.

(** X11. A frame of [_enum_maximum_matchings_iter] on a part [graph] of
    the graph with a matching [m] and a part [d] of their digraph emits,
    each once, matchings of the whole graph that have as many pairs as [m],
    differ from [m], agree with [m] outside [graph], pair only along edges
    of [graph] where they differ, and cover the bottoms [m] covers. *)
Theorem maximum_frame_invariant fuel graph m d :
  bipartite graph → (∀ u v, has_edge graph u v → has_edge graph0 u v) →
  is_matching graph0 m →
  arcs d ⊆ arcs (create_directed_matching_graph graph (top_nodes graph) m) →
  (∀ v s, label (dnodes d) v = Some s → label (nodes graph) v = Some s) →
  NoDup (Gen.emitted (maximum_iter fuel graph m d)) ∧
  ∀ n, n ∈ Gen.emitted (maximum_iter fuel graph m d) →
    is_matching graph0 n ∧ size n = size m ∧ n ≠ m ∧
    (∀ t, t ∉ (nodes graph).*1 → n !! t = m !! t) ∧
    (∀ t b, n !! t = Some b → m !! t = Some b ∨ has_edge graph t b) ∧
    same_bottoms m n.
Proof.
  intros Hb He Hm Hsub Hlab.
  assert (frame_pre graph0 graph m) as Hpre by by split.
  destruct (maximum_iter_sound _ Hfind graph0 Hbip0 fuel graph m d Hpre Hsub Hlab)
    as [Hnd Hall].
  pose proof (maximum_iter_bottoms fuel graph m d Hpre Hsub Hlab) as Hbot.
  split; [done|]. intros n Hn. rewrite Forall_forall in Hall, Hbot.
  destruct (Hall _ Hn) as [? ? ? ? ?]. split_and!; try done. by apply Hbot.
Qed.

(** ** What the enumerators emit, exactly *)

(** X12. [enum_perfect_matchings] emits nothing exactly when the graph has
    no perfect matching, the graph without top vertices counting as one that
    has none. *)
Theorem enum_perfect_nothing_iff :
  seed_contract graph0 (maximum_matching graph0 (top_nodes graph0)) →
  Gen.emitted (enum_perfect graph0) = [] ↔
  ¬ (length (top_nodes graph0) = length (bottom_nodes graph0) ∧
     0 < length (top_nodes graph0) ∧
     ∃ n, is_matching graph0 n ∧ size n = length (top_nodes graph0)).
Proof.
  intros Hseed. pose proof (seed_nx _ _ Hseed) as Hnx.
  pose proof (seed_is_matching _ _ Hbip0 Hnx) as Hm.
  fold (the_seed graph0) in Hm. split.
  - intros Hnil (Hbal & Hpos & n & Hn & Hsz).
    assert (size (the_seed graph0) = length (top_nodes graph0)) as Hs.
    { apply Nat.le_antisymm; [by apply matching_size_le_tops|].
      rewrite <- Hsz. by apply (seed_max _ _ Hseed). }
    assert (the_seed graph0 ≠ ∅) as Hne.
    { intros Hemp. rewrite Hemp, map_size_empty in Hs. lia. }
    pose proof (enum_perfect_first maximum_matching strongly_connected_components_decomposition
                  find_cycle_with_edge_of_matching graph0 Hbal Hs Hne) as Hhead.
    by rewrite Hnil in Hhead.
  - intros Hnone.
    destruct (Gen.emitted (enum_perfect graph0)) as [|n l] eqn:Hemit; [done|].
    destruct Hnone.
    destruct (enum_perfect_sound _ _ _ Htrim Hfind graph0 Hbip0 Hnx) as [_ Hall].
    rewrite Hemit in Hall. apply Forall_cons in Hall as [[Hn Hsz] _].
    unfold enum_perfect_matchings in Hemit.
    case_decide as Hbal; [done|]. case_decide as Hguard; [|done].
    destruct Hguard as [Hne Hs].
    split; [by destruct (decide (length (top_nodes graph0) = length (bottom_nodes graph0)))|].
    split; [|by exists n].
    rewrite Hs. destruct (size _) eqn:Hz; [|lia].
    by apply map_size_empty_inv in Hz.
Qed.

(** X13. [enum_maximum_matchings] never changes the set of bottoms that are
    matched: every matching it emits covers the bottoms the seed covers, so
    a matching that covers another bottom is not emitted. *)
Theorem enum_maximum_keeps_bottoms :
  nx_matching graph0 (maximum_matching graph0 (top_nodes graph0)) →
  (∀ n, n ∈ Gen.emitted (enum_maximum graph0) → same_bottoms (the_seed graph0) n) ∧
  (∀ n t b, n !! t = Some b → (∀ t', the_seed graph0 !! t' ≠ Some b) →
            n ∉ Gen.emitted (enum_maximum graph0)).
Proof.
  intros Hnx. pose proof (enum_maximum_bottoms Hnx) as Hall.
  rewrite Forall_forall in Hall. split; [done|].
  intros n t b Hn Hseed Hin.
  destruct (proj1 (Hall _ Hin b)) as [t' Ht']; [by exists t|]. by destruct (Hseed t').
Qed.

Hypothesis Htrimc : trimmer_complete strongly_connected_components_decomposition.
Hypothesis Hfindc : finder_complete find_cycle_with_edge_of_matching.

(** X14. On a bipartite graph without repeated edges [enum_perfect_matchings]
    emits exactly the perfect matchings of the graph. *)
Theorem enum_perfect_exact :
  simple_edges (edges graph0) →
  seed_contract graph0 (maximum_matching graph0 (top_nodes graph0)) →
  ∀ n, n ∈ Gen.emitted (enum_perfect graph0) ↔
       length (top_nodes graph0) = length (bottom_nodes graph0) ∧
       0 < length (top_nodes graph0) ∧
       is_matching graph0 n ∧ size n = length (top_nodes graph0).
Proof.
  intros Hsimple Hseed n. pose proof (seed_nx _ _ Hseed) as Hnx.
  pose proof (seed_is_matching _ _ Hbip0 Hnx) as Hm.
  fold (the_seed graph0) in Hm. split.
  - intros Hin.
    destruct (enum_perfect_sound _ _ _ Htrim Hfind graph0 Hbip0 Hnx) as [_ Hall].
    rewrite Forall_forall in Hall. destruct (Hall _ Hin) as [Hn Hsz].
    unfold enum_perfect_matchings in Hin.
    case_decide as Hbal; [by apply elem_of_nil in Hin|].
    case_decide as Hguard; [|by apply elem_of_nil in Hin].
    destruct Hguard as [Hne Hs].
    split; [by destruct (decide (length (top_nodes graph0) = length (bottom_nodes graph0)))|].
    split; [|done].
    rewrite Hs. destruct (size _) eqn:Hz; [|lia].
    by apply map_size_empty_inv in Hz.
  - intros (Hbal & Hpos & Hn & Hsz).
    assert (size (the_seed graph0) = length (top_nodes graph0)) as Hs.
    { apply Nat.le_antisymm; [by apply matching_size_le_tops|].
      rewrite <- Hsz. by apply (seed_max _ _ Hseed). }
    assert (the_seed graph0 ≠ ∅) as Hne.
    { intros Hemp. rewrite Hemp, map_size_empty in Hs. lia. }
    by apply (enum_perfect_complete maximum_matching _ _ Htrim Htrimc Hfind Hfindc
                graph0 Hbip0 Hsimple Hnx).
Qed.

(** X15. On a bipartite graph without repeated edges [enum_maximum_matchings]
    emits exactly the matchings of the graph that cover the bottoms the seed
    covers, provided the seed is not empty. *)
Theorem enum_maximum_exact :
  simple_edges (edges graph0) →
  nx_matching graph0 (maximum_matching graph0 (top_nodes graph0)) →
  ∀ n, n ∈ Gen.emitted (enum_maximum graph0) ↔
       the_seed graph0 ≠ ∅ ∧ is_matching graph0 n ∧ same_bottoms (the_seed graph0) n.
Proof.
  intros Hsimple Hnx n. split.
  - intros Hin.
    destruct (enum_maximum_sound _ _ _ Htrim Hfind graph0 Hbip0 Hnx) as [_ Hall].
    pose proof (enum_maximum_bottoms Hnx) as Hbot.
    rewrite Forall_forall in Hall, Hbot. destruct (Hall _ Hin) as [Hn _].
    split; [|split; [done|by apply Hbot]].
    intros Hemp.
    rewrite (enum_maximum_empty_seed maximum_matching
               strongly_connected_components_decomposition
               find_cycle_with_edge_of_matching graph0 Hemp) in Hin.
    by apply elem_of_nil in Hin.
  - intros (Hne & Hn & Hbot).
    apply (enum_maximum_complete maximum_matching _ _ Htrim Htrimc Hfind Hfindc
             graph0 Hbip0 Hsimple Hnx); [done..|].
    intros b. symmetry. apply Hbot.
Qed.

(** X16. When some matching of the graph covers every bottom vertex,
    [enum_maximum_matchings] emits exactly the matchings that do, which are
    the maximum matchings of the graph. *)
Theorem enum_maximum_exact_saturated :
  simple_edges (edges graph0) →
  seed_contract graph0 (maximum_matching graph0 (top_nodes graph0)) →
  0 < length (bottom_nodes graph0) →
  (∃ k, is_matching graph0 k ∧ size k = length (bottom_nodes graph0)) →
  ∀ n, n ∈ Gen.emitted (enum_maximum graph0) ↔
       is_matching graph0 n ∧ size n = length (bottom_nodes graph0).
Proof.
  intros Hsimple Hseed Hpos (k & Hk & Hksz) n. pose proof (seed_nx _ _ Hseed) as Hnx.
  pose proof (seed_is_matching _ _ Hbip0 Hnx) as Hm.
  fold (the_seed graph0) in Hm.
  assert (size (the_seed graph0) = length (bottom_nodes graph0)) as Hs.
  { apply Nat.le_antisymm; [by apply matching_size_le_bottoms|].
    rewrite <- Hksz. by apply (seed_max _ _ Hseed). }
  split.
  - intros Hin.
    destruct (enum_maximum_sound _ _ _ Htrim Hfind graph0 Hbip0 Hnx) as [_ Hall].
    rewrite Forall_forall in Hall. destruct (Hall _ Hin) as [Hn Hsz].
    split; [done|]. by rewrite Hsz.
  - intros [Hn Hsz].
    apply (enum_maximum_complete maximum_matching _ _ Htrim Htrimc Hfind Hfindc
             graph0 Hbip0 Hsimple Hnx); [|done|].
    + intros Hemp. rewrite Hemp, map_size_empty in Hs. lia.
    + intros b. by rewrite !(matching_covers_bottoms graph0).
Qed.

(** X17. On a graph with as many tops as bottoms that has a perfect
    matching, the two enumerators emit the same matchings, each once. *)
Theorem enumerators_agree :
  simple_edges (edges graph0) →
  seed_contract graph0 (maximum_matching graph0 (top_nodes graph0)) →
  length (top_nodes graph0) = length (bottom_nodes graph0) →
  (∃ k, is_matching graph0 k ∧ size k = length (top_nodes graph0)) →
  Gen.emitted (enum_perfect graph0) ≡ₚ Gen.emitted (enum_maximum graph0).
Proof.
  intros Hsimple Hseed Hbal (k & Hk & Hksz). pose proof (seed_nx _ _ Hseed) as Hnx.
  pose proof (seed_is_matching _ _ Hbip0 Hnx) as Hm.
  fold (the_seed graph0) in Hm.
  assert (size (the_seed graph0) = length (top_nodes graph0)) as Hs.
  { apply Nat.le_antisymm; [by apply matching_size_le_tops|].
    rewrite <- Hksz. by apply (seed_max _ _ Hseed). }
  destruct (enum_perfect_sound _ _ _ Htrim Hfind graph0 Hbip0 Hnx) as [HndP HallP].
  destruct (enum_maximum_sound _ _ _ Htrim Hfind graph0 Hbip0 Hnx) as [HndM HallM].
  rewrite Forall_forall in HallP, HallM.
  apply NoDup_Permutation; [done..|]. intros n. split.
  - intros Hin. destruct (HallP _ Hin) as [Hn Hsz].
    assert (the_seed graph0 ≠ ∅) as Hne.
    { intros Hemp.
      rewrite (enum_perfect_empty_seed maximum_matching
                 strongly_connected_components_decomposition
                 find_cycle_with_edge_of_matching graph0 Hemp) in Hin.
      by apply elem_of_nil in Hin. }
    apply (enum_maximum_complete maximum_matching _ _ Htrim Htrimc Hfind Hfindc
             graph0 Hbip0 Hsimple Hnx); [done..|].
    intros b. rewrite !(matching_covers_bottoms graph0); try done; lia.
  - intros Hin. destruct (HallM _ Hin) as [Hn Hsz].
    assert (the_seed graph0 ≠ ∅) as Hne.
    { intros Hemp.
      rewrite (enum_maximum_empty_seed maximum_matching
                 strongly_connected_components_decomposition
                 find_cycle_with_edge_of_matching graph0 Hemp) in Hin.
      by apply elem_of_nil in Hin. }
    apply (enum_perfect_complete maximum_matching _ _ Htrim Htrimc Hfind Hfindc
             graph0 Hbip0 Hsimple Hnx); try done. lia.
Qed.

End Frames.

End EnumeratorProperties.

(** * The reference collaborators meet their contracts *)

Section ReferenceProofs.

Context {node : Type} `{Countable node}.

Implicit Types (d : DiGraph node) (u v cur target : node) (p visited : list node).

Lemma first_some_Some {A B} (f : A → option B) (l : list A) y :
  first_some f l = Some y → ∃ x, x ∈ l ∧ f x = Some y.
Proof.
  induction l as [|x l IH]; simpl; [done|].
  destruct (f x) as [y'|] eqn:Hfx.
  - intros [= <-]. exists x. split; [left|done].
  - intros (x' & Hin & Hx')%IH. exists x'. split; [by right|done].
Qed.

Lemma first_some_None {A B} (f : A → option B) (l : list A) :
  first_some f l = None ↔ ∀ x, x ∈ l → f x = None.
Proof.
  induction l as [|x l IH]; simpl.
  - split; [by intros _ x ?%elem_of_nil|done].
  - destruct (f x) as [y'|] eqn:Hfx.
    + split; [done|]. intros Hall. rewrite <- Hfx. apply Hall. left.
    + rewrite IH. split.
      * intros Hall x' [->|Hin]%elem_of_cons; auto.
      * intros Hall x' Hin. apply Hall. by right.
Qed.

Lemma elem_of_successors d u v : v ∈ successors d u ↔ (u, v) ∈ arcs d.
Proof.
  unfold successors. rewrite list_elem_of_omap. split.
  - intros [[a b] [Hin Hf]]. simpl in Hf. case_decide; simplify_eq. done.
  - intros Hin. exists (u, v). split; [done|]. simpl. by rewrite decide_True.
Qed.

Lemma simple_path_sound fuel : ∀ d visited cur target p,
  cur ∉ visited →
  simple_path fuel d visited cur target = Some p →
  head p = Some cur ∧ last p = Some target ∧ NoDup p ∧
  (∀ x, x ∈ p → x ∉ visited) ∧ chain d p.
Proof.
  induction fuel as [|fuel IH]; intros d visited cur target p Hcur; [done|].
  simpl. case_decide as Heq.
  - intros [= <-]. subst. split_and!; [done|done|apply NoDup_singleton| |].
    + by intros x ->%list_elem_of_singleton.
    + intros [|i] x y Hx Hy; done.
  - intros (s & Hs & Hf)%first_some_Some.
    case_decide as Hvis; [done|].
    destruct (simple_path fuel d (cur :: visited) s target) as [p'|] eqn:Hp'; [|done].
    simpl in Hf. simplify_eq.
    destruct (IH _ _ _ _ _ Hvis Hp') as (Hhead & Hlast & Hnd & Havoid & Hchain).
    split_and!; [done|..].
    + destruct p' as [|x p']; [done|]. by rewrite last_cons, Hlast.
    + apply NoDup_cons. split; [|done]. intros Hin. apply Havoid in Hin.
      apply Hin. left.
    + intros x [->|Hin]%elem_of_cons; [done|].
      apply Havoid in Hin. intros Hx. apply Hin. by right.
    + intros [|i] x y Hx Hy; simpl in *.
      * simplify_eq. rewrite <- head_lookup, Hhead in Hy. simplify_eq.
        by apply elem_of_successors.
      * by eapply Hchain.
Qed.

Lemma reference_find_cycle_contract : finder_contract (reference_find_cycle (node := node)).
Proof.
  intros d m c ([u v] & Hin & Hp)%first_some_Some. cbn [fst snd] in Hp.
  apply simple_path_sound in Hp as (Hhead & Hlast & Hnd & _ & Hchain);
    [|by intros ?%elem_of_nil].
  assert (c ≠ []) as Hne by by intros ->.
  split; [done..|].
  intros i x y Hx Hy. pose proof (lookup_lt_Some _ _ _ Hx) as Hlt.
  rewrite succ_mod in Hy by done. case_decide.
  - by eapply Hchain.
  - rewrite <- head_lookup, Hhead in Hy. simplify_eq.
    rewrite last_lookup in Hlast.
    replace (pred (length c)) with i in Hlast by lia. by simplify_eq.
Qed.

Lemma reference_trim_contract : trimmer_contract (reference_trim (node := node)).
Proof.
  split.
  - intros d. apply sublist_filter.
  - done.
  - intros d Hcl u v [_ Hin]%list_elem_of_filter. by apply Hcl.
Qed.

End ReferenceProofs.

(** * Completeness of the reference collaborators *)

Section ReferenceComplete.

Context {node : Type} `{Countable node}.

Implicit Types (d : DiGraph node) (p : list node).

Lemma walk_suffix d target p v :
  walk d target p → v ∈ p → ∃ p1 p2, p = p1 ++ v :: p2 ∧ walk d target (v :: p2).
Proof.
  induction 1 as [|x y p Harc Hw IH]; intros Hin.
  - apply list_elem_of_singleton in Hin as ->. by exists [], []; split; [|constructor].
  - destruct (decide (v = x)) as [->|Hne].
    + exists [], (y :: p). split; [done|by constructor].
    + apply elem_of_cons in Hin as [?|Hin]; [done|].
      destruct (IH Hin) as (p1 & p2 & Heq & Hw'). exists (x :: p1), p2.
      split; [by rewrite Heq|done].
Qed.

Lemma rtc_walk d v u :
  rtc (arc_rel d) v u → ∃ p, walk d u (v :: p) ∧ NoDup (v :: p).
Proof.
  induction 1 as [v|v w u Hvw _ (p & Hw & Hnd)].
  - exists []. split; [constructor|apply NoDup_singleton].
  - destruct (decide (v ∈ w :: p)) as [Hin|Hin].
    + destruct (walk_suffix _ _ _ _ Hw Hin) as (p1 & p2 & Heq & Hw').
      exists p2. split; [done|]. rewrite Heq in Hnd.
      by apply NoDup_app in Hnd as (_ & _ & Hnd).
    + exists (w :: p). split; [by constructor|]. by apply NoDup_cons.
Qed.

Lemma walk_steps d target p :
  walk d target p → NoDup p →
  length p = S (length (steps p)) ∧ NoDup (steps p) ∧
  (∀ a, a ∈ steps p → a ∈ arcs d ∧ a.1 ∈ p).
Proof.
  induction 1 as [|x y p Harc Hw IH]; intros Hnd.
  - split_and!; [done|constructor|by intros a ?%elem_of_nil].
  - apply NoDup_cons in Hnd as [Hx Hnd].
    destruct (IH Hnd) as (Hlen & Hnds & Hall).
    cbn [steps]. split_and!.
    + simpl in *. lia.
    + apply NoDup_cons. split; [|done]. intros Hin.
      apply Hall in Hin as [_ Hin]. done.
    + intros a [->|Hin]%elem_of_cons; [split; [done|by left]|].
      apply Hall in Hin as [? ?]. split; [done|by right].
Qed.

Lemma walk_length d target p :
  walk d target p → NoDup p → length p ≤ path_budget d.
Proof.
  intros Hw Hnd. destruct (walk_steps _ _ _ Hw Hnd) as (-> & Hnds & Hall).
  unfold path_budget. apply le_n_S, submseteq_length, NoDup_submseteq; [done|].
  intros a Ha. by apply Hall.
Qed.

Lemma first_some_is_Some {A B} (f : A → option B) (l : list A) x :
  x ∈ l → is_Some (f x) → is_Some (first_some f l).
Proof.
  intros Hin Hx. destruct (first_some f l) eqn:Hf; [done|].
  rewrite first_some_None in Hf. rewrite (Hf _ Hin) in Hx. by destruct Hx.
Qed.

Lemma simple_path_complete d target p : ∀ fuel visited,
  walk d target p → NoDup p → (∀ x, x ∈ p → x ∉ visited) → length p ≤ fuel →
  ∀ cur, head p = Some cur → is_Some (simple_path fuel d visited cur target).
Proof.
  intros fuel visited Hw. revert fuel visited.
  induction Hw as [|x y p Harc Hw IH]; intros fuel visited Hnd Hvis Hlen cur Hhd;
    simpl in Hhd; simplify_eq; (destruct fuel as [|fuel]; [simpl in Hlen; lia|]); simpl.
  - by rewrite decide_True.
  - case_decide; [done|].
    apply NoDup_cons in Hnd as [Hx Hnd].
    assert (∀ z, z ∈ y :: p → z ∉ cur :: visited) as Hvis'.
    { intros z Hz [->|Hin]%elem_of_cons; [done|].
      by apply (Hvis z); [right|]. }
    apply (first_some_is_Some _ _ y); [by apply elem_of_successors|].
    rewrite decide_False by (apply Hvis'; left).
    apply fmap_is_Some, (IH fuel); [done|done|simpl in *; lia|done].
Qed.

Lemma reference_path_complete (d : DiGraph node) u v :
  rtc (arc_rel d) v u → is_Some (simple_path (path_budget d) d [] v u).
Proof.
  intros (p & Hw & Hnd)%rtc_walk.
  apply (simple_path_complete d u (v :: p)); [done|done| |by eapply walk_length|done].
  by intros x _ ?%elem_of_nil.
Qed.

Lemma reference_find_cycle_complete :
  finder_complete (reference_find_cycle (node := node)).
Proof.
  intros d m Hnone u v Harc Hrtc. unfold reference_find_cycle in Hnone.
  rewrite first_some_None in Hnone. specialize (Hnone _ Harc). cbn [fst snd] in Hnone.
  apply reference_path_complete in Hrtc as [? Hp]. congruence.
Qed.

Lemma reference_trim_complete :
  trimmer_complete (reference_trim (node := node)).
Proof.
  intros d u v Harc Hrtc. simpl. apply list_elem_of_filter. split; [|done].
  by apply reference_path_complete.
Qed.

End ReferenceComplete.

(** * Complete bipartite graphs *)

Lemma complete_nodes n1 n2 : (nodes (complete_bipartite_graph n1 n2)).*1 = seq 0 (n1 + n2).
Proof.
  simpl. rewrite fmap_app, <- !list_fmap_compose, seq_app.
  f_equal; by rewrite list_fmap_id.
Qed.

Lemma complete_label_left n1 n2 i :
  i < n1 → label (nodes (complete_bipartite_graph n1 n2)) i = Some LEFT.
Proof.
  intros Hi. apply label_NoDup.
  - rewrite complete_nodes. apply NoDup_seq.
  - simpl. apply elem_of_app. left. apply list_elem_of_fmap.
    exists i. split; [done|]. apply elem_of_seq. lia.
Qed.

Lemma complete_label_right n1 n2 j :
  n1 ≤ j < n1 + n2 → label (nodes (complete_bipartite_graph n1 n2)) j = Some RIGHT.
Proof.
  intros Hj. apply label_NoDup.
  - rewrite complete_nodes. apply NoDup_seq.
  - simpl. apply elem_of_app. right. apply list_elem_of_fmap.
    exists j. split; [done|]. apply elem_of_seq. lia.
Qed.

Lemma complete_edges n1 n2 i j :
  (i, j) ∈ edges (complete_bipartite_graph n1 n2) ↔ i < n1 ∧ n1 ≤ j < n1 + n2.
Proof.
  simpl. rewrite list_elem_of_bind. split.
  - intros (i' & [j' [[= -> ->] Hj]]%list_elem_of_fmap & Hi).
    apply elem_of_seq in Hi, Hj. lia.
  - intros [Hi Hj]. exists i. split; [|apply elem_of_seq; lia].
    apply list_elem_of_fmap. exists j. split; [done|]. apply elem_of_seq. lia.
Qed.

Lemma complete_bipartite n1 n2 : bipartite (complete_bipartite_graph n1 n2).
Proof.
  split.
  - rewrite complete_nodes. apply NoDup_seq.
  - intros u v [Hu Hv]%complete_edges. left.
    split; [by apply complete_label_left|by apply complete_label_right].
Qed.

Lemma complete_top_nodes n1 n2 : top_nodes (complete_bipartite_graph n1 n2) = seq 0 n1.
Proof.
  unfold top_nodes. simpl. rewrite filter_app, fmap_app.
  assert (∀ l : list nat, filter (λ p : nat * side, p.2 = LEFT) ((λ i, (i, LEFT)) <$> l)
            = (λ i, (i, LEFT)) <$> l) as Hl.
  { induction l as [|x l IH]; [done|]. rewrite fmap_cons, filter_cons_True by done.
    by rewrite IH. }
  assert (∀ l : list nat, filter (λ p : nat * side, p.2 = LEFT) ((λ i, (i, RIGHT)) <$> l)
            = []) as Hr.
  { induction l as [|x l IH]; [done|]. rewrite fmap_cons, filter_cons_False by done.
    by rewrite IH. }
  rewrite Hl, Hr, app_nil_r, <- list_fmap_compose. apply list_fmap_id.
Qed.

Lemma complete_bottom_nodes n1 n2 : bottom_nodes (complete_bipartite_graph n1 n2) = seq n1 n2.
Proof.
  unfold bottom_nodes. simpl. rewrite filter_app, fmap_app.
  assert (∀ l : list nat, filter (λ p : nat * side, p.2 = RIGHT) ((λ i, (i, RIGHT)) <$> l)
            = (λ i, (i, RIGHT)) <$> l) as Hl.
  { induction l as [|x l IH]; [done|]. rewrite fmap_cons, filter_cons_True by done.
    by rewrite IH. }
  assert (∀ l : list nat, filter (λ p : nat * side, p.2 = RIGHT) ((λ i, (i, LEFT)) <$> l)
            = []) as Hr.
  { induction l as [|x l IH]; [done|]. rewrite fmap_cons, filter_cons_False by done.
    by rewrite IH. }
  rewrite Hl, Hr, <- list_fmap_compose. simpl. apply list_fmap_id.
Qed.

Lemma complete_seed_lookup n1 n2 u v :
  complete_seed n1 n2 !! u = Some v ↔
  (u < n1 `min` n2 ∧ v = n1 + u) ∨ (n1 ≤ u < n1 + n1 `min` n2 ∧ u = n1 + v).
Proof.
  unfold complete_seed. rewrite <- elem_of_list_to_map.
  - rewrite elem_of_app, !list_elem_of_fmap. split.
    + intros [(i & [= -> ->] & Hi%elem_of_seq)|(i & [= -> ->] & Hi%elem_of_seq)]; lia.
    + intros [[Hu ->]|[Hu ->]]; [left; exists u|right; exists v];
        (split; [done|apply elem_of_seq; lia]).
  - rewrite fmap_app, <- !list_fmap_compose. apply NoDup_app. split; [|split].
    + apply NoDup_fmap_2; [|apply NoDup_seq]. by intros ?? [=].
    + intros x (i & -> & Hi%elem_of_seq)%list_elem_of_fmap
               (j & Hj & Hj'%elem_of_seq)%list_elem_of_fmap. simpl in *. lia.
    + apply NoDup_fmap_2; [|apply NoDup_seq]. intros ?? [=]. lia.
Qed.

Lemma complete_seed_nx n1 n2 :
  nx_matching (complete_bipartite_graph n1 n2) (complete_seed n1 n2).
Proof.
  split.
  - intros u v [[Hu ->]|[Hu ->]]%complete_seed_lookup; [left|right];
      apply complete_edges; lia.
  - intros u v Huv. apply complete_seed_lookup.
    apply complete_seed_lookup in Huv as [[Hu ->]|[Hu ->]]; [right|left]; lia.
Qed.

(** * Counting the matchings of a complete bipartite graph *)

Lemma falling_fact n k : k ≤ n → falling n k * fact (n - k) = fact n.
Proof.
  revert n. induction k as [|k IH]; intros n Hk; simpl.
  - rewrite Nat.sub_0_r. lia.
  - destruct n as [|n]; [lia|].
    replace (S n - 1) with n by lia. replace (S n - S k) with (n - k) by lia.
    rewrite <- Nat.mul_assoc, IH by lia. done.
Qed.

Lemma falling_div n k : k ≤ n → falling n k = fact n / fact (n - k).
Proof.
  intros Hk. rewrite <- (falling_fact n k Hk).
  rewrite Nat.div_mul; [done|]. apply fact_neq_0.
Qed.

Section Counting.

Context {node : Type} `{Countable node}.

Local Abbreviation dict := (gmap node node).

Implicit Types (tops bottoms : list node).

Lemma elem_of_all_matchings bottoms : ∀ tops (x : dict),
  NoDup bottoms → x ∈ all_matchings tops bottoms ↔ saturating tops bottoms x.
Proof.
  induction bottoms as [|b bottoms IH]; intros tops x Hnd; simpl.
  - rewrite list_elem_of_singleton. split.
    + intros ->. split_and!.
      * intros t b Ht. by rewrite lookup_empty in Ht.
      * intros t t' b Ht. by rewrite lookup_empty in Ht.
      * by intros ? ?%elem_of_nil.
    + intros (Hx & _ & _). apply map_empty. intros t.
      destruct (x !! t) as [b|] eqn:Ht; [|done].
      destruct (Hx _ _ Ht) as [_ ?%elem_of_nil]. done.
  - apply NoDup_cons in Hnd as [Hb Hnd]. rewrite list_elem_of_bind. split.
    + intros (t & (y & -> & Hy)%list_elem_of_fmap & Ht).
      apply IH in Hy as (Hy1 & Hy2 & Hy3); [|done].
      assert (y !! t = None) as Hyt.
      { destruct (y !! t) as [b'|] eqn:Hyt; [|done].
        destruct (Hy1 _ _ Hyt) as [[? _]%list_elem_of_filter _]. done. }
      assert (∀ t', y !! t' ≠ Some b) as Hyb.
      { intros t' Ht'. destruct (Hy1 _ _ Ht') as [_ ?]. done. }
      split_and!.
      * intros t' b' [[-> ->]|[Hne Hl]]%lookup_insert_Some.
        -- split; [done|by left].
        -- destruct (Hy1 _ _ Hl) as [[_ ?]%list_elem_of_filter ?]. split; [done|by right].
      * intros t1 t2 b' [[-> ->]|[Hn1 Hl1]]%lookup_insert_Some
                         [[-> Heq]|[Hn2 Hl2]]%lookup_insert_Some; subst; try done.
        -- by destruct (Hyb _ Hl2).
        -- by destruct (Hyb _ Hl1).
        -- by eapply Hy2.
      * intros b' [->|Hin]%elem_of_cons.
        -- exists t. apply lookup_insert_eq.
        -- destruct (Hy3 _ Hin) as [t' Ht']. exists t'.
           rewrite lookup_insert_ne; [done|congruence].
    + intros (Hx1 & Hx2 & Hx3).
      destruct (Hx3 b) as [t Ht]; [by left|].
      exists t. split; [|by apply (Hx1 _ _ Ht)].
      apply list_elem_of_fmap. exists (delete t x). split.
      { by rewrite insert_delete_id. }
      apply IH; [done|]. split_and!.
      * intros t' b' [Hne Hl]%lookup_delete_Some.
        destruct (Hx1 _ _ Hl) as [Ht' Hb'%elem_of_cons]. split.
        -- apply list_elem_of_filter. split; [congruence|done].
        -- destruct Hb' as [->|?]; [|done]. destruct Hne. by eapply Hx2.
      * intros t1 t2 b' [_ Hl1]%lookup_delete_Some [_ Hl2]%lookup_delete_Some.
        by eapply Hx2.
      * intros b' Hin. destruct (Hx3 b') as [t' Ht']; [by right|].
        exists t'. apply lookup_delete_Some. split; [|done].
        intros ->. simplify_eq. done.
Qed.

Lemma NoDup_all_matchings bottoms : ∀ tops,
  NoDup tops → NoDup bottoms → NoDup (all_matchings tops bottoms).
Proof.
  induction bottoms as [|b bottoms IH]; intros tops Ht Hb; simpl.
  - apply NoDup_singleton.
  - pose proof Hb as [Hbn Hb']%NoDup_cons. apply NoDup_bind; [| |done].
    + intros t1 t2 x _ _ (y1 & -> & Hy1)%list_elem_of_fmap (y2 & Heq & Hy2)%list_elem_of_fmap.
      apply elem_of_all_matchings in Hy2 as (Hy2 & _ & _); [|done].
      destruct (decide (t1 = t2)) as [|Hne]; [done|].
      assert (y2 !! t1 = Some b) as Hl.
      { rewrite <- (lookup_insert_ne y2 t2 t1 b) by done.
        rewrite <- Heq. apply lookup_insert_eq. }
      by destruct (Hy2 _ _ Hl) as [_ ?].
    + intros t _. apply NoDup_fmap_2_strong.
      * intros y1 y2 Hy1 Hy2 Heq.
        apply elem_of_all_matchings in Hy1 as (Hy1 & _ & _); [|done].
        apply elem_of_all_matchings in Hy2 as (Hy2 & _ & _); [|done].
        assert (∀ y : dict, (∀ t' b', y !! t' = Some b' →
                   t' ∈ filter (λ x, x ≠ t) tops ∧ b' ∈ bottoms) → y !! t = None) as Hnone.
        { intros y Hy. destruct (y !! t) as [b'|] eqn:Hyt; [|done].
          destruct (Hy _ _ Hyt) as [[? _]%list_elem_of_filter _]. done. }
        rewrite <- (delete_insert_id y1 t b), <- (delete_insert_id y2 t b) by auto.
        by rewrite Heq.
      * apply IH; [by apply NoDup_filter|done].
Qed.

Lemma length_filter_ne_id (l : list node) t :
  t ∉ l → length (filter (λ x, x ≠ t) l) = length l.
Proof.
  induction l as [|x l IH]; intros Hin; [done|].
  apply not_elem_of_cons in Hin as [Hne Hin].
  rewrite filter_cons, decide_True by done. simpl. by rewrite IH.
Qed.

Lemma length_filter_ne (l : list node) t :
  NoDup l → t ∈ l → S (length (filter (λ x, x ≠ t) l)) = length l.
Proof.
  induction 1 as [|x l Hx Hnd IH]; intros Hin; [by apply elem_of_nil in Hin|].
  rewrite filter_cons. apply elem_of_cons in Hin as [->|Hin].
  - rewrite decide_False by (intros Hn; by apply Hn). simpl.
    by rewrite length_filter_ne_id.
  - rewrite decide_True by (intros ->; done). simpl. by rewrite IH.
Qed.

Lemma length_bind_const {A B} (f : A → list B) (l : list A) c :
  (∀ x, x ∈ l → length (f x) = c) → length (l ≫= f) = length l * c.
Proof.
  induction l as [|x l IH]; intros Hf; [done|].
  rewrite bind_cons, length_app, Hf, IH; [done| |by left].
  intros y Hy. apply Hf. by right.
Qed.

Lemma length_all_matchings bottoms : ∀ tops,
  NoDup tops →
  length (all_matchings tops bottoms) = falling (length tops) (length bottoms).
Proof.
  induction bottoms as [|b bottoms IH]; intros tops Hnd; [done|].
  simpl. apply length_bind_const. intros t Ht.
  rewrite length_fmap, IH by by apply NoDup_filter.
  f_equal. pose proof (length_filter_ne _ _ Hnd Ht). lia.
Qed.

(** A list without repetition that holds the saturating dictionaries and
    nothing else has as many entries as there are injections. *)
Lemma saturating_count (tops bottoms : list node) (l : list dict) :
  NoDup tops → NoDup bottoms → NoDup l →
  (∀ x, x ∈ l ↔ saturating tops bottoms x) →
  length l = falling (length tops) (length bottoms).
Proof.
  intros Ht Hb Hl Hall. rewrite <- length_all_matchings by done.
  apply Permutation_length, NoDup_Permutation; [done|by apply NoDup_all_matchings|].
  intros x. by rewrite Hall, elem_of_all_matchings.
Qed.

End Counting.

(** * The enumerators on complete bipartite graphs *)

Lemma falling_pos n k : k ≤ n → 0 < falling n k.
Proof.
  intros Hk. pose proof (falling_fact n k Hk) as Heq.
  pose proof (fact_neq_0 n). destruct (falling n k); lia.
Qed.

Lemma complete_simple n1 n2 : simple_edges (edges (complete_bipartite_graph n1 n2)).
Proof.
  split.
  - simpl. apply NoDup_bind; [| |apply NoDup_seq].
    + intros i1 i2 [u v] _ _ (j1 & [= -> ->] & _)%list_elem_of_fmap
                         (j2 & [= -> ->] & _)%list_elem_of_fmap. done.
    + intros i _. apply NoDup_fmap_2; [|apply NoDup_seq]. by intros ?? [=].
  - intros u v [Hu Hv]%complete_edges [Hv' Hu']%complete_edges. lia.
Qed.

Lemma complete_saturating n1 n2 (x : gmap nat nat) :
  saturating (seq 0 n1) (seq n1 n2) x ↔
  is_matching (complete_bipartite_graph n1 n2) x ∧ size x = n2.
Proof.
  pose proof (complete_bipartite n1 n2) as Hb. split.
  - intros (Hx1 & Hx2 & Hx3). split.
    + split; [| | |done].
      * intros t b [Ht%elem_of_seq Hv%elem_of_seq]%Hx1. left.
        apply complete_edges. lia.
      * intros t b [Ht%elem_of_seq _]%Hx1. apply complete_label_left. lia.
      * intros t b [_ Hv%elem_of_seq]%Hx1. apply complete_label_right. lia.
    + rewrite <- (map_img_size x) by done.
      assert ((map_img x : gset nat) = list_to_set (seq n1 n2)) as ->.
      { apply set_eq. intros b. rewrite elem_of_map_img, elem_of_list_to_set. split.
        - intros [t Ht]. by apply (Hx1 _ _ Ht).
        - apply Hx3. }
      rewrite size_list_to_set by apply NoDup_seq. apply length_seq.
  - intros [Hm Hsz]. split_and!.
    + intros t b Htb. split.
      * rewrite <- (complete_top_nodes n1 n2). apply top_nodes_label; [apply Hb|].
        by apply (matching_key _ _ Hm t b).
      * rewrite <- (complete_bottom_nodes n1 n2).
        apply bottom_nodes_label; [apply Hb|]. by apply (matching_value _ _ Hm t b).
    + apply Hm.
    + intros b Hin. apply (matching_covers_bottoms _ _ _ Hb Hm).
      * by rewrite complete_bottom_nodes, length_seq.
      * by rewrite complete_bottom_nodes.
Qed.

Section CompleteCounts.

Variable maximum_matching : Graph nat → list nat → gmap nat nat.
Variable strongly_connected_components_decomposition : DiGraph nat → DiGraph nat.
Variable find_cycle_with_edge_of_matching : DiGraph nat → gmap nat nat → option (list nat).

Hypothesis Htrim : trimmer_contract strongly_connected_components_decomposition.
Hypothesis Htrimc : trimmer_complete strongly_connected_components_decomposition.
Hypothesis Hfind : finder_contract find_cycle_with_edge_of_matching.
Hypothesis Hfindc : finder_complete find_cycle_with_edge_of_matching.

Local Abbreviation K := complete_bipartite_graph.
Local Abbreviation enum_perfect :=
  (enum_perfect_matchings maximum_matching strongly_connected_components_decomposition
     find_cycle_with_edge_of_matching).
Local Abbreviation enum_maximum :=
  (enum_maximum_matchings maximum_matching strongly_connected_components_decomposition
     find_cycle_with_edge_of_matching).
Local Abbreviation the_seed := (seed maximum_matching).

(** On K(n, m) with [m ≤ n] the seed covers every bottom. *)
Lemma complete_seed_size n m :
  m ≤ n → seed_contract (K n m) (maximum_matching (K n m) (top_nodes (K n m))) →
  is_matching (K n m) (the_seed (K n m)) ∧ size (the_seed (K n m)) = m.
Proof.
  intros Hle [Hnx Hmax].
  pose proof (seed_is_matching _ _ (complete_bipartite n m) Hnx) as Hm.
  split; [done|]. apply Nat.le_antisymm.
  - etrans; [apply (matching_size_le_bottoms _ _ (complete_bipartite n m) Hm)|].
    by rewrite complete_bottom_nodes, length_seq.
  - pose proof (length_all_matchings (seq n m) (seq 0 n) (NoDup_seq _ _)) as Hlen.
    rewrite !length_seq in Hlen. pose proof (falling_pos n m Hle) as Hpos.
    destruct (all_matchings (seq 0 n) (seq n m)) as [|x l] eqn:Hall;
      [simpl in Hlen; lia|].
    assert (saturating (seq 0 n) (seq n m) x) as Hx.
    { apply elem_of_all_matchings; [apply NoDup_seq|]. rewrite Hall. left. }
    apply complete_saturating in Hx as [Hx <-]. by apply Hmax.
Qed.

(** C1: on K(n, n) with n ≥ 1 the perfect enumerator returns after it
    emitted n! matchings, no one twice; on K(n, m) with n ≥ m the maximum
    enumerator returns after it emitted n!/(n-m)! matchings, no one twice,
    when m > 0, and none when m = 0. *)
Theorem complete_graph_counts n m :
  (1 ≤ n →
   seed_contract (K n n) (maximum_matching (K n n) (top_nodes (K n n))) →
   Gen.stop (enum_perfect (K n n)) = Returned ∧
   NoDup (Gen.emitted (enum_perfect (K n n))) ∧
   length (Gen.emitted (enum_perfect (K n n))) = fact n) ∧
  (m ≤ n →
   seed_contract (K n m) (maximum_matching (K n m) (top_nodes (K n m))) →
   Gen.stop (enum_maximum (K n m)) = Returned ∧
   NoDup (Gen.emitted (enum_maximum (K n m))) ∧
   (0 < m → length (Gen.emitted (enum_maximum (K n m))) = fact n / fact (n - m)) ∧
   (m = 0 → Gen.emitted (enum_maximum (K n m)) = [])).
Proof.
  split.
  - (* the emitted list holds the matchings of size n, each once *)
    intros Hpos Hseed.
    destruct (complete_seed_size n n (le_n _) Hseed) as [Hm Hsz].
    pose proof (complete_bipartite n n) as Hb.
    pose proof (seed_nx _ _ Hseed) as Hnx.
    destruct (enum_perfect_complete maximum_matching _ _ Htrim Htrimc Hfind Hfindc
                _ Hb (complete_simple n n) Hnx) as [Hstop Hall].
    destruct (enum_perfect_sound maximum_matching _ _ Htrim Hfind _ Hb Hnx)
      as [Hnd Hsound].
    split; [done|]. split; [done|].
    replace (fact n) with (fact n / fact (n - n))
      by (rewrite Nat.sub_diag; simpl; apply Nat.div_1_r).
    rewrite <- falling_div by done.
    assert (falling n n = falling (length (seq 0 n)) (length (seq n n))) as ->
      by by rewrite !length_seq.
    apply saturating_count; [apply NoDup_seq..|done|].
    intros x. rewrite complete_saturating.
    rewrite complete_top_nodes, complete_bottom_nodes, !length_seq in *. split.
    + intros Hin. rewrite Forall_forall in Hsound. by apply Hsound.
    + intros [Hx Hszx]. apply Hall; try done.
      intros Hemp. rewrite Hemp, map_size_empty in Hsz. lia.
  - (* the emitted list holds the matchings of size m, each once *)
    intros Hle Hseed.
    destruct (complete_seed_size n m Hle Hseed) as [Hm Hsz].
    pose proof (complete_bipartite n m) as Hb.
    pose proof (seed_nx _ _ Hseed) as Hnx.
    destruct (enum_maximum_complete maximum_matching _ _ Htrim Htrimc Hfind Hfindc
                _ Hb (complete_simple n m) Hnx) as [Hstop Hall].
    destruct (enum_maximum_sound maximum_matching _ _ Htrim Hfind _ Hb Hnx)
      as [Hnd Hsound].
    split; [done|]. split; [done|]. split.
    + intros Hpos. rewrite <- falling_div by done.
      assert (falling n m = falling (length (seq 0 n)) (length (seq n m))) as ->
        by by rewrite !length_seq.
      apply saturating_count; [apply NoDup_seq..|done|].
      intros x. rewrite complete_saturating. split.
      * intros Hin. rewrite Forall_forall in Hsound.
        destruct (Hsound _ Hin) as [? ?]. split; [done|congruence].
      * intros [Hx Hszx]. apply Hall; [|done|].
        -- intros Hemp. rewrite Hemp, map_size_empty in Hsz. lia.
        -- intros b. rewrite !(matching_covers_bottoms (K n m)); try done;
            by rewrite complete_bottom_nodes, length_seq.
    + intros ->. unfold enum_maximum_matchings.
      apply map_size_empty_inv in Hsz. unfold seed in Hsz. rewrite Hsz.
      by rewrite decide_False by (intros Hne; by apply Hne).
Qed.

End CompleteCounts.

(** * Witnesses and counterexamples on small graphs *)

Lemma seed_contract_saturating `{Countable node} (graph : Graph node) (mm : gmap node node) :
  bipartite graph → nx_matching graph mm →
  size (top_to_bottom graph mm) = length (top_nodes graph) →
  seed_contract graph mm.
Proof.
  intros Hb Hnx Hsz. split; [done|].
  intros m Hm. rewrite Hsz. by apply matching_size_le_tops.
Qed.

Lemma seed22_contract : seed_contract k22 (matcher22 k22 (top_nodes k22)).
Proof.
  apply seed_contract_saturating;
    [apply complete_bipartite|apply complete_seed_nx|by vm_compute].
Qed.

Lemma seed22_lookup t b : seed22 !! t = Some b ↔ (t = 0 ∧ b = 2) ∨ (t = 1 ∧ b = 3).
Proof.
  unfold seed22. rewrite top_to_bottom_lookup, complete_seed_lookup.
  unfold k22. rewrite complete_top_nodes, elem_of_seq. simpl. lia.
Qed.

Lemma seed22_matching : is_matching k22 seed22.
Proof. apply seed_is_matching; [apply complete_bipartite|apply complete_seed_nx]. Qed.

Lemma emitted_cardinality_witness :
  (∀ n, n ∈ Gen.emitted (enum_maximum_matchings matcher22 reference_trim
                           reference_find_cycle k22) →
     maximum_matching_number k22 (size n)) ∧
  (∀ n, n ∈ Gen.emitted (enum_perfect_matchings matcher22 reference_trim
                           reference_find_cycle k22) →
     size n = length (top_nodes k22) ∧
     length (top_nodes k22) = length (bottom_nodes k22) ∧
     ∀ t, t ∈ top_nodes k22 → is_Some (n !! t)).
Proof.
  apply emitted_cardinality.
  - apply complete_bipartite.
  - apply reference_trim_contract.
  - apply reference_find_cycle_contract.
  - apply seed22_contract.
Defined.

Lemma emitted_matchings_are_matchings_witness :
  Forall (λ n : gmap nat nat,
            (∀ t b, n !! t = Some b → has_edge k22 t b) ∧
            (∀ t b b', n !! t = Some b → n !! t = Some b' → b = b') ∧
            (∀ t t' b, n !! t = Some b → n !! t' = Some b → t = t'))
         (Gen.emitted (enum_perfect_matchings matcher22 reference_trim
                         reference_find_cycle k22) ++
          Gen.emitted (enum_maximum_matchings matcher22 reference_trim
                         reference_find_cycle k22)).
Proof.
  apply Forall_forall. intros n Hn. apply elem_of_app in Hn.
  revert n Hn.
  apply (emitted_matchings_are_matchings matcher22 reference_trim reference_find_cycle).
  - apply complete_bipartite.
  - apply reference_trim_contract.
  - apply reference_find_cycle_contract.
  - apply complete_seed_nx.
Defined.

Lemma emitted_without_repetition_witness :
  NoDup (Gen.emitted (enum_perfect_matchings matcher22 reference_trim
                        reference_find_cycle k22)) ∧
  NoDup (Gen.emitted (enum_maximum_matchings matcher22 reference_trim
                        reference_find_cycle k22)).
Proof.
  apply emitted_without_repetition.
  - apply complete_bipartite.
  - apply reference_trim_contract.
  - apply reference_find_cycle_contract.
  - apply complete_seed_nx.
Defined.

Lemma emitted_top_to_bottom_witness :
  (∀ n, n ∈ Gen.emitted (enum_perfect_matchings matcher22 reference_trim
                           reference_find_cycle k22) ∨
        n ∈ Gen.emitted (enum_maximum_matchings matcher22 reference_trim
                           reference_find_cycle k22) →
     sided k22 n) ∧
  (∀ m c m', sided k22 m → alternating_cycle k22 m c →
     flip_cycle m c = Some m' → sided k22 m') ∧
  (∀ m left1 right_ left2, sided k22 m →
     _find_feaseable_two_edge_path k22 m = Some (left1, right_, left2) →
     sided k22 (<[left2 := right_]> (delete left1 m))).
Proof.
  apply (emitted_top_to_bottom matcher22 reference_trim reference_find_cycle).
  - apply complete_bipartite.
  - apply reference_trim_contract.
  - apply reference_find_cycle_contract.
  - apply complete_seed_nx.
Defined.

Lemma maximum_emits_nothing_iff_no_edges_witness :
  (Gen.emitted (enum_maximum_matchings matcher22 reference_trim
                  reference_find_cycle k22) = [] ↔ edges k22 = []) ∧
  (seed matcher22 k22 = ∅ →
   enum_maximum_matchings matcher22 reference_trim reference_find_cycle k22 = Gen.ret) ∧
  (seed matcher22 k22 ≠ ∅ →
   head (Gen.emitted (enum_maximum_matchings matcher22 reference_trim
                        reference_find_cycle k22)) = Some (seed matcher22 k22)).
Proof.
  apply maximum_emits_nothing_iff_no_edges.
  - apply complete_bipartite.
  - apply seed22_contract.
Defined.

(** The cycle 0 -> 2 -> 1 -> 3 -> 0 of D(K(2,2), {0: 2, 1: 3}). *)
Lemma cycle22_alternating : alternating_cycle k22 seed22 [0; 2; 1; 3].
Proof.
  split.
  - done.
  - by exists 2.
  - apply (bool_decide_unpack _). by vm_compute.
  - intros i t b [k ->] Ht Hb.
    do 2 (destruct k as [|k]; [simpl in *; simplify_eq; apply seed22_lookup; lia|]).
    apply lookup_lt_Some in Ht. simpl in Ht. lia.
  - intros i b t [k ->] Hb Ht.
    do 2 (destruct k as [|k];
      [simpl in *; simplify_eq; split;
       [left; apply complete_edges; lia|rewrite seed22_lookup; lia]|]).
    apply lookup_lt_Some in Hb. simpl in Hb. lia.
Qed.

(** The cycle 0 -> 2 -> 1 -> 3 -> 0 as the cycle finder and the
    normalization give it. *)
Lemma cycle22_directed :
  directed_cycle (create_directed_matching_graph k22 (top_nodes k22) seed22) [0; 2; 1; 3].
Proof.
  change [0; 2; 1; 3] with (rotate_right [2; 1; 3; 0]).
  apply directed_cycle_rotate, (reference_find_cycle_contract _ seed22).
  by vm_compute.
Qed.

Lemma flip_normalized_cycle_witness :
  (Nat.Even (length [0; 2; 1; 3]) ∧
   ∀ i v, [0; 2; 1; 3] !! i = Some v →
     (Nat.Even i → label (nodes k22) v = Some LEFT) ∧
     (Nat.Odd i → label (nodes k22) v = Some RIGHT)) ∧
  ∃ m', flip_cycle seed22 [0; 2; 1; 3] = Some m' ∧ is_matching k22 m' ∧
        size m' = size seed22 ∧ m' ≠ seed22 ∧
        ∀ t b, (m' !! t = Some b ∧ seed22 !! t ≠ Some b) ∨
               (seed22 !! t = Some b ∧ m' !! t ≠ Some b) ↔ cycle_edge [0; 2; 1; 3] t b.
Proof.
  apply (flip_normalized_cycle k22 seed22 [0; 2; 1; 3] 0).
  - apply complete_bipartite.
  - apply seed22_matching.
  - apply cycle22_directed.
  - done.
  - apply complete_label_left. lia.
Defined.



(** C8 as stated fails on the graph without vertices: both sides have
    size 0 and the seed has 0 pairs, yet nothing is emitted. *)
Lemma perfect_entry_counterexample :
  let graph := mkGraph (node := nat) [] [] in
  length (top_nodes graph) = length (bottom_nodes graph) ∧
  size (seed matcher22 graph) = length (top_nodes graph) ∧
  head (Gen.emitted (enum_perfect_matchings matcher22 reference_trim
                       reference_find_cycle graph)) ≠ Some (seed matcher22 graph).
Proof. by vm_compute. Qed.

Lemma perfect_entry_witness :
  enum_perfect_matchings matcher22 reference_trim reference_find_cycle
    (complete_bipartite_graph 2 1) = Gen.ret ∧
  enum_perfect_matchings (λ _ _, ∅) reference_trim reference_find_cycle no_edges22
    = Gen.ret ∧
  head (Gen.emitted (enum_perfect_matchings matcher22 reference_trim
                       reference_find_cycle k22)) = Some (seed matcher22 k22).
Proof.
  split; [|split].
  - apply (proj1 (perfect_entry matcher22 reference_trim reference_find_cycle
                    (complete_bipartite_graph 2 1))).
    by vm_compute.
  - apply (proj1 (proj2 (perfect_entry (λ _ _, ∅) reference_trim reference_find_cycle
                           no_edges22))).
    + reflexivity.
    + vm_compute. lia.
  - apply (proj2 (proj2 (perfect_entry matcher22 reference_trim reference_find_cycle k22))).
    + reflexivity.
    + by vm_compute.
    + by vm_compute.
Defined.

(** On a complete bipartite graph [complete_matcher] answers
    [complete_seed]. *)
Lemma complete_matcher_seed n1 n2 :
  complete_matcher (complete_bipartite_graph n1 n2)
    (top_nodes (complete_bipartite_graph n1 n2)) = complete_seed n1 n2.
Proof.
  unfold complete_matcher. rewrite complete_top_nodes, length_seq.
  rewrite <- (length_fmap fst), complete_nodes, length_seq.
  by replace (n1 + n2 - n1) with n2 by lia.
Qed.

Lemma seed_contract_bottom_saturating `{Countable node} (graph : Graph node)
    (mm : gmap node node) :
  bipartite graph → nx_matching graph mm →
  size (top_to_bottom graph mm) = length (bottom_nodes graph) →
  seed_contract graph mm.
Proof.
  intros Hb Hnx Hsz. split; [done|].
  intros m Hm. rewrite Hsz. by apply matching_size_le_bottoms.
Qed.

Lemma complete_matcher_contract n1 n2 :
  size (top_to_bottom (complete_bipartite_graph n1 n2) (complete_seed n1 n2)) = n2 →
  seed_contract (complete_bipartite_graph n1 n2)
    (complete_matcher (complete_bipartite_graph n1 n2)
       (top_nodes (complete_bipartite_graph n1 n2))).
Proof.
  intros Hsz. rewrite complete_matcher_seed.
  apply seed_contract_bottom_saturating;
    [apply complete_bipartite|apply complete_seed_nx|].
  by rewrite complete_bottom_nodes, length_seq.
Qed.

(** The counts on K(3, 3) and K(3, 2) with the reference collaborators. *)
Lemma complete_graph_counts_witness :
  (Gen.stop (enum_perfect_matchings complete_matcher reference_trim reference_find_cycle
               (complete_bipartite_graph 3 3)) = Returned ∧
   NoDup (Gen.emitted (enum_perfect_matchings complete_matcher reference_trim
                         reference_find_cycle (complete_bipartite_graph 3 3))) ∧
   length (Gen.emitted (enum_perfect_matchings complete_matcher reference_trim
                          reference_find_cycle (complete_bipartite_graph 3 3))) = 6) ∧
  (Gen.stop (enum_maximum_matchings complete_matcher reference_trim reference_find_cycle
               (complete_bipartite_graph 3 2)) = Returned ∧
   NoDup (Gen.emitted (enum_maximum_matchings complete_matcher reference_trim
                         reference_find_cycle (complete_bipartite_graph 3 2))) ∧
   length (Gen.emitted (enum_maximum_matchings complete_matcher reference_trim
                          reference_find_cycle (complete_bipartite_graph 3 2))) = 6).
Proof.
  destruct (complete_graph_counts complete_matcher reference_trim reference_find_cycle
              reference_trim_contract reference_trim_complete
              reference_find_cycle_contract reference_find_cycle_complete 3 2)
    as [Hperfect Hmaximum].
  split.
  - apply Hperfect; [lia|]. apply complete_matcher_contract. by vm_compute.
  - destruct Hmaximum as (Hstop & Hnd & Hlen & _);
      [lia|apply complete_matcher_contract; by vm_compute|].
    split; [done|]. split; [done|]. apply Hlen. lia.
Defined.

(** * Witnesses of the further properties *)

Lemma start_cycle_with_left_normalizes_witness :
  ∃ c0 rest,
    _start_cycle_with_left k22 [2; 1; 3; 0] = inr (c0 :: rest) ∧
    label (nodes k22) c0 = Some LEFT ∧
    c0 :: rest ≡ₚ [2; 1; 3; 0] ∧
    directed_cycle (create_directed_matching_graph k22 (top_nodes k22) seed22) (c0 :: rest) ∧
    alternating_cycle k22 seed22 (c0 :: rest).
Proof.
  apply start_cycle_with_left_normalizes.
  - apply complete_bipartite.
  - done.
  - apply (reference_find_cycle_contract _ seed22). by vm_compute.
Defined.

Lemma feasible_path_sound_witness :
  (0, LEFT) ∈ nodes (complete_bipartite_graph 2 1) ∧
  ({[0 := 2]} : gmap nat nat) !! 0 = Some 2 ∧
  2 ∈ (nodes (complete_bipartite_graph 2 1)).*1 ∧
  has_edge (complete_bipartite_graph 2 1) 1 2 ∧
  ({[0 := 2]} : gmap nat nat) !! 1 = None ∧ 0 ≠ 1 ∧
  (bipartite (complete_bipartite_graph 2 1) →
   is_matching (complete_bipartite_graph 2 1) {[0 := 2]} →
   label (nodes (complete_bipartite_graph 2 1)) 2 = Some RIGHT ∧
   label (nodes (complete_bipartite_graph 2 1)) 1 = Some LEFT).
Proof. apply feasible_path_sound. by vm_compute. Defined.

Lemma matching21 : is_matching (complete_bipartite_graph 2 1) {[0 := 2]}.
Proof.
  apply single_edge_matching.
  - left. apply complete_edges. lia.
  - apply complete_label_left. lia.
  - apply complete_label_right. lia.
Qed.

Lemma path_rewiring_witness :
  is_Some (({[0 := 2]} : gmap nat nat) !! 0) ∧
  is_matching (complete_bipartite_graph 2 1) (<[1 := 2]> (delete 0 {[0 := 2]})) ∧
  size (<[1 := 2]> (delete 0 ({[0 := 2]} : gmap nat nat))) = size ({[0 := 2]} : gmap nat nat) ∧
  <[1 := 2]> (delete 0 ({[0 := 2]} : gmap nat nat)) ≠ {[0 := 2]} ∧
  dom (<[1 := 2]> (delete 0 ({[0 := 2]} : gmap nat nat)))
    = {[1]} ∪ dom ({[0 := 2]} : gmap nat nat) ∖ {[0]} ∧
  (∀ b, (∃ t, <[1 := 2]> (delete 0 ({[0 := 2]} : gmap nat nat)) !! t = Some b) ↔
        (∃ t, ({[0 := 2]} : gmap nat nat) !! t = Some b)).
Proof.
  apply path_rewiring.
  - apply complete_bipartite.
  - apply matching21.
  - by vm_compute.
Defined.

Lemma flip_keeps_cover_witness :
  dom (<[0 := 3]> (<[1 := 2]> seed22)) = dom seed22 ∧
  (∀ b, (∃ t, <[0 := 3]> (<[1 := 2]> seed22) !! t = Some b) ↔ (∃ t, seed22 !! t = Some b)).
Proof.
  apply (flip_keeps_cover k22 seed22 [0; 2; 1; 3]).
  - apply cycle22_alternating.
  - by vm_compute.
Defined.

Lemma enum_perfect_returns_witness :
  Gen.stop (enum_perfect_matchings matcher22 reference_trim reference_find_cycle k22)
  = Returned.
Proof.
  apply enum_perfect_returns.
  - apply reference_trim_contract.
  - apply reference_find_cycle_contract.
  - apply complete_bipartite.
  - apply complete_simple.
  - apply complete_seed_nx.
Defined.

Lemma enum_maximum_returns_witness :
  Gen.stop (enum_maximum_matchings complete_matcher reference_trim reference_find_cycle
              (complete_bipartite_graph 3 2)) = Returned.
Proof.
  apply enum_maximum_returns.
  - apply reference_trim_contract.
  - apply reference_find_cycle_contract.
  - apply complete_bipartite.
  - apply complete_simple.
  - rewrite complete_matcher_seed. apply complete_seed_nx.
Defined.

Lemma perfect_frame_invariant_witness :
  NoDup (Gen.emitted (_enum_perfect_matchings_iter reference_trim reference_find_cycle
                        5 k22 seed22)) ∧
  ∀ n, n ∈ Gen.emitted (_enum_perfect_matchings_iter reference_trim reference_find_cycle
                          5 k22 seed22) →
    is_matching k22 n ∧ size n = size seed22 ∧ n ≠ seed22 ∧
    (∀ t, t ∉ (nodes k22).*1 → n !! t = seed22 !! t) ∧
    (∀ t b, n !! t = Some b → seed22 !! t = Some b ∨ has_edge k22 t b).
Proof.
  apply perfect_frame_invariant.
  - apply reference_trim_contract.
  - apply reference_find_cycle_contract.
  - apply complete_bipartite.
  - done.
  - apply seed22_matching.
Defined.

Lemma maximum_frame_invariant_witness :
  NoDup (Gen.emitted (_enum_maximum_matchings_iter reference_find_cycle 5 k22 seed22
           (create_directed_matching_graph k22 (top_nodes k22) seed22))) ∧
  ∀ n, n ∈ Gen.emitted (_enum_maximum_matchings_iter reference_find_cycle 5 k22 seed22
             (create_directed_matching_graph k22 (top_nodes k22) seed22)) →
    is_matching k22 n ∧ size n = size seed22 ∧ n ≠ seed22 ∧
    (∀ t, t ∉ (nodes k22).*1 → n !! t = seed22 !! t) ∧
    (∀ t b, n !! t = Some b → seed22 !! t = Some b ∨ has_edge k22 t b) ∧
    same_bottoms seed22 n.
Proof.
  apply maximum_frame_invariant.
  - apply reference_find_cycle_contract.
  - apply complete_bipartite.
  - apply complete_bipartite.
  - done.
  - apply seed22_matching.
  - done.
  - done.
Defined.

Lemma enum_perfect_nothing_iff_witness :
  Gen.emitted (enum_perfect_matchings complete_matcher reference_trim reference_find_cycle
                 (complete_bipartite_graph 2 1)) = [] ↔
  ¬ (length (top_nodes (complete_bipartite_graph 2 1))
       = length (bottom_nodes (complete_bipartite_graph 2 1)) ∧
     0 < length (top_nodes (complete_bipartite_graph 2 1)) ∧
     ∃ n, is_matching (complete_bipartite_graph 2 1) n ∧
          size n = length (top_nodes (complete_bipartite_graph 2 1))).
Proof.
  apply enum_perfect_nothing_iff.
  - apply reference_trim_contract.
  - apply reference_find_cycle_contract.
  - apply complete_bipartite.
  - apply complete_matcher_contract. by vm_compute.
Defined.

Lemma enum_maximum_keeps_bottoms_witness :
  (∀ n, n ∈ Gen.emitted (enum_maximum_matchings complete_matcher reference_trim
                           reference_find_cycle (complete_bipartite_graph 1 2)) →
        same_bottoms (seed complete_matcher (complete_bipartite_graph 1 2)) n) ∧
  ({[0 := 2]} : gmap nat nat)
    ∉ Gen.emitted (enum_maximum_matchings complete_matcher reference_trim
                     reference_find_cycle (complete_bipartite_graph 1 2)).
Proof.
  destruct (enum_maximum_keeps_bottoms complete_matcher reference_trim reference_find_cycle
              reference_trim_contract reference_find_cycle_contract
              (complete_bipartite_graph 1 2) (complete_bipartite 1 2)) as [Hall Hnot].
  { rewrite complete_matcher_seed. apply complete_seed_nx. }
  split; [done|]. apply (Hnot _ 0 2); [done|].
  intros t'. apply (bool_decide_unpack _). revert t'.
  assert (seed complete_matcher (complete_bipartite_graph 1 2) = {[0 := 1]}) as ->
    by by vm_compute.
  intros t'. apply bool_decide_pack. intros [_ [=]]%lookup_singleton_Some.
Defined.

Lemma enum_perfect_exact_witness :
  seed22 ∈ Gen.emitted (enum_perfect_matchings matcher22 reference_trim
                          reference_find_cycle k22) ↔
  length (top_nodes k22) = length (bottom_nodes k22) ∧ 0 < length (top_nodes k22) ∧
  is_matching k22 seed22 ∧ size seed22 = length (top_nodes k22).
Proof.
  apply enum_perfect_exact.
  - apply reference_trim_contract.
  - apply reference_find_cycle_contract.
  - apply complete_bipartite.
  - apply reference_trim_complete.
  - apply reference_find_cycle_complete.
  - apply complete_simple.
  - apply seed22_contract.
Defined.

Lemma enum_maximum_exact_witness :
  seed22 ∈ Gen.emitted (enum_maximum_matchings matcher22 reference_trim
                          reference_find_cycle k22) ↔
  seed matcher22 k22 ≠ ∅ ∧ is_matching k22 seed22 ∧ same_bottoms (seed matcher22 k22) seed22.
Proof.
  apply enum_maximum_exact.
  - apply reference_trim_contract.
  - apply reference_find_cycle_contract.
  - apply complete_bipartite.
  - apply reference_trim_complete.
  - apply reference_find_cycle_complete.
  - apply complete_simple.
  - apply complete_seed_nx.
Defined.

Lemma enum_maximum_exact_saturated_witness :
  ({[0 := 4; 2 := 3]} : gmap nat nat)
    ∈ Gen.emitted (enum_maximum_matchings complete_matcher reference_trim
                     reference_find_cycle (complete_bipartite_graph 3 2)) ↔
  is_matching (complete_bipartite_graph 3 2) {[0 := 4; 2 := 3]} ∧
  size ({[0 := 4; 2 := 3]} : gmap nat nat)
    = length (bottom_nodes (complete_bipartite_graph 3 2)).
Proof.
  apply enum_maximum_exact_saturated.
  - apply reference_trim_contract.
  - apply reference_find_cycle_contract.
  - apply complete_bipartite.
  - apply reference_trim_complete.
  - apply reference_find_cycle_complete.
  - apply complete_simple.
  - apply complete_matcher_contract. by vm_compute.
  - vm_compute. lia.
  - exists (seed complete_matcher (complete_bipartite_graph 3 2)). split.
    + apply seed_is_matching; [apply complete_bipartite|].
      rewrite complete_matcher_seed. apply complete_seed_nx.
    + by vm_compute.
Defined.

Lemma enumerators_agree_witness :
  Gen.emitted (enum_perfect_matchings matcher22 reference_trim reference_find_cycle k22)
  ≡ₚ Gen.emitted (enum_maximum_matchings matcher22 reference_trim reference_find_cycle k22).
Proof.
  apply enumerators_agree.
  - apply reference_trim_contract.
  - apply reference_find_cycle_contract.
  - apply complete_bipartite.
  - apply reference_trim_complete.
  - apply reference_find_cycle_complete.
  - apply complete_simple.
  - apply seed22_contract.
  - done.
  - exists seed22. split; [apply seed22_matching|by vm_compute].
Defined.

(** The scenarios of the specification on complete bipartite graphs. *)
Example perfect_k22 :
  map_to_list <$> Gen.emitted (enum_perfect_matchings matcher22 reference_trim
                                 reference_find_cycle k22)
  = [[(1, 3); (0, 2)]; [(1, 2); (0, 3)]].
Proof. by vm_compute. Qed.

Example maximum_k32 :
  length (Gen.emitted (enum_maximum_matchings (λ _ _, complete_seed 3 2) reference_trim
                         reference_find_cycle (complete_bipartite_graph 3 2))) = 6.
Proof. by vm_compute. Qed.
